(** * textimgbot: the render-and-cache pipeline and the reply path

    A shallow embedding of [textimgbot.py].  Python [str] values are lists
    of Unicode code points and [bytes] values are lists of octets, both
    carried by [Z].  The file system, the log, the HTTP session and the
    child processes form an explicit [world] that every effectful function
    threads; the behaviour of the outside (converters, network, directory
    listings) is an [env] record that every statement quantifies over. *)

From Stdlib Require Import ZArith Lia List String Ascii.
From stdpp Require Import base option list gmap.

Local Open Scope Z_scope.

(** ** Python strings *)

Abbreviation pystr := (list Z) (only parsing).
Abbreviation pybytes := (list Z) (only parsing).

(** A source literal, one code point per character. *)
Definition lit (s : string) : pystr :=
  map (fun a => Z.of_N (N_of_ascii a)) (list_ascii_of_string s).

Definition str_eqb (a b : pystr) : bool := bool_decide (a = b).

(** [str.isspace] on one code point: the Unicode white space of CPython. *)
Definition isspace (c : Z) : bool :=
  ((9 <=? c) && (c <=? 13)) || ((28 <=? c) && (c <=? 32))
  || (c =? 133) || (c =? 160) || (c =? 5760)
  || ((8192 <=? c) && (c <=? 8202))
  || (c =? 8232) || (c =? 8233) || (c =? 8239) || (c =? 8287) || (c =? 12288).

Fixpoint lstrip (s : pystr) : pystr :=
  match s with
  | c :: r => if isspace c then lstrip r else s
  | [] => []
  end.

Definition rstrip (s : pystr) : pystr := rev (lstrip (rev s)).

(** [s.strip()] *)
Definition strip (s : pystr) : pystr := rstrip (lstrip s).

(** [s.split(sep)] for a one-character separator: every occurrence cuts,
    empty segments are kept, the empty string gives one empty segment. *)
Fixpoint split (sep : Z) (s : pystr) : list pystr :=
  match s with
  | [] => [[]]
  | c :: r =>
      if c =? sep then [] :: split sep r
      else match split sep r with
           | seg :: segs => (c :: seg) :: segs
           | [] => [[c]]
           end
  end.

(** [sep.join(segs)] *)
Fixpoint join (sep : Z) (segs : list pystr) : pystr :=
  match segs with
  | [] => []
  | [seg] => seg
  | seg :: rest => seg ++ sep :: join sep rest
  end.

(** [s.rstrip(c)] for one character [c]. *)
Fixpoint lstrip_char (c : Z) (s : pystr) : pystr :=
  match s with
  | x :: r => if x =? c then lstrip_char c r else s
  | [] => []
  end.

Definition rstrip_char (c : Z) (s : pystr) : pystr :=
  rev (lstrip_char c (rev s)).

(** ** Exceptions and results *)

Inductive exn : Type :=
  | FileNotFoundError | IsADirectoryError | OSError
  | UnicodeDecodeError | UnicodeEncodeError
  | IndexError | KeyError | ValueError
  | AttributeError | UnboundLocalError | TypeError
  | RequestException | BotAPIFailed.

Inductive res (A : Type) : Type :=
  | Ret (a : A)
  | Raise (e : exn).
Arguments Ret {A} a.
Arguments Raise {A} e.

(** ** [str.format] with positional arguments

    The scanner follows CPython's markup iterator: literal text up to a
    brace, doubled braces as escapes, then a replacement field.  Fields
    that are empty, a short run of ASCII digits or a short ASCII keyword
    are rendered here; a field with a conversion, a format specification,
    an attribute or index lookup, a nested brace, a character outside
    ASCII or more than nine characters is left to the environment
    ([None]).  Errors surface left to right, as the iterator is lazy. *)

Inductive an_state : Type := ANS_INIT | ANS_AUTO | ANS_MANUAL.

Definition is_digit (c : Z) : bool := (48 <=? c) && (c <=? 57).

Definition get_integer (name : pystr) : Z :=
  fold_left (fun acc c => acc * 10 + (c - 48)) name 0.

(** Characters that end the modelled fragment inside a field:
    [!], [:], [.], [[], an opening brace, or anything outside ASCII. *)
Definition fancy (c : Z) : bool :=
  (c =? 33) || (c =? 58) || (c =? 46) || (c =? 91) || (c =? 123)
  || (c <? 0) || (127 <? c).

Inductive field_scan : Type :=
  | FieldEnd (name rest : pystr)
  | FieldOpen
  | FieldFancy.

(** Scan a field after its opening brace, up to the closing brace. *)
Fixpoint parse_field (s : pystr) : field_scan :=
  match s with
  | [] => FieldOpen
  | c :: r =>
      if c =? 125 then FieldEnd [] r
      else if fancy c then FieldFancy
      else match parse_field r with
           | FieldEnd name rest => FieldEnd (c :: name) rest
           | other => other
           end
  end.

(** Render one field: the argument it selects and the numbering state. *)
Definition get_field (name : pystr) (args : list pystr) (st : an_state)
    (auto : nat) : option (res (pystr * an_state * nat)) :=
  if (9 <? Z.of_nat (length name)) then None
  else
    let field_name_is_empty := match name with [] => true | _ => false end in
    let using_numeric_index := field_name_is_empty || forallb is_digit name in
    if negb using_numeric_index then Some (Raise KeyError)
    else
      let st' := match st with
                 | ANS_INIT => if field_name_is_empty then ANS_AUTO else ANS_MANUAL
                 | _ => st
                 end in
      match st', field_name_is_empty with
      | ANS_MANUAL, true => Some (Raise ValueError)
      | ANS_AUTO, false => Some (Raise ValueError)
      | _, _ =>
          let idx := if field_name_is_empty then auto
                     else Z.to_nat (get_integer name) in
          let auto' := if field_name_is_empty then S auto else auto in
          match nth_error args idx with
          | Some a => Some (Ret (a, st', auto'))
          | None => Some (Raise IndexError)
          end
      end.

(** The markup loop; [fuel] bounds the number of characters left. *)
Fixpoint do_markup (fuel : nat) (s : pystr) (args : list pystr)
    (st : an_state) (auto : nat) : option (res pystr) :=
  match fuel with
  | O => Some (Ret [])
  | S fuel' =>
      match s with
      | [] => Some (Ret [])
      | c :: r =>
          if c =? 125 then
            match r with
            | c' :: r' =>
                if c' =? 125 then
                  match do_markup fuel' r' args st auto with
                  | Some (Ret out) => Some (Ret (125 :: out))
                  | other => other
                  end
                else Some (Raise ValueError)
            | [] => Some (Raise ValueError)
            end
          else if c =? 123 then
            match r with
            | [] => Some (Raise ValueError)
            | c' :: r' =>
                if c' =? 123 then
                  match do_markup fuel' r' args st auto with
                  | Some (Ret out) => Some (Ret (123 :: out))
                  | other => other
                  end
                else
                  match parse_field r with
                  | FieldFancy => None
                  | FieldOpen => Some (Raise ValueError)
                  | FieldEnd name rest =>
                      match get_field name args st auto with
                      | None => None
                      | Some (Raise e) => Some (Raise e)
                      | Some (Ret (a, st', auto')) =>
                          match do_markup fuel' rest args st' auto' with
                          | Some (Ret out) => Some (Ret (a ++ out))
                          | other => other
                          end
                      end
                  end
            end
          else
            match do_markup fuel' r args st auto with
            | Some (Ret out) => Some (Ret (c :: out))
            | other => other
            end
      end
  end.

Definition format_simple (template : pystr) (args : list pystr)
    : option (res pystr) :=
  do_markup (S (length template)) template args ANS_INIT 0%nat.

(** ** The UTF-8 codec (strict error handler) *)

Definition encode_cp (c : Z) : option pybytes :=
  if c <? 0 then None
  else if c <? 128 then Some [c]
  else if c <? 2048 then Some [192 + c / 64; 128 + c mod 64]
  else if c <? 65536 then
    if (55296 <=? c) && (c <=? 57343) then None
    else Some [224 + c / 4096; 128 + (c / 64) mod 64; 128 + c mod 64]
  else if c <? 1114112 then
    Some [240 + c / 262144; 128 + (c / 4096) mod 64;
          128 + (c / 64) mod 64; 128 + c mod 64]
  else None.

(** [s.encode('utf-8')]; [None] is [UnicodeEncodeError]. *)
Fixpoint utf8_encode (s : pystr) : option pybytes :=
  match s with
  | [] => Some []
  | c :: r =>
      match encode_cp c, utf8_encode r with
      | Some b, Some br => Some (b ++ br)
      | _, _ => None
      end
  end.

Definition is_cont (b : Z) : bool := (128 <=? b) && (b <=? 191).

(** [b.decode('utf-8')]; [None] is [UnicodeDecodeError].  Overlong forms,
    surrogates and code points above U+10FFFF are rejected. *)
Fixpoint utf8_decode (b : pybytes) : option pystr :=
  match b with
  | [] => Some []
  | b0 :: r =>
      if (0 <=? b0) && (b0 <? 128) then
        match utf8_decode r with Some s => Some (b0 :: s) | None => None end
      else if (194 <=? b0) && (b0 <=? 223) then
        match r with
        | b1 :: r1 =>
            if is_cont b1 then
              match utf8_decode r1 with
              | Some s => Some ((b0 - 192) * 64 + (b1 - 128) :: s)
              | None => None
              end
            else None
        | _ => None
        end
      else if (224 <=? b0) && (b0 <=? 239) then
        match r with
        | b1 :: b2 :: r2 =>
            let c := (b0 - 224) * 4096 + (b1 - 128) * 64 + (b2 - 128) in
            if is_cont b1 && is_cont b2 && (2048 <=? c)
               && negb ((55296 <=? c) && (c <=? 57343)) then
              match utf8_decode r2 with
              | Some s => Some (c :: s)
              | None => None
              end
            else None
        | _ => None
        end
      else if (240 <=? b0) && (b0 <=? 244) then
        match r with
        | b1 :: b2 :: b3 :: r3 =>
            let c := (b0 - 240) * 262144 + (b1 - 128) * 4096
                     + (b2 - 128) * 64 + (b3 - 128) in
            if is_cont b1 && is_cont b2 && is_cont b3
               && (65536 <=? c) && (c <? 1114112) then
              match utf8_decode r3 with
              | Some s => Some (c :: s)
              | None => None
              end
            else None
        | _ => None
        end
      else None
  end.

(** ** [hashlib.sha256] *)

Module SHA256.

Definition add32 (a b : Z) : Z := (a + b) mod 4294967296.

Definition rotr (n x : Z) : Z :=
  Z.lor (Z.shiftr x n) (Z.shiftl x (32 - n)) mod 4294967296.

Definition Ch (x y z : Z) : Z :=
  Z.lxor (Z.land x y) (Z.land (Z.lnot x mod 4294967296) z).

Definition Maj (x y z : Z) : Z :=
  Z.lxor (Z.lxor (Z.land x y) (Z.land x z)) (Z.land y z).

Definition Sigma0 (x : Z) : Z := Z.lxor (Z.lxor (rotr 2 x) (rotr 13 x)) (rotr 22 x).
Definition Sigma1 (x : Z) : Z := Z.lxor (Z.lxor (rotr 6 x) (rotr 11 x)) (rotr 25 x).
Definition sigma0 (x : Z) : Z := Z.lxor (Z.lxor (rotr 7 x) (rotr 18 x)) (Z.shiftr x 3).
Definition sigma1 (x : Z) : Z := Z.lxor (Z.lxor (rotr 17 x) (rotr 19 x)) (Z.shiftr x 10).

Definition K : list Z :=
  [1116352408; 1899447441; 3049323471; 3921009573; 961987163; 1508970993;
   2453635748; 2870763221; 3624381080; 310598401; 607225278; 1426881987;
   1925078388; 2162078206; 2614888103; 3248222580; 3835390401; 4022224774;
   264347078; 604807628; 770255983; 1249150122; 1555081692; 1996064986;
   2554220882; 2821834349; 2952996808; 3210313671; 3336571891; 3584528711;
   113926993; 338241895; 666307205; 773529912; 1294757372; 1396182291;
   1695183700; 1986661051; 2177026350; 2456956037; 2730485921; 2820302411;
   3259730800; 3345764771; 3516065817; 3600352804; 4094571909; 275423344;
   430227734; 506948616; 659060556; 883997877; 958139571; 1322822218;
   1537002063; 1747873779; 1955562222; 2024104815; 2227730452; 2361852424;
   2428436474; 2756734187; 3204031479; 3329325298].

(** Big-endian octets of [x], [n] of them. *)
Fixpoint be_bytes (n : nat) (x : Z) : list Z :=
  match n with
  | O => []
  | S n' => be_bytes n' (x / 256) ++ [x mod 256]
  end.

Definition be_word (bs : list Z) : Z :=
  fold_left (fun acc b => acc * 256 + b) bs 0.

Definition pad (msg : list Z) : list Z :=
  let l := Z.of_nat (length msg) in
  msg ++ [128] ++ repeat 0 (Z.to_nat ((55 - l) mod 64)) ++ be_bytes 8 (8 * l).

Fixpoint chunks (fuel : nat) (n : nat) (l : list Z) : list (list Z) :=
  match fuel with
  | O => []
  | S fuel' =>
      match l with
      | [] => []
      | _ => firstn n l :: chunks fuel' n (skipn n l)
      end
  end.

Definition words (block : list Z) : list Z :=
  map be_word (chunks 16 4 block).

(** The message schedule, sixteen words extended to sixty-four. *)
Fixpoint schedule (n : nat) (w : list Z) : list Z :=
  match n with
  | O => w
  | S n' =>
      let t := length w in
      let g (i : nat) := nth (t - i) w 0 in
      schedule n' (w ++ [add32 (add32 (sigma1 (g 2%nat)) (g 7%nat))
                               (add32 (sigma0 (g 15%nat)) (g 16%nat))])
  end.

Record regs : Type :=
  Regs { ra : Z; rb : Z; rc : Z; rd : Z; re : Z; rf : Z; rg : Z; rh : Z }.

Definition round (s : regs) (kw : Z * Z) : regs :=
  let '(k, w) := kw in
  let t1 := add32 (add32 (add32 (rh s) (Sigma1 (re s))) (Ch (re s) (rf s) (rg s)))
                  (add32 k w) in
  let t2 := add32 (Sigma0 (ra s)) (Maj (ra s) (rb s) (rc s)) in
  Regs (add32 t1 t2) (ra s) (rb s) (rc s) (add32 (rd s) t1) (re s) (rf s) (rg s).

Definition compress (h : regs) (block : list Z) : regs :=
  let w := schedule 48 (words block) in
  let s := fold_left round (combine K w) h in
  Regs (add32 (ra h) (ra s)) (add32 (rb h) (rb s)) (add32 (rc h) (rc s))
       (add32 (rd h) (rd s)) (add32 (re h) (re s)) (add32 (rf h) (rf s))
       (add32 (rg h) (rg s)) (add32 (rh h) (rh s)).

Definition init : regs :=
  Regs 1779033703 3144134277 1013904242 2773480762
       1359893119 2600822924 528734635 1541459225.

(** [hashlib.sha256(msg).digest()] *)
Definition digest (msg : list Z) : list Z :=
  let p := pad msg in
  let h := fold_left compress (chunks (length p) 64 p) init in
  be_bytes 4 (ra h) ++ be_bytes 4 (rb h) ++ be_bytes 4 (rc h) ++ be_bytes 4 (rd h)
  ++ be_bytes 4 (re h) ++ be_bytes 4 (rf h) ++ be_bytes 4 (rg h) ++ be_bytes 4 (rh h).

End SHA256.

(** ** [base64.urlsafe_b64encode] *)

Definition b64char (i : Z) : Z :=
  if i <? 26 then 65 + i
  else if i <? 52 then 97 + (i - 26)
  else if i <? 62 then 48 + (i - 52)
  else if i =? 62 then 45
  else 95.

Fixpoint urlsafe_b64encode (l : pybytes) : pybytes :=
  match l with
  | a :: b :: c :: r =>
      b64char (a / 4) :: b64char ((a mod 4) * 16 + b / 16)
      :: b64char ((b mod 16) * 4 + c / 64) :: b64char (c mod 64)
      :: urlsafe_b64encode r
  | [a; b] =>
      [b64char (a / 4); b64char ((a mod 4) * 16 + b / 16);
       b64char ((b mod 16) * 4); 61]
  | [a] => [b64char (a / 4); b64char ((a mod 4) * 16); 61; 61]
  | [] => []
  end.

(** ** [hashstr] (line 42) *)

Definition hashstr (s : pystr) : res pystr :=
  match utf8_encode s with
  | None => Raise UnicodeEncodeError
  | Some b =>
      match utf8_decode (urlsafe_b64encode (SHA256.digest b)) with
      | None => Raise UnicodeDecodeError
      | Some t => Ret (rstrip_char 61 t)
      end
  end.

(** ** The world

    Files are a finite map from path strings to nodes; paths are compared
    as written (no normalisation, no links). *)

Inductive node : Type :=
  | File (content : pybytes)
  | Dir.

Abbreviation fsmap := (gmap (list Z) node).

Inductive proc_event : Type :=
  | Spawned (argv : list pystr)
  | Killed (argv : list pystr).

Inductive log_event : Type :=
  | InkscapeError (tool : pystr) (returncode : Z)
  | InkscapeInfo (outs : pystr)
  | BotapiWarning (chat_id : Z) (reply_to_message_id : option Z)
  | BotapiDebug (len : Z) (head : pystr)
  | BotapiException (e : exn).

Inductive pyval : Type :=
  | PStr (s : pystr)
  | PInt (n : Z)
  | PNone.

Abbreviation params := (list (pystr * pyval)).

Abbreviation registry := (list (pystr * pystr)).

Record world : Type := World {
  fs : fsmap;                              (* the file system *)
  template_cache : option registry;        (* the global of line 33 *)
  procs : list proc_event;                 (* child processes, oldest first *)
  calls : list (pystr * pystr * list pystr); (* entries into generate_image *)
  logs : list log_event;                   (* logging calls, oldest first *)
  posts : list (pystr * params);           (* HSession.post calls *)
  sleeps : list Z;                         (* time.sleep calls, seconds *)
  writes : list (pystr * pystr)            (* texts taken by f.write, by file *)
}.

Definition set_fs (f : fsmap) (w : world) : world :=
  World f (template_cache w) (procs w) (calls w) (logs w) (posts w) (sleeps w)
        (writes w).
Definition set_template_cache (c : option registry) (w : world) : world :=
  World (fs w) c (procs w) (calls w) (logs w) (posts w) (sleeps w)
        (writes w).
Definition add_procs (p : list proc_event) (w : world) : world :=
  World (fs w) (template_cache w) (procs w ++ p) (calls w) (logs w) (posts w) (sleeps w)
        (writes w).
Definition add_call (c : pystr * pystr * list pystr) (w : world) : world :=
  World (fs w) (template_cache w) (procs w) (calls w ++ [c]) (logs w) (posts w) (sleeps w)
        (writes w).
Definition add_log (l : log_event) (w : world) : world :=
  World (fs w) (template_cache w) (procs w) (calls w) (logs w ++ [l]) (posts w) (sleeps w)
        (writes w).
Definition add_post (p : pystr * params) (w : world) : world :=
  World (fs w) (template_cache w) (procs w) (calls w) (logs w) (posts w ++ [p]) (sleeps w)
        (writes w).
Definition add_write (x : pystr * pystr) (w : world) : world :=
  World (fs w) (template_cache w) (procs w) (calls w) (logs w) (posts w) (sleeps w)
        (writes w ++ [x]).
Definition add_sleep (s : Z) (w : world) : world :=
  World (fs w) (template_cache w) (procs w) (calls w) (logs w) (posts w) (sleeps w ++ [s])
        (writes w).

(** How a child process ends: [Popen] itself fails; or the process exits
    within the ten seconds; or [communicate] times out and the process is
    killed and reaped.  The two last carry the return code and output that
    the code then reads, and the file system the process leaves behind. *)
Inductive proc_outcome : Type :=
  | SpawnFails (e : exn)
  | Exits (returncode : Z) (outs : pybytes) (after : fsmap)
  | TimesOut (returncode : Z) (outs : pybytes) (after : fsmap).

Inductive http_outcome : Type :=
  | PostRaises (e : exn)
  | PostContent (retjson : pybytes).

(** A parsed reply: what [ret['ok']] and [ret['result']] evaluate to. *)
Record json_value : Type := Json {
  get_ok : res bool;
  get_result : res pystr;
  repr : pystr
}.

(** Everything the program does not decide.  Each oracle sees the whole
    world, history included, so outcomes may differ from call to call. *)
Record env : Type := Env {
  cfg_images : pystr;                        (* CFG['images'] *)
  cfg_templates : pystr;                     (* CFG['templates'] *)
  cfg_apitoken : pystr;                      (* CFG.apitoken *)
  popen : world -> list pystr -> proc_outcome;
  mktemp : world -> res pystr;               (* the temporary name, less its suffix *)
  locale_encode : pystr -> option pybytes;   (* the codec of the locale, strict *)
  write_through : pybytes -> pybytes;        (* see [write] *)
  format_ext : pystr -> list pystr -> res pystr; (* str.format beyond [format_simple] *)
  listdir : world -> pystr -> res (list pystr);  (* os.listdir *)
  http_post : world -> pystr -> params -> http_outcome;
  json_loads : pystr -> res json_value
}.

(** ** State and exceptions *)

Definition M (A : Type) : Type := world -> res A * world.

Definition ret {A} (a : A) : M A := fun w => (Ret a, w).
Definition raise {A} (e : exn) : M A := fun w => (Raise e, w).
Definition bind {A B} (m : M A) (k : A -> M B) : M B :=
  fun w => match m w with
           | (Ret a, w') => k a w'
           | (Raise e, w') => (Raise e, w')
           end.
Definition lift {A} (r : res A) : M A := fun w => (r, w).
Definition modify (f : world -> world) : M unit := fun w => (Ret tt, f w).
Definition gets {A} (f : world -> A) : M A := fun w => (Ret (f w), w).

(** [try: m finally: cleanup] and the exit of a [with] block. *)
Definition finally {A} (m : M A) (cleanup : world -> world) : M A :=
  fun w => let '(r, w') := m w in (r, cleanup w').

Declare Scope m_scope.
Delimit Scope m_scope with M.
Notation "x <- m ;; k" := (bind m (fun x => k))
  (at level 100, m at next level, right associativity) : m_scope.
Notation "m ;;; k" := (bind m (fun _ => k))
  (at level 100, right associativity) : m_scope.
Local Open Scope m_scope.

(** ** Files and paths *)

(** [os.path.isfile] *)
Definition isfile (f : fsmap) (path : pystr) : bool :=
  match f !! path with
  | Some (File _) => true
  | _ => false
  end.

(** [os.path.join] with two components (posixpath). *)
Definition os_path_join (a b : pystr) : pystr :=
  match b with
  | 47 :: _ => b
  | _ => match rev a with
         | [] => b
         | 47 :: _ => a ++ b
         | _ => a ++ 47 :: b
         end
  end.

(** Text mode on input: [\r\n] and [\r] become [\n]. *)
Fixpoint universal_newlines (s : pystr) : pystr :=
  match s with
  | 13 :: r =>
      match r with
      | 10 :: r' => 10 :: universal_newlines r'
      | _ => 10 :: universal_newlines r
      end
  | c :: r => c :: universal_newlines r
  | [] => []
  end.

(** [with open(path, 'r', encoding='utf-8') as f: f.read()] *)
Definition open_read (path : pystr) : M pystr :=
  fun w => match fs w !! path with
           | None => (Raise FileNotFoundError, w)
           | Some Dir => (Raise IsADirectoryError, w)
           | Some (File b) =>
               match utf8_decode b with
               | None => (Raise UnicodeDecodeError, w)
               | Some s => (Ret (universal_newlines s), w)
               end
           end.

(** [tempfile.NamedTemporaryFile('w', suffix='.svg')]: a new empty file
    under a name that was free; the environment picks the directory and
    the random part, the suffix is the one asked for. *)
Definition NamedTemporaryFile (E : env) : M pystr :=
  fun w => match mktemp E w with
           | Raise e => (Raise e, w)
           | Ret base =>
               let name := base ++ lit ".svg" in
               match fs w !! name with
               | Some _ => (Raise OSError, w)
               | None => (Ret name, set_fs (<[name := File []]> (fs w)) w)
               end
           end.

(** [f.write(text)] on the temporary file (line 147).  The file object
    was opened in text mode without an encoding, so the text is encoded,
    strictly, with the encoding of the locale (line ends stay as they
    are, as on POSIX).  The octets go to the
    buffers of the file object, and nothing flushes them before the
    converter is started: the text layer of CPython keeps back fewer than
    8192 pending octets, so the file of a shorter document is still empty
    at that time; a longer one is handed to the binary layer, and
    [write_through] gives the octets that this layer has passed on to the
    file (all of them when they exceed its buffer, none otherwise).  What
    is kept back would reach the file when the [with] block closes it,
    just before the file is removed. *)
Definition io_chunk_size : Z := 8192.

Definition write (E : env) (name text : pystr) : M unit :=
  fun w => match locale_encode E text with
           | None => (Raise UnicodeEncodeError, w)
           | Some b =>
               let on_disk :=
                 if Z.of_nat (length b) <? io_chunk_size then []
                 else write_through E b in
               (Ret tt,
                add_write (name, text)
                  (set_fs (<[name := File on_disk]> (fs w)) w))
           end.

(** Leaving the [with] block of the temporary file closes and removes
    it; a name that is gone by then is passed over, as [tempfile] does from
    Python 3.12 on. *)
Definition close_tmp (name : pystr) (w : world) : world :=
  set_fs (delete name (fs w)) w.

(** [try: os.unlink(path) except FileNotFoundError: pass] *)
Definition unlink_quiet (path : pystr) : M unit :=
  fun w => match fs w !! path with
           | None => (Ret tt, w)
           | Some Dir => (Raise IsADirectoryError, w)
           | Some (File _) => (Ret tt, set_fs (delete path (fs w)) w)
           end.

(** [Popen(argv, ...)], [communicate(timeout=10)], and on
    [TimeoutExpired] [kill()] and [communicate()] again: the return code
    and the captured output. *)
Definition communicate (E : env) (argv : list pystr) : M (Z * pybytes) :=
  fun w => match popen E w argv with
           | SpawnFails e => (Raise e, w)
           | Exits rc outs f => (Ret (rc, outs), set_fs f (add_procs [Spawned argv] w))
           | TimesOut rc outs f =>
               (Ret (rc, outs), set_fs f (add_procs [Spawned argv; Killed argv] w))
           end.

(** [bytes.decode()] *)
Definition decode (b : pybytes) : M pystr :=
  match utf8_decode b with
  | Some s => ret s
  | None => raise UnicodeDecodeError
  end.

Definition str_format (E : env) (template : pystr) (args : list pystr) : res pystr :=
  match format_simple template args with
  | Some r => r
  | None => format_ext E template args
  end.

(** ** [generate_image] (line 143), called without keyword arguments *)

Definition inkscape_argv (output tmp : pystr) : list pystr :=
  [lit "inkscape"; lit "-z"; lit "--export-background=white"; lit "-e";
   output ++ lit ".png"; tmp].

Definition convert_argv (output : pystr) : list pystr :=
  [lit "convert"; output ++ lit ".png"; output].

(** Lines 144 and 145: read the template and substitute. *)
Definition expand_template (E : env) (templatefile : pystr)
    (args : list pystr) : M pystr :=
  text <- open_read templatefile ;;
  lift (str_format E text args).

Definition generate_image (E : env) (templatefile output : pystr)
    (args : list pystr) : M bool :=
  modify (add_call (templatefile, output, args)) ;;;
  template <- expand_template E templatefile args ;;
  f_name <- NamedTemporaryFile E ;;
  finally
    (write E f_name template ;;;
     p <- communicate E (inkscape_argv output f_name) ;;
     if negb (fst p =? 0) then
       modify (add_log (InkscapeError (lit "Inkscape") (fst p))) ;;;
       outs <- decode (snd p) ;;
       modify (add_log (InkscapeInfo outs)) ;;;
       ret false
     else
       p <- communicate E (convert_argv output) ;;
       unlink_quiet (output ++ lit ".png") ;;;
       if negb (fst p =? 0) then
         modify (add_log (InkscapeError (lit "Convert") (fst p))) ;;;
         outs <- decode (snd p) ;;
         modify (add_log (InkscapeInfo outs)) ;;;
         ret false
       else ret true)
    (close_tmp f_name).

(** ** [render_images] (line 180) *)

Definition render_args (text : pystr) : list pystr := text :: split 47 text.

Definition artifact_key (template text : pystr) : res pystr :=
  hashstr (template ++ lit "|" ++ text).

Definition artifact_path (E : env) (fileid : pystr) : pystr :=
  os_path_join (cfg_images E) (fileid ++ lit ".jpg").

(** One turn of the loop of line 183, [acc] being [ret] so far. *)
Definition render_one (E : env) (text : pystr) (acc : list pystr)
    (entry : pystr * pystr) : M (list pystr) :=
  let '(template, templatefile) := entry in
  fileid <- lift (artifact_key template text) ;;
  let filepath := artifact_path E fileid in
  present <- gets (fun w => isfile (fs w) filepath) ;;
  if present then ret (acc ++ [fileid])
  else
    success <- generate_image E templatefile filepath (render_args text) ;;
    if success then ret (acc ++ [fileid]) else ret acc.

Fixpoint for_each {A B} (f : A -> B -> M A) (l : list B) (acc : A) : M A :=
  match l with
  | [] => ret acc
  | x :: r => acc' <- f acc x ;; for_each f r acc'
  end.

Definition render_loop (E : env) (text : pystr) (reg : registry)
    (acc : list pystr) : M (list pystr) :=
  for_each (render_one E text) reg acc.

Definition render_images (E : env) (text : pystr) : M (list pystr) :=
  cache <- gets template_cache ;;
  match cache with
  | None => raise AttributeError
  | Some reg => render_loop E text reg []
  end.

(** ** [update_templates] (line 135) *)

(** [d[k] = v] on an [OrderedDict]: a known key keeps its place. *)
Fixpoint od_set (k v : pystr) (d : registry) : registry :=
  match d with
  | [] => [(k, v)]
  | (k', v') :: r =>
      if str_eqb k k' then (k, v) :: r else (k', v') :: od_set k v r
  end.

(** [p.rfind(c)]: the last index of [c], or -1. *)
Definition rfind (c : Z) (p : pystr) : Z :=
  snd (fold_left (fun st x => (fst st + 1, if x =? c then fst st else snd st))
                 p (0, -1)).

(** [os.path.splitext] (genericpath): the extension starts at the last
    dot after the last slash, leading dots of the file name apart. *)
Definition splitext (p : pystr) : pystr * pystr :=
  let sepIndex := rfind 47 p in
  let dotIndex := rfind 46 p in
  if (sepIndex <? dotIndex)
     && existsb (fun x => negb (x =? 46))
          (firstn (Z.to_nat (dotIndex - (sepIndex + 1)))
                  (skipn (Z.to_nat (sepIndex + 1)) p))
  then (firstn (Z.to_nat dotIndex) p, skipn (Z.to_nat dotIndex) p)
  else (p, []).

(** The body of the loop of line 138 for the directory entry [i]. *)
Definition update_step (E : env) (i : pystr) : M unit :=
  let '(name, ext) := splitext i in
  if str_eqb ext (lit ".svg") then
    cache <- gets template_cache ;;
    match cache with
    | None => raise TypeError
    | Some d =>
        modify (set_template_cache
                  (Some (od_set name (os_path_join (cfg_templates E) i) d)))
    end
  else ret tt.

Definition os_listdir (E : env) (path : pystr) : M (list pystr) :=
  fun w => (listdir E w path, w).

Definition update_templates (E : env) : M unit :=
  modify (set_template_cache (Some [])) ;;;
  entries <- os_listdir E (cfg_templates E) ;;
  for_each (fun _ i => update_step E i) entries tt.

(** What a reader of the global can see while [update_templates] runs
    over the listing [entries]: the value after the first assignment and
    after every turn of the loop. *)
Definition visible_registries (E : env) (entries : list pystr) (w : world)
    : list (option registry) :=
  map (fun k =>
         template_cache
           (snd (for_each (fun _ i => update_step E i) (firstn k entries) tt
                          (set_template_cache (Some []) w))))
      (seq 0 (S (length entries))).

(** ** The Bot API (lines 57 to 100) *)

Inductive attempt_result : Type :=
  | Continue
  | Break (ret : json_value).

(** The [try] body of lines 71 to 77. *)
Definition api_url (E : env) (method : pystr) : pystr :=
  lit "https://api.telegram.org/bot" ++ cfg_apitoken E ++ lit "/" ++ method.

Definition attempt (E : env) (method : pystr) (p : params) : M attempt_result :=
  fun w =>
    let w1 := add_post (api_url E method, p) w in
    match http_post E w (api_url E method) p with
    | PostRaises e => (Raise e, w1)
    | PostContent retjson =>
        match retjson with
        | [] => (Ret Continue, w1)
        | _ =>
            match utf8_decode retjson with
            | None => (Raise UnicodeDecodeError, w1)
            | Some s =>
                match json_loads E s with
                | Raise e => (Raise e, w1)
                | Ret v => (Ret (Break v), w1)
                end
            end
        end
    end.

(** [for att in atts: try: ... except Exception as ex: ...]; the value is
    [ret] if the loop bound it. *)
Fixpoint bot_api_loop (E : env) (method : pystr) (p : params) (atts : list Z)
    : M (option json_value) :=
  match atts with
  | [] => ret None
  | att :: rest =>
      fun w =>
        match attempt E method p w with
        | (Ret Continue, w') => bot_api_loop E method p rest w'
        | (Ret (Break v), w') => (Ret (Some v), w')
        | (Raise ex, w') =>
            if att <? 1 then
              bot_api_loop E method p rest (add_sleep ((att + 1) * 2) w')
            else (Raise ex, w')
        end
  end.

Definition bot_api (E : env) (method : pystr) (p : params) : M pystr :=
  r <- bot_api_loop E method p [0; 1; 2] ;;
  match r with
  | None => raise UnboundLocalError
  | Some v =>
      ok <- lift (get_ok v) ;;
      if negb ok then raise BotAPIFailed else lift (get_result v)
  end.

(** [async_func]: the task that the pool runs is [func_noerr]; it is run
    here to its end when submitted, and [wrapped] returns nothing. *)
Definition async_func {A} (func : M A) : M unit :=
  fun w => match func w with
           | (Ret _, w') => (Ret tt, w')
           | (Raise e, w') => (Ret tt, add_log (BotapiException e) w')
           end.

Definition len (s : pystr) : Z := Z.of_nat (length s).

(** The function that [@async_func] decorates at line 87. *)
Definition sendmsg_body (E : env) (text : pystr) (chat_id : Z)
    (reply_to_message_id : option Z) (kwargs : params) : M (option pystr) :=
  let text := strip text in
  match text with
  | [] =>
      modify (add_log (BotapiWarning chat_id reply_to_message_id)) ;;;
      ret None
  | _ =>
      modify (add_log (BotapiDebug (len text) (firstn 20 text))) ;;;
      let text := if 2000 <? len text then firstn 1999 text ++ [8230] else text in
      let reply_id :=
        match reply_to_message_id with
        | Some r => if negb (r =? 0) && (r <? 0) then None else Some r
        | None => None
        end in
      if existsb (fun kv => str_eqb (fst kv) (lit "method")) kwargs
      then raise TypeError (* bot_api() got multiple values for 'method' *)
      else
        r <- bot_api E (lit "sendMessage")
               ([(lit "chat_id", PInt chat_id); (lit "text", PStr text);
                 (lit "reply_to_message_id",
                  match reply_id with Some r => PInt r | None => PNone end)]
                ++ kwargs) ;;
        ret (Some r)
  end.

Definition sendmsg (E : env) (text : pystr) (chat_id : Z)
    (reply_to_message_id : option Z) (kwargs : params) : M unit :=
  async_func (sendmsg_body E text chat_id reply_to_message_id kwargs).

(** The [text] field of the form data of a request. *)
Definition param_text (p : params) : option pyval :=
  snd <$> find (fun kv => str_eqb (fst kv) (lit "text")) p.

Definition has_method_key (kwargs : params) : bool :=
  existsb (fun kv => str_eqb (fst kv) (lit "method")) kwargs.

(** ** [hashfile] (line 45)

    The hash object is the octets fed to it so far: [update] appends and
    [digest] hashes them, as [hashlib] documents. *)

(** The loop [for chunk in iter(lambda: f.read(4096), b'')] over what is
    left of the file; the empty chunk ends it. *)
Fixpoint read_chunks (fuel : nat) (rest hash_obj : pybytes) : pybytes :=
  match fuel with
  | O => hash_obj
  | S fuel' =>
      match firstn 4096 rest with
      | [] => hash_obj
      | chunk => read_chunks fuel' (skipn 4096 rest) (hash_obj ++ chunk)
      end
  end.

Definition hashfile (filename : pystr) : M pystr :=
  fun w => match fs w !! filename with
           | None => (Raise FileNotFoundError, w)
           | Some Dir => (Raise IsADirectoryError, w)
           | Some (File content) =>
               let hash_obj := read_chunks (S (length content)) content [] in
               match utf8_decode (urlsafe_b64encode (SHA256.digest hash_obj)) with
               | None => (Raise UnicodeDecodeError, w)
               | Some t => (Ret (rstrip_char 61 t), w)
               end
           end.

(** ** [parse_cmd] (line 121) *)

(** [s.replace(a, b)] for single characters. *)
Definition replace_char (a b : Z) (s : pystr) : pystr :=
  map (fun c => if c =? a then b else c) s.

(** [s.split(sep, 1)]: cut at the first separator only. *)
Fixpoint split1 (sep : Z) (s : pystr) : list pystr :=
  match s with
  | [] => [[]]
  | c :: r =>
      if c =? sep then [[]; r]
      else match split1 sep r with
           | a :: rest => (c :: a) :: rest
           | [] => [[c]]
           end
  end.

(** [s.rsplit(sep, 1)]: cut at the last separator only. *)
Definition rsplit1 (sep : Z) (s : pystr) : list pystr :=
  match split1 sep (rev s) with
  | [a; b] => [rev b; rev a]
  | _ => [s]
  end.

(** [username] is [CFG.username] when the key is in [CFG]. *)
Definition parse_cmd (username : option pystr) (text : pystr)
    : option pystr * option pystr :=
  let t := split1 32 (replace_char 160 32 (strip text)) in
  match t with
  | [] => (None, None)
  | t0 :: t_rest =>
      let cmd := rsplit1 64 t0 in
      let cmd0 := hd [] cmd in
      if (len cmd0 <? 2) || negb (str_eqb (firstn 1 cmd0) (lit "/"))
      then (None, None)
      else if (1 <? Z.of_nat (length cmd))
              && match username with
                 | Some u => negb (str_eqb (List.last cmd []) u)
                 | None => false
                 end
      then (None, None)
      else
        let expr := match t_rest with e :: _ => e | [] => [] end in
        (Some (skipn 1 cmd0), Some (strip expr))
  end.

(** ** Query handling (lines 196 to 254) *)

Definition START : pystr :=
  lit "This is the Text Image Render Bot. Send /help, or directly use its inline mode.".

Definition HELP : pystr :=
  lit "You can type text for images in its inline mode, seperate parameters by "
  ++ [34] ++ lit "/" ++ [34] ++ lit "." ++ [10]
  ++ lit "You can add your SVG template by sending SVG files, delete your template by "
  ++ lit "/delsvg [id]. The SVG must have Python str.format code ({0} is the full text, "
  ++ lit "{1} and so on are the parameters), and must be compatible with Inkscape.".

(** An update as the Bot API delivers it: the fields have their
    documented types, and the fields that the handler probes may be
    absent.  Of a document only its truth value is used. *)
Record chat : Type := Chat { chat_id : Z; chat_type : pystr }.

Record message : Type := Message {
  msg_chat : chat;
  msg_text : option pystr;
  msg_document : bool;
  message_id : Z
}.

Record inline_query : Type := InlineQuery { iq_id : pystr; iq_query : pystr }.

Record update : Type := Update {
  upd_inline_query : option inline_query;
  upd_message : option message
}.

(** One entry of the result list of an inline query. *)
Record inline_photo : Type := InlinePhoto {
  ir_type : pystr;
  ir_id : pystr;
  ir_photo_url : pystr;
  ir_thumb_url : pystr
}.

(** What the handlers need beyond [env]: two more entries of [CFG] and
    [json.dumps] on a result list. *)
Record setup : Type := Setup {
  cfg_urlroot : pystr;                         (* CFG['urlroot'] *)
  cfg_username : option pystr;                 (* CFG.username, if present *)
  json_dumps : list inline_photo -> pystr
}.

Definition inline_result (C : setup) (images : list pystr) : list inline_photo :=
  map (fun d => InlinePhoto (lit "photo") d
                  (cfg_urlroot C ++ d ++ lit ".jpg")
                  (cfg_urlroot C ++ d ++ lit ".jpg"))
      images.

(** [answer] (line 102), decorated with [async_func]. *)
Definition answer (C : setup) (E : env) (inline_query_id : pystr)
    (results : list inline_photo) : M unit :=
  async_func
    (bot_api E (lit "answerInlineQuery")
       [(lit "inline_query_id", PStr inline_query_id);
        (lit "results", PStr (json_dumps C results))]).

Definition cmd_delsvg (c : chat) : option pystr :=
  if str_eqb (chat_type c) (lit "private") then Some (lit "Not Implemented.")
  else None.

Definition on_document (c : chat) : option pystr :=
  if str_eqb (chat_type c) (lit "private") then Some (lit "Not Implemented.")
  else None.

(** The records that the handler itself logs; they are its value here. *)
Inductive handler_log : Type :=
  | LogUpdate (d : update)
  | LogRendered (text : pystr)
  | LogAnswer
  | LogFailed (e : exn).

(** The [try] body of [handle_api_update]. *)
Definition handle_body (C : setup) (E : env) (d : update) : M (list handler_log) :=
  match upd_inline_query d with
  | Some query =>
      let text := strip (iq_query query) in
      match text with
      | [] => ret []
      | _ =>
          images <- render_images E text ;;
          answer C E (iq_id query) (inline_result C images) ;;;
          ret [LogRendered text; LogAnswer]
      end
  | None =>
      match upd_message d with
      | Some msg =>
          let text := match msg_text msg with Some t => t | None => [] end in
          let reply :=
            if msg_document msg then
              let _ := on_document (msg_chat msg) in None
            else
              match text with
              | [] => None
              | _ =>
                  let cmd := fst (parse_cmd (cfg_username C) text) in
                  if str_eqb (chat_type (msg_chat msg)) (lit "private") then
                    match cmd with
                    | Some c =>
                        if str_eqb c (lit "start") then Some START
                        else if str_eqb c (lit "delsvg")
                        then cmd_delsvg (msg_chat msg)
                        else Some HELP
                    | None => Some HELP
                    end
                  else None
              end in
          match reply with
          | Some (c :: r) =>
              sendmsg E (c :: r) (chat_id (msg_chat msg))
                (Some (message_id msg)) [] ;;;
              ret []
          | _ => ret []
          end
      | None => ret []
      end
  end.

(** [handle_api_update] (line 205). *)
Definition handle_api_update (C : setup) (E : env) (d : update)
    : M (list handler_log) :=
  fun w => match handle_body C E d w with
           | (Ret l, w') => (Ret (LogUpdate d :: l), w')
           | (Raise e, w') => (Ret [LogUpdate d; LogFailed e], w')
           end.

(** ** Sample environments

    Small concrete surroundings on which the statements below are run:
    a first-stage converter that exports the file it is given as it finds
    it, and fails when a directory sits at its export path; a second-stage
    converter that copies the export to the target; a UTF-8 locale; and a
    choice of network behaviours. *)

Definition sample_popen (w : world) (argv : list pystr) : proc_outcome :=
  match argv with
  | [_; _; _; _; png; svg] =>
      match fs w !! svg with
      | Some (File doc) =>
          match fs w !! png with
          | Some Dir => Exits 1 (lit "cannot write") (fs w)
          | _ => Exits 0 [] (<[png := File doc]> (fs w))
          end
      | _ => Exits 1 (lit "no input") (fs w)
      end
  | [_; png; out] =>
      match fs w !! png with
      | Some (File c) => Exits 0 [] (<[out := File c]> (fs w))
      | _ => Exits 1 (lit "no input") (fs w)
      end
  | _ => SpawnFails FileNotFoundError
  end.

(** A second stage that is killed on the timeout after it has written the
    first octets of its output. *)
Definition stuck_popen (w : world) (argv : list pystr) : proc_outcome :=
  match argv with
  | [_; png; out] =>
      TimesOut (-9) [] (<[out := File [255; 216]]> (fs w))
  | _ => sample_popen w argv
  end.

Definition sample_json (s : pystr) : res json_value :=
  Ret (Json (Ret true) (Ret (lit "{}")) s).

Definition sample_env (po : world -> list pystr -> proc_outcome)
    (ls : res (list pystr)) (net : world -> http_outcome) : env :=
  Env (lit "img") (lit "tpl") (lit "123:abc")
      po
      (fun _ => Ret (lit "/tmp/tmpk3x9"))
      utf8_encode
      (fun b => b)
      (fun _ _ => Raise ValueError)
      (fun _ _ => ls)
      (fun w _ _ => net w)
      sample_json.

Definition net_down (w : world) : http_outcome := PostRaises RequestException.
Definition net_up (w : world) : http_outcome := PostContent (lit "{}").

(** A server that answers two requests with an empty body and then drops
    the connection. *)
Definition net_flaky (w : world) : http_outcome :=
  match posts w with
  | _ :: _ :: _ => PostRaises RequestException
  | _ => PostContent []
  end.

Definition sample_listing : list pystr :=
  [lit "greet.svg"; lit "notes.txt"; lit "bold.svg"].

Definition E_ok : env := sample_env sample_popen (Ret sample_listing) net_up.
Definition E_down : env := sample_env sample_popen (Raise OSError) net_down.
Definition E_stuck : env := sample_env stuck_popen (Ret sample_listing) net_up.
Definition E_flaky : env := sample_env sample_popen (Raise OSError) net_flaky.

Definition empty_world : world := World ∅ None [] [] [] [] [] [].

(** A template directory with three templates: [greet] expands both
    arguments, [blank] is an empty file and [bold] repeats the full text.
    In the image directory a directory sits where the first stage would
    export [blank] for the text [Hello/World], so that rendering fails. *)
Definition sample_fs : fsmap :=
  <[lit "tpl/greet.svg" := File (lit "{0}-{1}")]>
  (<[lit "tpl/blank.svg" := File []]>
  (<[lit "tpl/bold.svg" := File (lit "<b>{0}</b>")]>
  (<[lit "img/SpGYq4u3wRnJAjPpjK5aCeS0gNikZlN8fODc_JXqBk8.jpg.png" := Dir]> ∅))).

Definition sample_registry : registry :=
  [(lit "greet", lit "tpl/greet.svg");
   (lit "blank", lit "tpl/blank.svg");
   (lit "bold", lit "tpl/bold.svg")].

Definition sample_world : world :=
  World sample_fs (Some sample_registry) [] [] [] [] [] [].

(** The same directory with [greet] and [bold] loaded only. *)
Definition small_world : world :=
  World sample_fs
        (Some [(lit "greet", lit "tpl/greet.svg");
               (lit "bold", lit "tpl/bold.svg")]) [] [] [] [] [] [].

Definition greet_id : pystr := lit "h_oW_y5JzL-PjBnM6xdt2iHO8RwILQHhWfEfx8sfR8w".
Definition bold_id : pystr := lit "xE1bFvnkN5zueIZ7VV4Axki7Sc0t7aaiMqihkUM3sB8".
Definition blank_id : pystr := lit "SpGYq4u3wRnJAjPpjK5aCeS0gNikZlN8fODc_JXqBk8".

(** The three templates loaded and the artifact of [greet] for the text
    [Hello/World] already in the image directory. *)
Definition cached_world : world :=
  set_fs (<[lit "img/h_oW_y5JzL-PjBnM6xdt2iHO8RwILQHhWfEfx8sfR8w.jpg"
            := File (lit "Hello/World-Hello")]> sample_fs) sample_world.

(** A template file with a placeholder beyond the arguments. *)
Definition bad_world : world :=
  set_fs (<[lit "tpl/bad.svg" := File (lit "<b>{5}</b>")]> sample_fs)
         sample_world.

(** The worlds that the pass over [cached_world] goes through. *)
#[local] Abbreviation hello := (lit "Hello/World") (only parsing).
#[local] Abbreviation after_blank :=
  (snd (generate_image E_ok (lit "tpl/blank.svg") (artifact_path E_ok blank_id)
          (render_args hello) cached_world)) (only parsing).
#[local] Abbreviation after_bold :=
  (snd (generate_image E_ok (lit "tpl/bold.svg") (artifact_path E_ok bold_id)
          (render_args hello) after_blank)) (only parsing).

(** A setup for the handlers; the serialiser lists the identifiers. *)
Definition sample_setup : setup :=
  Setup (lit "https://example.org/i/") (Some (lit "textimgbot"))
        (fun l => concat (map (fun r => ir_id r ++ lit ",") l)).

(** Updates: an inline query, and text messages in a private chat and
    in a group. *)
Definition sample_query : update :=
  Update (Some (InlineQuery (lit "q1") (lit " Hello/World "))) None.

Definition start_message : update :=
  Update None (Some (Message (Chat 42 (lit "private")) (Some (lit "/start"))
                       false 7)).

Definition group_message : update :=
  Update None (Some (Message (Chat (-1001) (lit "supergroup"))
                       (Some (lit "/start")) false 8)).

(** The world in which the first stage runs on the empty template, and
    the worlds that the two stages leave. *)
#[local] Abbreviation blank_written :=
  (snd (write E_ok (lit "/tmp/tmpk3x9.svg") []
          (snd (NamedTemporaryFile E_ok
                  (add_call (lit "tpl/blank.svg", lit "img/a.jpg",
                             render_args (lit "Hello/World")) sample_world)))))
  (only parsing).

#[local] Abbreviation blank_exported :=
  (snd (communicate E_ok
          (inkscape_argv (lit "img/a.jpg") (lit "/tmp/tmpk3x9.svg"))
          blank_written)) (only parsing).
#[local] Abbreviation blank_converted :=
  (snd (communicate E_ok (convert_argv (lit "img/a.jpg")) blank_exported))
  (only parsing).

(** The worlds of a call on [greet] whose second stage is killed. *)
#[local] Abbreviation greet_written :=
  (snd (write E_stuck (lit "/tmp/tmpk3x9.svg") (lit "Hello/World-Hello")
          (snd (NamedTemporaryFile E_stuck
                  (add_call (lit "tpl/greet.svg", lit "img/a.jpg",
                             render_args (lit "Hello/World")) sample_world)))))
  (only parsing).
#[local] Abbreviation greet_exported :=
  (snd (communicate E_stuck
          (inkscape_argv (lit "img/a.jpg") (lit "/tmp/tmpk3x9.svg"))
          greet_written)) (only parsing).
#[local] Abbreviation greet_stuck :=
  (snd (communicate E_stuck (convert_argv (lit "img/a.jpg")) greet_exported))
  (only parsing).

(** One template loaded, its artifact not yet made. *)
Definition single_world : world :=
  set_template_cache (Some [(lit "greet", lit "tpl/greet.svg")]) sample_world.

(** The registry with the template of [bad_world] between two good ones. *)
Definition broken_world : world :=
  set_template_cache
    (Some ([(lit "greet", lit "tpl/greet.svg")]
           ++ (lit "bad", lit "tpl/bad.svg") :: [(lit "bold", lit "tpl/bold.svg")]))
    bad_world.

Definition bad_id : pystr := lit "ESs2yeXnhqHrTOXkC4mzxIG3U3Z2t2EYG4Oa5SQkOPI".

#[local] Abbreviation after_greet :=
  (snd (render_loop E_ok (lit "Hello/World") [(lit "greet", lit "tpl/greet.svg")]
          [] broken_world)) (only parsing).

(** ** Vocabulary for the statements *)

(** The parts of the world that rendering never writes. *)
Definition frame (w w' : world) : Prop :=
  calls w' = calls w /\ template_cache w' = template_cache w
  /\ posts w' = posts w /\ sleeps w' = sleeps w.

(** A computation that keeps a relation between the world it starts in
    and the world it ends in, whatever it returns. *)
Definition preserves {A} (P : world -> world -> Prop) (m : M A) : Prop :=
  forall w, P w (snd (m w)).

(** What happened to one template in a pass of the pipeline. *)
Inductive outcome : Type := CacheHit | Rendered | Failed.

(** The pass of the pipeline in the words of the spec: the registry is
    walked in order and each template is a cache hit (its artifact file
    exists), or is rendered with success, or fails to render; the world
    moves on with every render. *)
Inductive renders (E : env) (text : pystr)
    : registry -> world -> list (pystr * outcome) -> world -> Prop :=
  | renders_nil w : renders E text [] w [] w
  | renders_hit template templatefile reg w fileid os w' :
      artifact_key template text = Ret fileid ->
      isfile (fs w) (artifact_path E fileid) = true ->
      renders E text reg w os w' ->
      renders E text ((template, templatefile) :: reg) w
              ((fileid, CacheHit) :: os) w'
  | renders_ok template templatefile reg w fileid w1 os w' :
      artifact_key template text = Ret fileid ->
      isfile (fs w) (artifact_path E fileid) = false ->
      generate_image E templatefile (artifact_path E fileid)
        (render_args text) w = (Ret true, w1) ->
      renders E text reg w1 os w' ->
      renders E text ((template, templatefile) :: reg) w
              ((fileid, Rendered) :: os) w'
  | renders_failed template templatefile reg w fileid w1 os w' :
      artifact_key template text = Ret fileid ->
      isfile (fs w) (artifact_path E fileid) = false ->
      generate_image E templatefile (artifact_path E fileid)
        (render_args text) w = (Ret false, w1) ->
      renders E text reg w1 os w' ->
      renders E text ((template, templatefile) :: reg) w
              ((fileid, Failed) :: os) w'.

Definition succeeded (o : pystr * outcome) : bool :=
  match snd o with
  | Failed => false
  | _ => true
  end.

(** The identifiers of the templates that did not fail, in order. *)
Definition successful (os : list (pystr * outcome)) : list pystr :=
  map fst (List.filter succeeded os).

(** A converter that ends with a status other than zero leaves [path] as
    it found it. *)
Definition atomic_at (E : env) (path : pystr) : Prop :=
  forall w argv,
    match popen E w argv with
    | Exits rc _ f | TimesOut rc _ f => rc <> 0 -> f !! path = fs w !! path
    | SpawnFails _ => True
    end.

(** The first stage, asked to export next to [path], does not write
    [path] itself. *)
Definition stage1_spares (E : env) (path : pystr) : Prop :=
  forall w tmp,
    match popen E w (inkscape_argv path tmp) with
    | Exits _ _ f | TimesOut _ _ f => f !! path = fs w !! path
    | SpawnFails _ => True
    end.

(** The steps of [generate_image] before the first converter went
    through: the template was read and expanded to [doc], the temporary
    file [tmp] was made and [doc] given to its [write], leaving the world
    [w2] in which the first converter is started. *)
Definition prepared (E : env) (tf out : pystr) (args : list pystr) (w : world)
    (doc tmp : pystr) (w2 : world) : Prop :=
  exists w0 w1,
    expand_template E tf args (add_call (tf, out, args) w) = (Ret doc, w0)
    /\ NamedTemporaryFile E w0 = (Ret tmp, w1)
    /\ write E tmp doc w1 = (Ret tt, w2).

(** The world in which the second attempt of a delivery runs, when the
    first one did not end the loop: after the two-second wait if the first
    attempt raised, at once if it got an empty body. *)
Definition before_second (E : env) (method : pystr) (p : params) (w : world)
    : world :=
  match attempt E method p w with
  | (Raise _, w1) => add_sleep 2 w1
  | (Ret _, w1) => w1
  end.

(** The calls of [generate_image] in a pass with the outcomes [os]: one
    for each template that is not a cache hit, in order. *)
Definition calls_of (E : env) (text : pystr) (reg : registry)
    (os : list (pystr * outcome)) : list (pystr * pystr * list pystr) :=
  flat_map (fun eo : (pystr * pystr) * (pystr * outcome) =>
              match snd (snd eo) with
              | CacheHit => []
              | _ => [(snd (fst eo), artifact_path E (fst (snd eo)),
                       render_args text)]
              end)
           (combine reg os).

Definition is_byte (b : Z) : Prop := 0 <= b < 256.

(** Two different messages with the same SHA-256 digest. *)
Definition collide (a b : pybytes) : Prop :=
  a <> b /\ SHA256.digest a = SHA256.digest b.

(** The registry that a listing describes: its entries with the extension
    [.svg], in listing order, base name to joined path. *)
Definition svg_registry (dir : pystr) (entries : list pystr) : registry :=
  map (fun i => (fst (splitext i), os_path_join dir i))
      (List.filter (fun i => str_eqb (snd (splitext i)) (lit ".svg")) entries).

(** The characters of the URL-safe base64 alphabet. *)
Definition urlsafe (c : Z) : bool :=
  ((65 <=? c) && (c <=? 90)) || ((97 <=? c) && (c <=? 122))
  || ((48 <=? c) && (c <=? 57)) || (c =? 45) || (c =? 95).

(** A code point that UTF-8 can carry: in range and not a surrogate. *)
Definition is_scalar (c : Z) : bool :=
  (0 <=? c) && (c <? 1114112) && negb ((55296 <=? c) && (c <=? 57343)).

(** A directory as [os.path.join] puts it before a relative name. *)
Definition dir_prefix (a : pystr) : pystr :=
  match rev a with
  | [] => []
  | 47 :: _ => a
  | _ => a ++ [47]
  end.

(** The number of processes started among some process events. *)
Definition spawned (l : list proc_event) : nat :=
  length (List.filter (fun ev => match ev with Spawned _ => true | Killed _ => false end) l).

(** A form field of a request. *)
Definition param_get (k : pystr) (p : params) : option pyval :=
  snd <$> find (fun kv => str_eqb (fst kv) k) p.

(** A word of a command line: no white space and no [@]. *)
Definition plain_word (s : pystr) : bool :=
  forallb (fun x => negb (isspace x) && negb (x =? 64)) s.

(** The text [/c], [/c e], [/c@n] or [/c@n e]. *)
Definition command_text (c : pystr) (mention : option pystr) (e : pystr) : pystr :=
  47 :: c
  ++ match mention with Some n => 64 :: n | None => [] end
  ++ match e with [] => [] | _ => 32 :: e end.

(** * Properties *)

(** ** The model on known values *)

Example sha256_abc :
  SHA256.digest (lit "abc")
  = [186; 120; 22; 191; 143; 1; 207; 234; 65; 65; 64; 222; 93; 174; 34; 35;
     176; 3; 97; 163; 150; 23; 122; 156; 180; 16; 255; 97; 242; 0; 21; 173].
Proof. vm_compute. reflexivity. Qed.

Example hashstr_empty :
  hashstr [] = Ret (lit "47DEQpj8HBSa-_TImW-5JCeuQeRkm5NMpJWZG3hSuFU").
Proof. vm_compute. reflexivity. Qed.

Example hashstr_greet : hashstr (lit "greet|Hello/World") = Ret greet_id.
Proof. vm_compute. reflexivity. Qed.

Example utf8_ellipsis : utf8_encode [8230; 228; 128512] =
  Some [226; 128; 166; 195; 164; 240; 159; 152; 128].
Proof. reflexivity. Qed.

Example utf8_rejects :
  utf8_encode [55296] = None /\ utf8_decode [192; 128] = None
  /\ utf8_decode [237; 160; 128] = None /\ utf8_decode [255] = None.
Proof. repeat split; reflexivity. Qed.

Example format_escapes :
  format_simple (lit "a}}b{{c") [] = Some (Ret (lit "a}b{c")).
Proof. reflexivity. Qed.

Example format_auto_numbering :
  format_simple (lit "{} {}") [lit "x"; lit "y"] = Some (Ret (lit "x y")).
Proof. reflexivity. Qed.

Example format_errors :
  format_simple (lit "{0} {}") [lit "x"] = Some (Raise ValueError)
  /\ format_simple (lit "{5} }") [lit "x"] = Some (Raise IndexError)
  /\ format_simple (lit "{a} {") [lit "x"] = Some (Raise KeyError)
  /\ format_simple (lit "{0") [lit "x"] = Some (Raise ValueError)
  /\ format_simple (lit "{0}}") [lit "x"] = Some (Raise ValueError)
  /\ format_simple (lit "{0:>4}") [lit "x"] = None.
Proof. repeat split; reflexivity. Qed.

Example split_examples :
  split 47 (lit "a//b/") = [lit "a"; []; lit "b"; []]
  /\ split 47 [] = [[]].
Proof. split; reflexivity. Qed.

Example splitext_examples :
  splitext (lit "a.b.svg") = (lit "a.b", lit ".svg")
  /\ splitext (lit ".svg") = (lit ".svg", [])
  /\ splitext (lit "...a.svg") = (lit "...a", lit ".svg")
  /\ splitext (lit "a.d/b") = (lit "a.d/b", []).
Proof. repeat split; reflexivity. Qed.

Example strip_example : strip (lit "  a b  ") = lit "a b".
Proof. reflexivity. Qed.

(** ** Strings *)

Lemma split_nonempty sep s : split sep s <> [].
Proof.
  destruct s as [|c r]; simpl; [discriminate|].
  destruct (c =? sep); [discriminate|].
  destruct (split sep r); discriminate.
Qed.

Lemma join_split sep s : join sep (split sep s) = s.
Proof.
  induction s as [|c r IH]; [reflexivity|].
  simpl split. destruct (Z.eqb_spec c sep) as [->|Hne].
  - pose proof (split_nonempty sep r) as Hn.
    destruct (split sep r) as [|seg segs] eqn:Hs; [contradiction|].
    change (join sep ([] :: seg :: segs)) with (sep :: join sep (seg :: segs)).
    now rewrite IH.
  - destruct (split sep r) as [|seg segs] eqn:Hs.
    + now destruct (split_nonempty sep r).
    + destruct segs as [|seg' segs'].
      * simpl in *. now subst.
      * change (join sep ((c :: seg) :: seg' :: segs'))
          with (c :: (seg ++ sep :: join sep (seg' :: segs'))).
        f_equal. exact IH.
Qed.

Lemma split_no_sep sep s : Forall (fun seg => ~ In sep seg) (split sep s).
Proof.
  induction s as [|c r IH]; simpl.
  - constructor; [tauto|constructor].
  - destruct (Z.eqb_spec c sep) as [->|Hne].
    + constructor; [simpl; tauto | exact IH].
    + destruct (split sep r) as [|seg segs]; [repeat constructor; simpl; tauto|].
      inversion IH; subst. constructor; [|assumption].
      simpl. intros [?|?]; [congruence|contradiction].
Qed.

Lemma lstrip_nil_iff s : lstrip s = [] <-> forallb isspace s = true.
Proof.
  induction s as [|c r IH]; simpl; [tauto|].
  destruct (isspace c); simpl; [exact IH|].
  split; discriminate.
Qed.

Lemma lstrip_head s c r : lstrip s = c :: r -> isspace c = false.
Proof.
  induction s as [|x s IH]; simpl; [discriminate|].
  destruct (isspace x) eqn:Hx; [exact IH|].
  intros [= -> ->]. exact Hx.
Qed.

Lemma forallb_rev {A} (f : A -> bool) l : forallb f (rev l) = forallb f l.
Proof.
  induction l as [|x l IH]; [reflexivity|].
  simpl. rewrite forallb_app, IH. simpl. rewrite andb_true_r. apply andb_comm.
Qed.

Lemma strip_nil_iff s : strip s = [] <-> forallb isspace s = true.
Proof.
  unfold strip, rstrip. split.
  - intros H. apply lstrip_nil_iff.
    destruct (lstrip s) as [|c r] eqn:Hl; [reflexivity|].
    apply (f_equal (@rev Z)) in H. rewrite rev_involutive in H.
    change (rev []) with (@nil Z) in H.
    apply lstrip_nil_iff in H. rewrite forallb_rev in H. simpl in H.
    apply lstrip_head in Hl. rewrite Hl in H. discriminate.
  - intros H. apply lstrip_nil_iff in H. rewrite H. reflexivity.
Qed.

(** ** Fuel

    The two bounded loops of the model always have fuel to spare. *)

Lemma parse_field_shorter s name rest :
  parse_field s = FieldEnd name rest -> (length rest < length s)%nat.
Proof.
  revert name rest. induction s as [|c r IH]; intros name rest; simpl.
  - discriminate.
  - destruct (c =? 125); [intros [= <- <-]; lia|].
    destruct (fancy c); [discriminate|].
    destruct (parse_field r) as [name' rest'| |]; try discriminate.
    intros [= <- <-]. specialize (IH name' rest' eq_refl). lia.
Qed.

Lemma do_markup_fuel args f1 : forall f2 s st auto,
  (length s < f1)%nat -> (length s < f2)%nat ->
  do_markup f1 s args st auto = do_markup f2 s args st auto.
Proof.
  induction f1 as [|f1 IH]; intros f2 s st auto H1 H2; [lia|].
  destruct f2 as [|f2]; [lia|].
  destruct s as [|c r]; [reflexivity|]. cbn [do_markup]. simpl in H1, H2.
  destruct (c =? 125).
  { destruct r as [|c' r']; [reflexivity|]. simpl in H1, H2.
    destruct (c' =? 125); [|reflexivity].
    rewrite (IH f2 r') by lia. reflexivity. }
  destruct (c =? 123).
  { destruct r as [|c' r']; [reflexivity|].
    destruct (c' =? 123).
    { simpl in H1, H2. rewrite (IH f2 r') by lia. reflexivity. }
    destruct (parse_field (c' :: r')) as [name rest| |] eqn:Hp; try reflexivity.
    apply parse_field_shorter in Hp.
    destruct (get_field name args st auto) as [[[[a st'] auto']|e]|];
      try reflexivity.
    rewrite (IH f2 rest) by lia. reflexivity. }
  rewrite (IH f2 r) by lia. reflexivity.
Qed.

(** More fuel does not change a substitution. *)
Lemma format_simple_fuel template args fuel :
  (length template < fuel)%nat ->
  format_simple template args = do_markup fuel template args ANS_INIT 0%nat.
Proof. intros H. unfold format_simple. apply do_markup_fuel; lia. Qed.

(** The blocks of a padded message are the whole message. *)
Lemma chunks_concat n fuel : forall l,
  (0 < n)%nat -> (length l <= fuel)%nat ->
  concat (SHA256.chunks fuel n l) = l.
Proof.
  induction fuel as [|fuel IH]; intros l Hn Hl.
  - destruct l; [reflexivity | simpl in Hl; lia].
  - destruct l as [|x l]; [reflexivity|].
    cbn [SHA256.chunks concat]. rewrite IH; [apply firstn_skipn | exact Hn |].
    rewrite length_skipn. simpl in *. lia.
Qed.

(** ** The retry loop and its requests *)

Lemma attempt_posts E method p w :
  posts (snd (attempt E method p w)) = posts w ++ [(api_url E method, p)].
Proof.
  unfold attempt.
  destruct (http_post E w (api_url E method) p) as [e|[|b bs]]; try reflexivity.
  destruct (utf8_decode (b :: bs)); [|reflexivity].
  destruct (json_loads E l); reflexivity.
Qed.

Lemma attempt_sleeps E method p w :
  sleeps (snd (attempt E method p w)) = sleeps w.
Proof.
  unfold attempt.
  destruct (http_post E w (api_url E method) p) as [e|[|b bs]]; try reflexivity.
  destruct (utf8_decode (b :: bs)); [|reflexivity].
  destruct (json_loads E l); reflexivity.
Qed.

Lemma attempt_logs E method p w :
  logs (snd (attempt E method p w)) = logs w.
Proof.
  unfold attempt.
  destruct (http_post E w (api_url E method) p) as [e|[|b bs]]; try reflexivity.
  destruct (utf8_decode (b :: bs)); [|reflexivity].
  destruct (json_loads E l); reflexivity.
Qed.

Lemma bot_api_loop_posts E method p atts : forall w,
  exists n, (n <= length atts)%nat
    /\ (atts <> [] -> (1 <= n)%nat)
    /\ posts (snd (bot_api_loop E method p atts w))
       = posts w ++ repeat (api_url E method, p) n.
Proof.
  induction atts as [|att rest IH]; intros w.
  - exists 0%nat. simpl. rewrite app_nil_r. repeat split; [lia|congruence].
  - simpl. pose proof (attempt_posts E method p w) as Hp.
    destruct (attempt E method p w) as [[[|v]|ex] w1]; simpl in Hp.
    + destruct (IH w1) as (n & Hn & _ & Hq). exists (S n).
      repeat split; [simpl; lia | lia |].
      rewrite Hq, Hp, <- app_assoc. reflexivity.
    + exists 1%nat. repeat split; [simpl; lia | lia | exact Hp].
    + destruct (att <? 1).
      * destruct (IH (add_sleep ((att + 1) * 2) w1)) as (n & Hn & _ & Hq).
        exists (S n). repeat split; [simpl; lia | lia |].
        rewrite Hq. simpl. rewrite Hp, <- app_assoc. reflexivity.
      * exists 1%nat. repeat split; [simpl; lia | lia | exact Hp].
Qed.

Lemma bot_api_posts E method p w :
  exists n, (1 <= n <= 3)%nat
    /\ posts (snd (bot_api E method p w))
       = posts w ++ repeat (api_url E method, p) n.
Proof.
  destruct (bot_api_loop_posts E method p [0; 1; 2] w) as (n & Hn & H1 & Hq).
  exists n. split; [split; [apply H1; discriminate | exact Hn]|].
  unfold bot_api, bind.
  destruct (bot_api_loop E method p [0; 1; 2] w) as [[[v|]|e] w1];
    simpl in *; try exact Hq.
  unfold lift, raise. destruct (get_ok v) as [[|]|]; simpl; exact Hq.
Qed.

Lemma async_func_posts {A} (f : M A) w :
  posts (snd (async_func f w)) = posts (snd (f w)).
Proof. unfold async_func. destruct (f w) as [[a|e] w']; reflexivity. Qed.

Lemma async_func_returns {A} (f : M A) w : fst (async_func f w) = Ret tt.
Proof. unfold async_func. destruct (f w) as [[a|e] w']; reflexivity. Qed.

Lemma len_firstn_marker (t : pystr) :
  2000 < len t -> len (firstn 1999 t ++ [8230]) = 2000.
Proof.
  unfold len. intros H. rewrite length_app, length_firstn.
  change (length [8230]) with 1%nat. lia.
Qed.

(** The requests that [sendmsg] posts, for a text that is not blank. *)
Lemma sendmsg_body_posts E text chat_id reply_to kwargs w :
  strip text <> [] ->
  has_method_key kwargs = false ->
  exists n rid, (1 <= n <= 3)%nat /\
    posts (snd (sendmsg_body E text chat_id reply_to kwargs w))
    = posts w ++
      repeat (api_url E (lit "sendMessage"),
              [(lit "chat_id", PInt chat_id);
               (lit "text",
                PStr (if 2000 <? len (strip text)
                      then firstn 1999 (strip text) ++ [8230]
                      else strip text));
               (lit "reply_to_message_id", rid)] ++ kwargs) n.
Proof.
  intros Hne Hk. unfold sendmsg_body.
  destruct (strip text) as [|c r] eqn:Hs; [congruence|].
  unfold has_method_key in Hk. rewrite Hk.
  set (t := if 2000 <? len (c :: r) then _ else _).
  set (rid := match match reply_to with Some _ => _ | None => _ end
              with Some r0 => PInt r0 | None => PNone end).
  set (p := [_; _; _] ++ kwargs).
  destruct (bot_api_posts E (lit "sendMessage") p
              (add_log (BotapiDebug (len (c :: r)) (firstn 20 (c :: r))) w))
    as (n & Hn & Hq).
  exists n, rid. split; [exact Hn|].
  unfold bind, modify at 1.
  destruct (bot_api E (lit "sendMessage") p _) as [[a|e] w1]; exact Hq.
Qed.

(** ** What [generate_image] leaves alone *)

Lemma frame_refl w : frame w w.
Proof. repeat split. Qed.

Lemma frame_trans w1 w2 w3 : frame w1 w2 -> frame w2 w3 -> frame w1 w3.
Proof. unfold frame. intros (?&?&?&?) (?&?&?&?). repeat split; congruence. Qed.

Lemma preserves_bind {A B} (m : M A) (k : A -> M B) :
  preserves frame m -> (forall a, preserves frame (k a)) ->
  preserves frame (bind m k).
Proof.
  intros Hm Hk w. unfold bind. specialize (Hm w).
  destruct (m w) as [[a|e] w1]; simpl in *; [|exact Hm].
  eapply frame_trans; [exact Hm | apply Hk].
Qed.

Lemma preserves_finally {A} (m : M A) (c : world -> world) :
  preserves frame m -> (forall w, frame w (c w)) ->
  preserves frame (finally m c).
Proof.
  intros Hm Hc w. unfold finally. specialize (Hm w).
  destruct (m w) as [r w1]; simpl in *.
  eapply frame_trans; [exact Hm | apply Hc].
Qed.

Lemma preserves_ret {A} (a : A) : preserves frame (ret a).
Proof. intros w. apply frame_refl. Qed.

Lemma preserves_raise {A} e : preserves frame (@raise A e).
Proof. intros w. apply frame_refl. Qed.

Lemma preserves_lift {A} (r : res A) : preserves frame (lift r).
Proof. intros w. apply frame_refl. Qed.

Lemma preserves_gets {A} (f : world -> A) : preserves frame (gets f).
Proof. intros w. apply frame_refl. Qed.

Lemma preserves_add_log l : preserves frame (modify (add_log l)).
Proof. intros w. repeat split. Qed.

Lemma preserves_open_read path : preserves frame (open_read path).
Proof.
  intros w. unfold open_read.
  destruct (fs w !! path) as [[b|]|]; try apply frame_refl.
  destruct (utf8_decode b); apply frame_refl.
Qed.

Lemma preserves_tmpfile E : preserves frame (NamedTemporaryFile E).
Proof.
  intros w. unfold NamedTemporaryFile.
  destruct (mktemp E w) as [base|e]; [|apply frame_refl].
  destruct (fs w !! (base ++ lit ".svg")); [apply frame_refl | repeat split].
Qed.

Lemma preserves_write E name text : preserves frame (write E name text).
Proof.
  intros w. unfold write.
  destruct (locale_encode E text); [repeat split | apply frame_refl].
Qed.

Lemma preserves_unlink path : preserves frame (unlink_quiet path).
Proof.
  intros w. unfold unlink_quiet.
  destruct (fs w !! path) as [[b|]|]; try apply frame_refl. repeat split.
Qed.

Lemma preserves_communicate E argv : preserves frame (communicate E argv).
Proof.
  intros w. unfold communicate.
  destruct (popen E w argv); [apply frame_refl | repeat split..].
Qed.

Lemma preserves_decode b : preserves frame (decode b).
Proof. unfold decode. destruct (utf8_decode b); intros w; apply frame_refl. Qed.

Lemma frame_close_tmp name w : frame w (close_tmp name w).
Proof. repeat split. Qed.

Create HintDb frame_db.
#[local] Hint Resolve preserves_ret preserves_raise preserves_lift preserves_gets
  preserves_add_log preserves_open_read preserves_tmpfile preserves_write
  preserves_unlink preserves_communicate preserves_decode frame_close_tmp
  : frame_db.

Ltac frame_step :=
  first [ apply preserves_bind; [|intros]
        | apply preserves_finally
        | match goal with
          | |- preserves _ (if ?b then _ else _) => destruct b
          end
        | solve [auto with frame_db] ].

Lemma generate_image_frame E tf out args w :
  calls (snd (generate_image E tf out args w)) = calls w ++ [(tf, out, args)]
  /\ template_cache (snd (generate_image E tf out args w)) = template_cache w
  /\ posts (snd (generate_image E tf out args w)) = posts w
  /\ sleeps (snd (generate_image E tf out args w)) = sleeps w.
Proof.
  set (w1 := snd (generate_image E tf out args w)).
  assert (H : frame (add_call (tf, out, args) w) w1).
  { subst w1. unfold generate_image. unfold bind at 1, modify at 1.
    match goal with |- frame ?w0 (snd (?m ?w0)) =>
      assert (Hm : preserves frame m)
    end.
    { unfold expand_template. repeat frame_step. }
    apply Hm. }
  destruct H as (Hc & Ht & Hp & Hs).
  rewrite Hc, Ht, Hp, Hs. repeat split.
Qed.

(** One turn of the loop, by cases. *)
Lemma render_one_eq E text acc template templatefile w :
  render_one E text acc (template, templatefile) w
  = match artifact_key template text with
    | Raise e => (Raise e, w)
    | Ret fileid =>
        if isfile (fs w) (artifact_path E fileid)
        then (Ret (acc ++ [fileid]), w)
        else
          match generate_image E templatefile (artifact_path E fileid)
                  (render_args text) w with
          | (Ret true, w1) => (Ret (acc ++ [fileid]), w1)
          | (Ret false, w1) => (Ret acc, w1)
          | (Raise e, w1) => (Raise e, w1)
          end
    end.
Proof.
  unfold render_one, bind, lift, gets, ret.
  destruct (artifact_key template text) as [fileid|e]; [|reflexivity].
  destruct (isfile (fs w) (artifact_path E fileid)); [reflexivity|].
  destruct (generate_image E templatefile (artifact_path E fileid)
              (render_args text) w) as [[[|]|e] w1]; reflexivity.
Qed.

Lemma no_new_calls (w : world) (args : list pystr) :
  exists new : list (pystr * pystr * list pystr),
    calls w = calls w ++ new /\ Forall (fun c => snd c = args) new.
Proof. exists []. split; [symmetry; apply app_nil_r | apply List.Forall_nil]. Qed.

Lemma render_one_frame E text acc entry w :
  (exists new, calls (snd (render_one E text acc entry w)) = calls w ++ new
     /\ Forall (fun c => snd c = render_args text) new)
  /\ template_cache (snd (render_one E text acc entry w)) = template_cache w.
Proof.
  destruct entry as [template templatefile]. rewrite render_one_eq.
  destruct (artifact_key template text) as [fileid|e]; simpl.
  2:{ split; [apply no_new_calls | reflexivity]. }
  destruct (isfile (fs w) (artifact_path E fileid)); simpl.
  { split; [apply no_new_calls | reflexivity]. }
  destruct (generate_image_frame E templatefile (artifact_path E fileid)
              (render_args text) w) as (Hc & Ht & _).
  destruct (generate_image E templatefile (artifact_path E fileid)
              (render_args text) w) as [[[|]|e] w1]; simpl in *;
    (split; [eexists; split; [exact Hc | repeat constructor] | exact Ht]).
Qed.

Lemma render_loop_frame E text reg : forall acc w,
  (exists new, calls (snd (render_loop E text reg acc w)) = calls w ++ new
     /\ Forall (fun c => snd c = render_args text) new)
  /\ template_cache (snd (render_loop E text reg acc w)) = template_cache w.
Proof.
  induction reg as [|entry reg IH]; intros acc w.
  - simpl. split; [apply no_new_calls | reflexivity].
  - unfold render_loop. simpl. unfold bind.
    destruct (render_one_frame E text acc entry w) as ((new & Hc & Hf) & Ht).
    destruct (render_one E text acc entry w) as [[acc'|e] w1]; simpl in *.
    + destruct (IH acc' w1) as ((new' & Hc' & Hf') & Ht').
      unfold render_loop in *. split.
      * exists (new ++ new'). rewrite Hc', Hc, app_assoc. split; [reflexivity|].
        apply Forall_app. split; assumption.
      * congruence.
    + split; [exists new; split; assumption | exact Ht].
Qed.

(** ** Claims about the reply path *)

(** C10.  A reply that is empty or all white space is never sent:
    [sendmsg] posts nothing, logs one warning and returns. *)
Theorem C10_empty_reply_suppressed (E : env) (text : pystr) (chat_id : Z)
    (reply_to : option Z) (kwargs : params) (w : world) :
  forallb isspace text = true ->
  sendmsg E text chat_id reply_to kwargs w
  = (Ret tt, add_log (BotapiWarning chat_id reply_to) w)
  /\ posts (snd (sendmsg E text chat_id reply_to kwargs w)) = posts w
  /\ sleeps (snd (sendmsg E text chat_id reply_to kwargs w)) = sleeps w.
Proof.
  intros H. apply strip_nil_iff in H.
  assert (Heq : sendmsg E text chat_id reply_to kwargs w
                = (Ret tt, add_log (BotapiWarning chat_id reply_to) w)).
  { unfold sendmsg, async_func, sendmsg_body. rewrite H. reflexivity. }
  rewrite Heq. repeat split; reflexivity.
Qed.

Lemma C10_empty_reply_suppressed_witness :
  sendmsg E_ok (lit "  ") 42 (Some 7) [] empty_world
  = (Ret tt, add_log (BotapiWarning 42 (Some 7)) empty_world)
  /\ posts (snd (sendmsg E_ok (lit "  ") 42 (Some 7) [] empty_world)) = [].
Proof.
  destruct (C10_empty_reply_suppressed E_ok (lit "  ") 42 (Some 7) []
              empty_world) as (H1 & H2 & _); [reflexivity|].
  split; [exact H1 | exact H2].
Defined.

(** C9.  Every request that [sendmsg] posts carries the stripped text
    when it has at most 2000 characters, and otherwise its first 1999
    characters followed by the one-character marker U+2026, 2000 characters
    in all; a text that is not blank is posted at least once. *)
Theorem C9_reply_truncation (E : env) (text : pystr) (chat_id : Z)
    (reply_to : option Z) (kwargs : params) (w : world) :
  exists new,
    posts (snd (sendmsg E text chat_id reply_to kwargs w)) = posts w ++ new
    /\ (strip text <> [] -> has_method_key kwargs = false -> new <> [])
    /\ (2000 < len (strip text) ->
        Forall (fun rq => param_text (snd rq)
                          = Some (PStr (firstn 1999 (strip text) ++ [8230]))) new
        /\ len (firstn 1999 (strip text) ++ [8230]) = 2000)
    /\ (len (strip text) <= 2000 ->
        Forall (fun rq => param_text (snd rq) = Some (PStr (strip text))) new).
Proof.
  unfold sendmsg. rewrite async_func_posts.
  destruct (strip text) as [|c r] eqn:Hs.
  { exists []. unfold sendmsg_body. rewrite Hs. simpl. rewrite app_nil_r.
    repeat split; try constructor; try congruence.
    unfold len in *. simpl in *. lia. }
  destruct (has_method_key kwargs) eqn:Hk.
  { exists []. unfold sendmsg_body. rewrite Hs.
    unfold has_method_key in Hk. rewrite Hk. simpl. rewrite app_nil_r.
    repeat split; try constructor; try congruence.
    intros. apply (len_firstn_marker (c :: r)). assumption. }
  destruct (sendmsg_body_posts E text chat_id reply_to kwargs w)
    as (n & rid & Hn & Hq); [congruence | exact Hk |].
  rewrite Hs in Hq. eexists. split; [exact Hq|].
  split; [intros _ _; destruct n; [lia | discriminate]|].
  split.
  - intros Hlen. split; [|apply (len_firstn_marker (c :: r)); exact Hlen].
    apply Z.ltb_lt in Hlen. rewrite Hlen.
    apply List.Forall_forall. intros rq Hin. apply repeat_spec in Hin. subst rq.
    reflexivity.
  - intros Hlen. apply Z.ltb_ge in Hlen. rewrite Hlen.
    apply List.Forall_forall. intros rq Hin. apply repeat_spec in Hin. subst rq.
    reflexivity.
Qed.

Lemma C9_reply_truncation_witness :
  exists new,
    posts (snd (sendmsg E_ok (repeat 120 2050) 42 None [] empty_world)) = new
    /\ new <> []
    /\ Forall (fun rq => param_text (snd rq)
                         = Some (PStr (repeat 120 1999 ++ [8230]))) new.
Proof.
  destruct (C9_reply_truncation E_ok (repeat 120 2050) 42 None [] empty_world)
    as (new & Hp & Hne & Hlong & _).
  exists new. split; [exact Hp|]. split.
  - apply Hne; [vm_compute; discriminate | reflexivity].
  - assert (Hs : strip (repeat 120 2050) = repeat 120 2050)
      by (vm_compute; reflexivity).
    rewrite Hs in Hlong.
    assert (Hf : firstn 1999 (repeat 120 2050) = repeat 120 1999)
      by (vm_compute; reflexivity).
    rewrite Hf in Hlong. apply Hlong. vm_compute. reflexivity.
Defined.

(** ** The retry policy *)

Lemma bot_api_world E method p w :
  snd (bot_api E method p w) = snd (bot_api_loop E method p [0; 1; 2] w).
Proof.
  unfold bot_api, bind.
  destruct (bot_api_loop E method p [0; 1; 2] w) as [[[v|]|e] w1];
    try reflexivity.
  unfold lift, raise. destruct (get_ok v) as [[|]|]; reflexivity.
Qed.

Lemma bot_api_raises E method p w e :
  fst (bot_api_loop E method p [0; 1; 2] w) = Raise e ->
  fst (bot_api E method p w) = Raise e.
Proof.
  unfold bot_api, bind.
  destruct (bot_api_loop E method p [0; 1; 2] w) as [[[v|]|e'] w1];
    simpl; congruence.
Qed.

Ltac step_attempt :=
  match goal with
  | |- context [attempt ?E ?method ?p ?w0] =>
      let Hs := fresh "Hs" in
      let Hp := fresh "Hp" in
      pose proof (attempt_sleeps E method p w0) as Hs;
      pose proof (attempt_posts E method p w0) as Hp;
      destruct (attempt E method p w0) as [[[|?]|?] ?]; simpl in Hs, Hp |- *
  end.

Lemma bot_api_loop_sleeps E method p w :
  sleeps (snd (bot_api_loop E method p [0; 1; 2] w))
  = sleeps w ++ match fst (attempt E method p w) with
                | Raise _ => [2]
                | Ret _ => []
                end.
Proof.
  simpl. repeat step_attempt;
    rewrite ?Hs1, ?Hs0, ?Hs, ?app_nil_r; reflexivity.
Qed.

(** Two attempts that raise in a row end the delivery. *)
Lemma bot_api_loop_two_failures E method p w e1 e2 :
  fst (attempt E method p w) = Raise e1 ->
  fst (attempt E method p (add_sleep 2 (snd (attempt E method p w))))
  = Raise e2 ->
  fst (bot_api_loop E method p [0; 1; 2] w) = Raise e2
  /\ posts (snd (bot_api_loop E method p [0; 1; 2] w))
     = posts w ++ repeat (api_url E method, p) 2.
Proof.
  simpl. pose proof (attempt_posts E method p w) as Hp.
  destruct (attempt E method p w) as [[[|?]|?] w1]; simpl; try discriminate.
  intros _. simpl in Hp. change ((0 + 1) * 2) with 2.
  pose proof (attempt_posts E method p (add_sleep 2 w1)) as Hp1.
  destruct (attempt E method p (add_sleep 2 w1)) as [[[|?]|?] w2];
    simpl; try discriminate.
  intros [= ->]. split; [reflexivity|].
  simpl in Hp1. rewrite Hp1, Hp, <- app_assoc. reflexivity.
Qed.

(** An empty body moves on at once; an exception then ends the delivery. *)
Lemma bot_api_loop_empty_then_failure E method p w e2 :
  fst (attempt E method p w) = Ret Continue ->
  fst (attempt E method p (snd (attempt E method p w))) = Raise e2 ->
  fst (bot_api_loop E method p [0; 1; 2] w) = Raise e2
  /\ posts (snd (bot_api_loop E method p [0; 1; 2] w))
     = posts w ++ repeat (api_url E method, p) 2
  /\ sleeps (snd (bot_api_loop E method p [0; 1; 2] w)) = sleeps w.
Proof.
  simpl. pose proof (attempt_posts E method p w) as Hp.
  pose proof (attempt_sleeps E method p w) as Hs.
  destruct (attempt E method p w) as [[[|?]|?] w1]; simpl; try discriminate.
  intros _. simpl in Hp, Hs.
  pose proof (attempt_posts E method p w1) as Hp1.
  pose proof (attempt_sleeps E method p w1) as Hs1.
  destruct (attempt E method p w1) as [[[|?]|?] w2];
    simpl; try discriminate.
  intros [= ->]. split; [reflexivity|]. simpl in Hp1, Hs1. split.
  - rewrite Hp1, Hp, <- app_assoc. reflexivity.
  - congruence.
Qed.

(** The third attempt is reached after an empty body on the second
    attempt; an exception it raises ends the delivery. *)
Lemma bot_api_loop_third_failure E method p w e3 :
  (forall v, fst (attempt E method p w) <> Ret (Break v)) ->
  fst (attempt E method p (before_second E method p w)) = Ret Continue ->
  fst (attempt E method p
         (snd (attempt E method p (before_second E method p w)))) = Raise e3 ->
  fst (bot_api_loop E method p [0; 1; 2] w) = Raise e3
  /\ posts (snd (bot_api_loop E method p [0; 1; 2] w))
     = posts w ++ repeat (api_url E method, p) 3.
Proof.
  unfold before_second. simpl.
  pose proof (attempt_posts E method p w) as Hp.
  destruct (attempt E method p w) as [[[|v]|e1] w1]; simpl in Hp |- *;
    intros Hnb H2 H3; try (exfalso; apply (Hnb v); reflexivity).
  - pose proof (attempt_posts E method p w1) as Hp1.
    destruct (attempt E method p w1) as [[[|?]|?] w2]; simpl in *;
      try discriminate.
    pose proof (attempt_posts E method p w2) as Hp2.
    destruct (attempt E method p w2) as [[[|?]|?] w3]; simpl in *;
      try discriminate.
    injection H3 as ->. split; [reflexivity|].
    rewrite Hp2, Hp1, Hp, <- !app_assoc. reflexivity.
  - change ((0 + 1) * 2) with 2.
    pose proof (attempt_posts E method p (add_sleep 2 w1)) as Hp1.
    destruct (attempt E method p (add_sleep 2 w1)) as [[[|?]|?] w2];
      simpl in *; try discriminate.
    pose proof (attempt_posts E method p w2) as Hp2.
    destruct (attempt E method p w2) as [[[|?]|?] w3]; simpl in *;
      try discriminate.
    injection H3 as ->. split; [reflexivity|].
    rewrite Hp2, Hp1, Hp, <- !app_assoc. reflexivity.
Qed.

(** C8, as amended.  A delivery posts the same request between one and
    three times.  It sleeps once, for two seconds, exactly when the first
    attempt raises; an exception raised by a later attempt, the second or
    the third, is raised by [bot_api] at once, so two failures in a row
    give up after two attempts, and an empty body moves to the next
    attempt without a wait.  Whatever [bot_api] raises is logged by the
    task that [async_func] builds, which returns normally. *)
Theorem C8_retry_policy (E : env) (method : pystr) (p : params) (w : world) :
  (exists n, (1 <= n <= 3)%nat
     /\ posts (snd (bot_api E method p w))
        = posts w ++ repeat (api_url E method, p) n)
  /\ sleeps (snd (bot_api E method p w))
     = sleeps w ++ match fst (attempt E method p w) with
                   | Raise _ => [2]
                   | Ret _ => []
                   end
  /\ (forall e1 e2,
        fst (attempt E method p w) = Raise e1 ->
        fst (attempt E method p (add_sleep 2 (snd (attempt E method p w))))
        = Raise e2 ->
        fst (bot_api E method p w) = Raise e2
        /\ posts (snd (bot_api E method p w))
           = posts w ++ repeat (api_url E method, p) 2)
  /\ (forall e2,
        fst (attempt E method p w) = Ret Continue ->
        fst (attempt E method p (snd (attempt E method p w))) = Raise e2 ->
        fst (bot_api E method p w) = Raise e2
        /\ posts (snd (bot_api E method p w))
           = posts w ++ repeat (api_url E method, p) 2
        /\ sleeps (snd (bot_api E method p w)) = sleeps w)
  /\ (forall e3,
        (forall v, fst (attempt E method p w) <> Ret (Break v)) ->
        fst (attempt E method p (before_second E method p w)) = Ret Continue ->
        fst (attempt E method p
               (snd (attempt E method p (before_second E method p w))))
        = Raise e3 ->
        fst (bot_api E method p w) = Raise e3
        /\ posts (snd (bot_api E method p w))
           = posts w ++ repeat (api_url E method, p) 3)
  /\ (forall e,
        fst (bot_api E method p w) = Raise e ->
        async_func (bot_api E method p) w
        = (Ret tt, add_log (BotapiException e) (snd (bot_api E method p w))))
  /\ (forall text chat_id reply_to kwargs,
        fst (sendmsg E text chat_id reply_to kwargs w) = Ret tt).
Proof.
  split; [apply bot_api_posts|].
  split; [rewrite bot_api_world; apply bot_api_loop_sleeps|].
  split.
  { intros e1 e2 H1 H2.
    destruct (bot_api_loop_two_failures E method p w e1 e2 H1 H2) as [Hr Hp].
    split; [apply bot_api_raises; exact Hr | rewrite bot_api_world; exact Hp]. }
  split.
  { intros e2 H1 H2.
    destruct (bot_api_loop_empty_then_failure E method p w e2 H1 H2)
      as (Hr & Hp & Hs).
    split; [apply bot_api_raises; exact Hr|].
    rewrite bot_api_world. split; assumption. }
  split.
  { intros e3 Hnb H2 H3.
    destruct (bot_api_loop_third_failure E method p w e3 Hnb H2 H3) as [Hr Hp].
    split; [apply bot_api_raises; exact Hr | rewrite bot_api_world; exact Hp]. }
  split.
  { intros e He. unfold async_func.
    destruct (bot_api E method p w) as [[a|e'] w1]; simpl in *; congruence. }
  intros. unfold sendmsg. apply async_func_returns.
Qed.

Lemma C8_retry_policy_witness :
  (fst (bot_api E_down (lit "sendMessage") [] empty_world)
   = Raise RequestException
   /\ posts (snd (bot_api E_down (lit "sendMessage") [] empty_world))
      = repeat (api_url E_down (lit "sendMessage"), []) 2
   /\ sleeps (snd (bot_api E_down (lit "sendMessage") [] empty_world)) = [2])
  /\ (fst (bot_api E_flaky (lit "sendMessage") [] empty_world)
      = Raise RequestException
      /\ posts (snd (bot_api E_flaky (lit "sendMessage") [] empty_world))
         = repeat (api_url E_flaky (lit "sendMessage"), []) 3
      /\ sleeps (snd (bot_api E_flaky (lit "sendMessage") [] empty_world)) = []).
Proof.
  split.
  - destruct (C8_retry_policy E_down (lit "sendMessage") [] empty_world)
      as (_ & Hs & Htwo & _).
    destruct (Htwo RequestException RequestException) as [Hr Hp];
      [reflexivity | reflexivity |].
    split; [exact Hr|]. split; [exact Hp | exact Hs].
  - destruct (C8_retry_policy E_flaky (lit "sendMessage") [] empty_world)
      as (_ & Hs & _ & _ & Hthree & _).
    destruct (Hthree RequestException) as [Hr Hp];
      [intros v; discriminate | reflexivity | reflexivity |].
    split; [exact Hr|]. split; [exact Hp | exact Hs].
Defined.

(** The claim as stated: the failure is raised only after all three
    attempts.  It fails when the network is down: the second failure in a
    row is raised after two requests. *)
Lemma C8_counterexample :
  ~ (forall E method p w e,
       fst (bot_api_loop E method p [0; 1; 2] w) = Raise e ->
       length (posts (snd (bot_api_loop E method p [0; 1; 2] w)))
       = (length (posts w) + 3)%nat).
Proof.
  intros H.
  specialize (H E_down (lit "sendMessage") [] empty_world RequestException
                eq_refl).
  vm_compute in H. discriminate.
Qed.

(** ** Reloading the registry *)

Lemma splitext_concat p : fst (splitext p) ++ snd (splitext p) = p.
Proof.
  unfold splitext.
  destruct (_ && _); simpl; [apply firstn_skipn | apply app_nil_r].
Qed.

Lemma od_set_fresh k v d :
  ~ In k (map fst d) -> od_set k v d = d ++ [(k, v)].
Proof.
  induction d as [|[k' v'] d IH]; simpl; [reflexivity|].
  intros Hn. unfold str_eqb.
  rewrite bool_decide_false by (intros ->; apply Hn; now left).
  rewrite IH by (intros Hin; apply Hn; now right). reflexivity.
Qed.

Lemma svg_registry_app dir l1 l2 :
  svg_registry dir (l1 ++ l2) = svg_registry dir l1 ++ svg_registry dir l2.
Proof. unfold svg_registry. rewrite List.filter_app, map_app. reflexivity. Qed.

Lemma svg_registry_keys dir done i :
  snd (splitext i) = lit ".svg" ->
  In (fst (splitext i)) (map fst (svg_registry dir done)) -> In i done.
Proof.
  intros Hext Hin. unfold svg_registry in Hin.
  rewrite map_map in Hin. simpl in Hin.
  apply in_map_iff in Hin. destruct Hin as (j & Hj & Hin).
  apply List.filter_In in Hin. destruct Hin as [Hin Hsvg].
  unfold str_eqb in Hsvg. apply bool_decide_eq_true in Hsvg.
  pose proof (splitext_concat i) as Hi. pose proof (splitext_concat j) as Hj'.
  rewrite Hj, Hsvg in Hj'. rewrite Hext in Hi.
  assert (Hji : j = i) by congruence. rewrite <- Hji. exact Hin.
Qed.

Lemma update_loop_eq E entries : forall done w,
  NoDup (done ++ entries) ->
  template_cache w = Some (svg_registry (cfg_templates E) done) ->
  for_each (fun _ i => update_step E i) entries tt w
  = (Ret tt,
     set_template_cache
       (Some (svg_registry (cfg_templates E) (done ++ entries))) w).
Proof.
  induction entries as [|i entries IH]; intros done w Hnd Hc.
  - rewrite app_nil_r. simpl. unfold ret. rewrite <- Hc.
    destruct w; reflexivity.
  - simpl. unfold bind.
    assert (Hstep : update_step E i w
                    = (Ret tt, set_template_cache
                                 (Some (svg_registry (cfg_templates E)
                                          (done ++ [i]))) w)).
    { unfold update_step. rewrite svg_registry_app.
      unfold svg_registry at 2. simpl List.filter.
      destruct (splitext i) as [name ext] eqn:Hsp. simpl.
      destruct (str_eqb ext (lit ".svg")) eqn:Hext; simpl; rewrite ?Hsp; simpl.
      - unfold bind, gets, modify. rewrite Hc. rewrite od_set_fresh; [reflexivity|].
        intros Hin. unfold str_eqb in Hext. apply bool_decide_eq_true in Hext.
        replace name with (fst (splitext i)) in Hin by (rewrite Hsp; reflexivity).
        apply svg_registry_keys in Hin; [|rewrite Hsp; exact Hext].
        apply NoDup_app in Hnd. destruct Hnd as (_ & Hd & _).
        apply (Hd i); [apply list_elem_of_In; exact Hin | left].
      - unfold ret. rewrite app_nil_r, <- Hc. destruct w; reflexivity. }
    rewrite Hstep.
    rewrite (IH (done ++ [i])); [| rewrite <- app_assoc; exact Hnd | reflexivity].
    rewrite <- app_assoc. reflexivity.
Qed.

(** C6, as amended.  [update_templates] first binds the global to an
    empty mapping and then fills it entry by entry.  When the directory
    scan raises, the exception reaches the caller and the registry is left
    empty, whatever it held before; when the scan returns a listing without
    repetitions, the registry ends as the [.svg] entries of the listing in
    listing order, and between two turns of the loop the global holds the
    registry of the entries handled so far. *)
Theorem C6_reload_replaces (E : env) (w : world) :
  (forall e,
      listdir E (set_template_cache (Some []) w) (cfg_templates E) = Raise e ->
      update_templates E w = (Raise e, set_template_cache (Some []) w))
  /\ (forall entries,
        listdir E (set_template_cache (Some []) w) (cfg_templates E)
        = Ret entries ->
        NoDup entries ->
        update_templates E w
        = (Ret tt,
           set_template_cache
             (Some (svg_registry (cfg_templates E) entries)) w)
        /\ forall k, (k <= length entries)%nat ->
             nth_error (visible_registries E entries w) k
             = Some (Some (svg_registry (cfg_templates E) (firstn k entries)))).
Proof.
  split.
  - intros e He. unfold update_templates, bind, modify, os_listdir.
    rewrite He. reflexivity.
  - intros entries Hl Hnd. split.
    + unfold update_templates, bind, modify, os_listdir. rewrite Hl.
      rewrite (update_loop_eq E entries []); [reflexivity | exact Hnd | reflexivity].
    + intros k Hk. unfold visible_registries.
      rewrite nth_error_map, nth_error_seq.
      destruct (Nat.ltb_spec k (S (length entries))) as [_|]; [|lia].
      simpl. rewrite (update_loop_eq E (firstn k entries) []);
        [reflexivity | | reflexivity].
      simpl. rewrite <- (firstn_skipn k entries) in Hnd.
      apply NoDup_app in Hnd. tauto.
Qed.

Lemma C6_reload_replaces_witness :
  update_templates E_down sample_world
  = (Raise OSError, set_template_cache (Some []) sample_world)
  /\ update_templates E_ok sample_world
     = (Ret tt,
        set_template_cache
          (Some [(lit "greet", lit "tpl/greet.svg");
                 (lit "bold", lit "tpl/bold.svg")]) sample_world)
  /\ nth_error (visible_registries E_ok sample_listing sample_world) 1
     = Some (Some [(lit "greet", lit "tpl/greet.svg")]).
Proof.
  destruct (C6_reload_replaces E_down sample_world) as [Hfail _].
  destruct (C6_reload_replaces E_ok sample_world) as [_ Hok].
  destruct (Hok sample_listing) as [Hall Hpart];
    [reflexivity | apply (bool_decide_unpack _); vm_compute; exact I |].
  split; [apply Hfail; reflexivity|].
  split; [exact Hall | apply (Hpart 1%nat); simpl; lia].
Defined.

(** The claim as stated: a reload that fails keeps the previous
    snapshot.  With an unreadable directory the three templates that were
    loaded are gone and the registry is empty. *)
Lemma C6_counterexample :
  ~ (forall E w e w',
       update_templates E w = (Raise e, w') ->
       template_cache w' = template_cache w).
Proof.
  intros H.
  specialize (H E_down sample_world OSError
                (set_template_cache (Some []) sample_world) eq_refl).
  discriminate H.
Qed.

(** ** [generate_image], step by step *)

Lemma generate_image_eq E tf out args w :
  generate_image E tf out args w
  = match expand_template E tf args (add_call (tf, out, args) w) with
    | (Raise e, w0) => (Raise e, w0)
    | (Ret doc, w0) =>
    match NamedTemporaryFile E w0 with
    | (Raise e, w1) => (Raise e, w1)
    | (Ret tmp, w1) =>
    match write E tmp doc w1 with
    | (Raise e, w2) => (Raise e, close_tmp tmp w2)
    | (Ret _, w2) =>
    match communicate E (inkscape_argv out tmp) w2 with
    | (Raise e, w3) => (Raise e, close_tmp tmp w3)
    | (Ret (rc, outs), w3) =>
      if negb (rc =? 0) then
        match utf8_decode outs with
        | None =>
            (Raise UnicodeDecodeError,
             close_tmp tmp (add_log (InkscapeError (lit "Inkscape") rc) w3))
        | Some s =>
            (Ret false,
             close_tmp tmp
               (add_log (InkscapeInfo s)
                  (add_log (InkscapeError (lit "Inkscape") rc) w3)))
        end
      else
        match communicate E (convert_argv out) w3 with
        | (Raise e, w4) => (Raise e, close_tmp tmp w4)
        | (Ret (rc2, outs2), w4) =>
        match unlink_quiet (out ++ lit ".png") w4 with
        | (Raise e, w5) => (Raise e, close_tmp tmp w5)
        | (Ret _, w5) =>
          if negb (rc2 =? 0) then
            match utf8_decode outs2 with
            | None =>
                (Raise UnicodeDecodeError,
                 close_tmp tmp (add_log (InkscapeError (lit "Convert") rc2) w5))
            | Some s =>
                (Ret false,
                 close_tmp tmp
                   (add_log (InkscapeInfo s)
                      (add_log (InkscapeError (lit "Convert") rc2) w5)))
            end
          else (Ret true, close_tmp tmp w5)
        end end
    end end end end.
Proof.
  unfold generate_image. unfold bind at 1. unfold modify at 1.
  unfold bind at 1.
  destruct (expand_template E tf args (add_call (tf, out, args) w))
    as [[doc|e] w0]; [|reflexivity].
  unfold bind at 1.
  destruct (NamedTemporaryFile E w0) as [[tmp|e] w1]; [|reflexivity].
  unfold finally. unfold bind at 1.
  destruct (write E tmp doc w1) as [[[]|e] w2]; [|reflexivity].
  unfold bind at 1.
  destruct (communicate E (inkscape_argv out tmp) w2) as [[[rc outs]|e] w3];
    [|reflexivity].
  cbn [fst snd].
  destruct (negb (rc =? 0)).
  { unfold bind, modify, decode, ret, raise.
    destruct (utf8_decode outs); reflexivity. }
  unfold bind at 1.
  destruct (communicate E (convert_argv out) w3) as [[[rc2 outs2]|e] w4];
    [|reflexivity].
  unfold bind at 1.
  destruct (unlink_quiet (out ++ lit ".png") w4) as [[[]|e] w5]; [|reflexivity].
  cbn [fst snd].
  destruct (negb (rc2 =? 0)); [|reflexivity].
  unfold bind, modify, decode, ret, raise.
  destruct (utf8_decode outs2); reflexivity.
Qed.

(** ** The pipeline *)

Lemma render_loop_cons E text entry reg acc w :
  render_loop E text (entry :: reg) acc w
  = match render_one E text acc entry w with
    | (Ret acc', w1) => render_loop E text reg acc' w1
    | (Raise e, w1) => (Raise e, w1)
    end.
Proof. reflexivity. Qed.

Lemma successful_cons_ok id o os :
  succeeded (id, o) = true -> successful ((id, o) :: os) = id :: successful os.
Proof. unfold successful. simpl. intros ->. reflexivity. Qed.

Lemma renders_loop E text reg w os w' :
  renders E text reg w os w' ->
  forall acc, render_loop E text reg acc w = (Ret (acc ++ successful os), w').
Proof.
  induction 1 as [w | t f reg w id os w' Hk Hf _ IH
                    | t f reg w id w1 os w' Hk Hf Hg _ IH
                    | t f reg w id w1 os w' Hk Hf Hg _ IH]; intros acc.
  - unfold successful. simpl. rewrite app_nil_r. reflexivity.
  - rewrite render_loop_cons, render_one_eq, Hk, Hf, IH.
    rewrite successful_cons_ok by reflexivity.
    rewrite <- app_assoc. reflexivity.
  - rewrite render_loop_cons, render_one_eq, Hk, Hf, Hg, IH.
    rewrite successful_cons_ok by reflexivity.
    rewrite <- app_assoc. reflexivity.
  - rewrite render_loop_cons, render_one_eq, Hk, Hf, Hg, IH. reflexivity.
Qed.

Lemma loop_renders E text reg : forall acc w ids w',
  render_loop E text reg acc w = (Ret ids, w') ->
  exists os, renders E text reg w os w' /\ ids = acc ++ successful os.
Proof.
  induction reg as [|[t f] reg IH]; intros acc w ids w' H.
  - injection H as <- <-. exists []. split; [constructor|].
    unfold successful. simpl. rewrite app_nil_r. reflexivity.
  - rewrite render_loop_cons, render_one_eq in H.
    destruct (artifact_key t text) as [id|e] eqn:Hk; [|discriminate].
    destruct (isfile (fs w) (artifact_path E id)) eqn:Hf.
    + apply IH in H. destruct H as (os & Hr & ->).
      exists ((id, CacheHit) :: os). split; [eapply renders_hit; eassumption|].
      rewrite successful_cons_ok by reflexivity.
      rewrite <- app_assoc. reflexivity.
    + destruct (generate_image E f (artifact_path E id) (render_args text) w)
        as [[[|]|e] w1] eqn:Hg; [| |discriminate].
      * apply IH in H. destruct H as (os & Hr & ->).
        exists ((id, Rendered) :: os).
        split; [eapply renders_ok; eassumption|].
        rewrite successful_cons_ok by reflexivity.
        rewrite <- app_assoc. reflexivity.
      * apply IH in H. destruct H as (os & Hr & ->).
        exists ((id, Failed) :: os).
        split; [eapply renders_failed; eassumption | reflexivity].
Qed.

Lemma renders_keys E text reg w os w' :
  renders E text reg w os w' ->
  Forall2 (fun entry o => artifact_key (fst entry) text = Ret (fst o)) reg os.
Proof. induction 1; constructor; assumption. Qed.

Lemma render_images_eq E text w reg :
  template_cache w = Some reg ->
  render_images E text w = render_loop E text reg [] w.
Proof. intros H. unfold render_images, bind, gets. rewrite H. reflexivity. Qed.

(** C5.  With the registry [reg] loaded, [render_images] returns the
    list [ids] exactly when the pass over [reg], in order, gave every
    template one outcome (cache hit, rendered, failed) and [ids] are the
    identifiers of the templates that did not fail, in registry order: a
    template that fails is left out and the templates after it are still
    served. *)
Theorem C5_partial_failure_isolation (E : env) (text : pystr) (reg : registry)
    (w : world) (ids : list pystr) (w' : world) :
  template_cache w = Some reg ->
  (render_images E text w = (Ret ids, w') <->
   exists os, renders E text reg w os w'
              /\ length os = length reg
              /\ ids = successful os).
Proof.
  intros Hc. rewrite (render_images_eq E text w reg Hc). split.
  - intros H. apply loop_renders in H. destruct H as (os & Hr & ->).
    exists os. split; [exact Hr|]. split; [|reflexivity].
    symmetry. eapply Forall2_length. eapply renders_keys; eassumption.
  - intros (os & Hr & _ & ->). apply (renders_loop E text reg w os w' Hr []).
Qed.

Lemma pair_eq_intro {A B} (p : A * B) (a : A) : fst p = a -> p = (a, snd p).
Proof. destruct p. simpl. intros ->. reflexivity. Qed.

Lemma filter_all {A} (f : A -> bool) l :
  length (List.filter f l) = length l -> List.filter f l = l.
Proof.
  induction l as [|x l IH]; simpl; [reflexivity|].
  destruct (f x); simpl; intros H.
  - f_equal. apply IH. lia.
  - pose proof (List.filter_length_le f l). lia.
Qed.

Lemma all_hits E text reg (os : list (pystr * outcome)) w :
  Forall2 (fun entry o => artifact_key (fst entry) text = Ret (fst o)) reg os ->
  Forall (fun id => isfile (fs w) (artifact_path E id) = true) (map fst os) ->
  forall acc, render_loop E text reg acc w = (Ret (acc ++ map fst os), w).
Proof.
  induction 1 as [|[t f] [id o] reg os Hk _ IH]; intros Hf acc.
  - simpl. rewrite app_nil_r. reflexivity.
  - simpl in Hk, Hf. inversion Hf as [|? ? Hid Hrest]; subst.
    rewrite render_loop_cons, render_one_eq, Hk, Hid, (IH Hrest).
    simpl. rewrite <- app_assoc. reflexivity.
Qed.

Lemma all_hits_ids E text reg (all_ids : list pystr) w :
  Forall2 (fun entry id => artifact_key (fst entry) text = Ret id) reg all_ids ->
  Forall (fun id => isfile (fs w) (artifact_path E id) = true) all_ids ->
  forall acc, render_loop E text reg acc w = (Ret (acc ++ all_ids), w).
Proof.
  induction 1 as [|[t f] id reg all_ids Hk _ IH]; intros Hf acc.
  - simpl. rewrite app_nil_r. reflexivity.
  - simpl in Hk. inversion Hf as [|? ? Hid Hrest]; subst.
    rewrite render_loop_cons, render_one_eq, Hk, Hid, (IH Hrest).
    rewrite <- app_assoc. reflexivity.
Qed.

Lemma render_loop_calls_grow E text reg acc w :
  (length (calls w) <= length (calls (snd (render_loop E text reg acc w))))%nat.
Proof.
  destruct (render_loop_frame E text reg acc w) as ((new & Hc & _) & _).
  rewrite Hc, length_app. lia.
Qed.

(** A pass that makes no call found every artifact file in place. *)
Lemma no_call_all_hits E text reg (all_ids : list pystr) :
  Forall2 (fun entry id => artifact_key (fst entry) text = Ret id) reg all_ids ->
  forall acc w,
    calls (snd (render_loop E text reg acc w)) = calls w ->
    Forall (fun id => isfile (fs w) (artifact_path E id) = true) all_ids.
Proof.
  induction 1 as [|[t f] id reg all_ids Hk _ IH]; intros acc w Hc.
  - apply List.Forall_nil.
  - simpl in Hk. rewrite render_loop_cons, render_one_eq, Hk in Hc.
    destruct (isfile (fs w) (artifact_path E id)) eqn:Hf.
    + apply List.Forall_cons; [exact Hf | exact (IH _ _ Hc)].
    + exfalso.
      destruct (generate_image_frame E f (artifact_path E id) (render_args text) w)
        as (Hg & _).
      destruct (generate_image E f (artifact_path E id) (render_args text) w)
        as [[[|]|e] w1]; cbn [snd] in Hg.
      * pose proof (render_loop_calls_grow E text reg (acc ++ [id]) w1) as Hle.
        rewrite Hc, Hg, length_app in Hle. simpl in Hle. lia.
      * pose proof (render_loop_calls_grow E text reg acc w1) as Hle.
        rewrite Hc, Hg, length_app in Hle. simpl in Hle. lia.
      * cbn [snd] in Hc. rewrite Hg in Hc.
        apply (f_equal (@length _)) in Hc. rewrite length_app in Hc.
        simpl in Hc. lia.
Qed.

(** C1, as amended.  After a first call that returned, a second call
    with the same text makes no call of [generate_image] exactly when the
    artifact file of every template of the registry is in place; it then
    returns the identifiers of all templates, in registry order, and
    leaves the world as it is: no child process, no file written.  That
    list is the one the first call returned exactly when the first call
    returned an identifier for every template.  So when no template failed
    and the files are in place the second call repeats the first; a
    template that failed and left no file makes the second call call
    [generate_image] again; and when a template failed but every artifact
    file is in place all the same, the second call returns its identifier
    though the first did not. *)
Theorem C1_idempotent_when_complete (E : env) (text : pystr) (reg : registry)
    (w : world) (ids : list pystr) (w1 : world) :
  template_cache w = Some reg ->
  render_images E text w = (Ret ids, w1) ->
  (length ids = length reg ->
   Forall (fun id => isfile (fs w1) (artifact_path E id) = true) ids ->
   render_images E text w1 = (Ret ids, w1))
  /\ exists all_ids,
       Forall2 (fun entry id => artifact_key (fst entry) text = Ret id)
               reg all_ids
       /\ (calls (snd (render_images E text w1)) = calls w1 <->
           Forall (fun id => isfile (fs w1) (artifact_path E id) = true) all_ids)
       /\ (Forall (fun id => isfile (fs w1) (artifact_path E id) = true) all_ids ->
           render_images E text w1 = (Ret all_ids, w1))
       /\ (ids = all_ids <-> length ids = length reg).
Proof.
  intros Hc H1.
  assert (Hc1 : template_cache w1 = Some reg).
  { rewrite <- Hc. replace w1 with (snd (render_images E text w))
      by (rewrite H1; reflexivity).
    rewrite (render_images_eq E text w reg Hc). apply render_loop_frame. }
  rewrite (render_images_eq E text w reg Hc) in H1.
  apply loop_renders in H1. destruct H1 as (os & Hr & ->).
  pose proof (renders_keys E text reg w os w1 Hr) as Hk.
  assert (Hk' : Forall2 (fun entry id => artifact_key (fst entry) text = Ret id)
                  reg (map fst os)).
  { clear -Hk. induction Hk; simpl; constructor; assumption. }
  assert (Hlen : length (map fst os) = length reg).
  { symmetry. eapply Forall2_length. exact Hk'. }
  assert (Hall : length (successful os) = length reg ->
                 successful os = map fst os).
  { intros Hl. unfold successful. rewrite filter_all; [reflexivity|].
    unfold successful in Hl. rewrite length_map in Hl, Hlen. congruence. }
  cbn [app] in *.
  rewrite (render_images_eq E text w1 reg Hc1).
  split.
  - intros Hl Hfiles. rewrite (Hall Hl) in *.
    apply (all_hits_ids E text reg (map fst os) w1 Hk' Hfiles []).
  - exists (map fst os). split; [exact Hk'|]. split; [|split].
    + split.
      * apply (no_call_all_hits E text reg (map fst os) Hk').
      * intros Hfiles.
        rewrite (all_hits_ids E text reg (map fst os) w1 Hk' Hfiles []).
        reflexivity.
    + intros Hfiles. apply (all_hits_ids E text reg (map fst os) w1 Hk' Hfiles []).
    + split; [intros ->; exact Hlen | exact Hall].
Qed.

Lemma C1_idempotent_when_complete_witness :
  render_images E_ok (lit "Hello/World")
    (snd (render_images E_ok (lit "Hello/World") small_world))
  = (Ret [greet_id; bold_id],
     snd (render_images E_ok (lit "Hello/World") small_world))
  /\ fst (render_images E_stuck (lit "Hello/World") small_world) = Ret []
  /\ render_images E_stuck (lit "Hello/World")
       (snd (render_images E_stuck (lit "Hello/World") small_world))
     = (Ret [greet_id; bold_id],
        snd (render_images E_stuck (lit "Hello/World") small_world)).
Proof.
  split.
  - destruct (C1_idempotent_when_complete E_ok (lit "Hello/World")
                [(lit "greet", lit "tpl/greet.svg"); (lit "bold", lit "tpl/bold.svg")]
                small_world [greet_id; bold_id]
                (snd (render_images E_ok (lit "Hello/World") small_world)))
      as [Hsame _].
    + reflexivity.
    + apply pair_eq_intro. vm_compute. reflexivity.
    + apply Hsame.
      * reflexivity.
      * apply List.Forall_cons; [vm_compute; reflexivity|].
        apply List.Forall_cons; [vm_compute; reflexivity|].
        apply List.Forall_nil.
  - split; [vm_compute; reflexivity|].
    destruct (C1_idempotent_when_complete E_stuck (lit "Hello/World")
                [(lit "greet", lit "tpl/greet.svg"); (lit "bold", lit "tpl/bold.svg")]
                small_world []
                (snd (render_images E_stuck (lit "Hello/World") small_world)))
      as [_ (all_ids & Hkeys & _ & Hall & _)].
    + reflexivity.
    + apply pair_eq_intro. vm_compute. reflexivity.
    + assert (Hids : all_ids = [greet_id; bold_id]).
      { inversion Hkeys as [|? g ? l1 Hg Hrest]; subst.
        inversion Hrest as [|? b ? l2 Hb Hnil]; subst.
        inversion Hnil; subst.
        vm_compute in Hg. vm_compute in Hb.
        injection Hg as <-. injection Hb as <-. reflexivity. }
      rewrite Hids in Hall. apply Hall.
      apply List.Forall_cons; [vm_compute; reflexivity|].
      apply List.Forall_cons; [vm_compute; reflexivity|].
      apply List.Forall_nil.
Defined.

(** The claim as stated: the second call returns the same list and
    calls [generate_image] zero times.  With a template whose rendering
    fails and leaves no file ([blank], whose export path is taken by a
    directory), the first call makes three calls and the second call, on
    the world the first one left, makes a fourth. *)
Lemma C1_counterexample :
  ~ (forall E text w ids1 w1 ids2 w2,
       render_images E text w = (Ret ids1, w1) ->
       render_images E text w1 = (Ret ids2, w2) ->
       ids2 = ids1 /\ calls w2 = calls w1).
Proof.
  intros H.
  set (r1 := render_images E_ok (lit "Hello/World") sample_world).
  set (r2 := render_images E_ok (lit "Hello/World") (snd r1)).
  destruct (H E_ok (lit "Hello/World") sample_world
              [greet_id; bold_id] (snd r1) [greet_id; bold_id] (snd r2))
    as [_ Hcalls].
  - apply pair_eq_intro. vm_compute. reflexivity.
  - apply pair_eq_intro. vm_compute. reflexivity.
  - apply (f_equal (@length _)) in Hcalls. vm_compute in Hcalls. discriminate.
Qed.

Lemma C5_partial_failure_isolation_witness :
  fst (render_images E_ok (lit "Hello/World") cached_world)
  = Ret [greet_id; bold_id].
Proof.
  assert (Hr : renders E_ok hello sample_registry cached_world
                 [(greet_id, CacheHit); (blank_id, Failed); (bold_id, Rendered)]
                 after_bold).
  { apply renders_hit; [vm_compute; reflexivity | vm_compute; reflexivity |].
    apply (renders_failed E_ok hello _ _ _ cached_world blank_id after_blank);
      [vm_compute; reflexivity | vm_compute; reflexivity
       | apply pair_eq_intro; vm_compute; reflexivity |].
    apply (renders_ok E_ok hello _ _ _ after_blank bold_id after_bold);
      [vm_compute; reflexivity | vm_compute; reflexivity
       | apply pair_eq_intro; vm_compute; reflexivity |].
    apply renders_nil. }
  rewrite (proj2 (C5_partial_failure_isolation E_ok hello sample_registry
                    cached_world [greet_id; bold_id] after_bold eq_refl)
                 (ex_intro _ _ (conj Hr (conj eq_refl eq_refl)))).
  reflexivity.
Defined.

(** ** What each step does to the file system *)

Lemma expand_template_world E tf args w :
  snd (expand_template E tf args w) = w.
Proof.
  unfold expand_template, bind, open_read, lift.
  destruct (fs w !! tf) as [[b|]|]; try reflexivity.
  destruct (utf8_decode b); reflexivity.
Qed.


Lemma tmpfile_inv E w r w1 :
  NamedTemporaryFile E w = (r, w1) ->
  match r with
  | Ret tmp => exists base, tmp = base ++ lit ".svg"
                            /\ fs w1 = <[tmp := File []]> (fs w)
  | Raise _ => w1 = w
  end.
Proof.
  unfold NamedTemporaryFile.
  destruct (mktemp E w) as [base|e]; [|intros [= <- <-]; reflexivity].
  destruct (fs w !! (base ++ lit ".svg")); intros [= <- <-];
    [reflexivity | exists base; split; reflexivity].
Qed.

Lemma write_inv E tmp doc w r w1 :
  write E tmp doc w = (r, w1) ->
  match r with
  | Ret _ => exists b, fs w1 = <[tmp := File b]> (fs w)
  | Raise _ => w1 = w
  end.
Proof.
  unfold write. destruct (locale_encode E doc) as [b|]; intros [= <- <-];
    [eexists|]; reflexivity.
Qed.

Lemma communicate_inv E argv w r w1 :
  communicate E argv w = (r, w1) ->
  match r with
  | Ret (rc, outs) => popen E w argv = Exits rc outs (fs w1)
                      \/ popen E w argv = TimesOut rc outs (fs w1)
  | Raise _ => w1 = w
  end.
Proof.
  unfold communicate. destruct (popen E w argv); intros [= <- <-];
    [reflexivity | left; reflexivity | right; reflexivity].
Qed.

Lemma unlink_at path q w :
  q <> path ->
  fs (snd (unlink_quiet path w)) !! q = fs w !! q.
Proof.
  intros Hq. unfold unlink_quiet.
  destruct (fs w !! path) as [[b|]|]; try reflexivity.
  simpl. apply lookup_delete_ne. congruence.
Qed.

Lemma close_tmp_at tmp q w :
  q <> tmp -> fs (close_tmp tmp w) !! q = fs w !! q.
Proof. intros Hq. simpl. apply lookup_delete_ne. congruence. Qed.

Lemma png_differs (out : pystr) : out <> out ++ lit ".png".
Proof.
  intros H. apply (f_equal (@length Z)) in H.
  rewrite length_app in H. simpl in H. lia.
Qed.

Lemma prepared_at E tf out args w doc tmp w2 :
  (forall base, out <> base ++ lit ".svg") ->
  prepared E tf out args w doc tmp w2 ->
  out <> tmp /\ fs w2 !! out = fs w !! out.
Proof.
  intros Hout (w0 & w1 & He & Ht & Hw).
  pose proof (expand_template_world E tf args (add_call (tf, out, args) w)) as Hw0.
  rewrite He in Hw0. simpl in Hw0. subst w0.
  apply tmpfile_inv in Ht. destruct Ht as (base & -> & Hf1).
  apply write_inv in Hw. destruct Hw as (b & Hf2).
  split; [apply Hout|].
  rewrite Hf2, Hf1, !lookup_insert_ne by (intros Heq; apply (Hout base); congruence).
  reflexivity.
Qed.

(** The final path after a call is what the second stage left there,
    once the second stage ran. *)
Lemma second_stage_stays E tf out args w doc tmp w2 o1 w3 rc2 o2 w4 :
  (forall base, out <> base ++ lit ".svg") ->
  prepared E tf out args w doc tmp w2 ->
  communicate E (inkscape_argv out tmp) w2 = (Ret (0, o1), w3) ->
  communicate E (convert_argv out) w3 = (Ret (rc2, o2), w4) ->
  fs (snd (generate_image E tf out args w)) !! out = fs w4 !! out.
Proof.
  intros Hout Hp Hc1 Hc2.
  destruct (prepared_at E tf out args w doc tmp w2 Hout Hp) as [Hne _].
  destruct Hp as (w0 & w1 & He & Ht & Hw).
  rewrite generate_image_eq, He, Ht, Hw, Hc1. simpl negb. cbv iota.
  rewrite Hc2.
  pose proof (unlink_at (out ++ lit ".png") out w4 (png_differs out)) as Hu.
  destruct (unlink_quiet (out ++ lit ".png") w4) as [[[]|e] w5]; simpl in Hu.
  - destruct (negb (rc2 =? 0)); [destruct (utf8_decode o2)|];
      simpl; rewrite lookup_delete_ne by congruence; exact Hu.
  - simpl. rewrite lookup_delete_ne by congruence. exact Hu.
Qed.

(** With converters that are atomic at the final path, the final path
    changes only through a second stage that exited with status 0. *)
Lemma final_path_changes E tf out args w :
  (forall base, out <> base ++ lit ".svg") ->
  atomic_at E out -> stage1_spares E out ->
  fs (snd (generate_image E tf out args w)) !! out <> fs w !! out ->
  exists doc tmp w2 o1 w3 o2 w4,
    prepared E tf out args w doc tmp w2
    /\ communicate E (inkscape_argv out tmp) w2 = (Ret (0, o1), w3)
    /\ communicate E (convert_argv out) w3 = (Ret (0, o2), w4)
    /\ fs (snd (generate_image E tf out args w)) !! out = fs w4 !! out.
Proof.
  intros Hout Hat Hs1 Hchg.
  rewrite generate_image_eq in Hchg.
  pose proof (expand_template_world E tf args (add_call (tf, out, args) w)) as Hw0.
  destruct (expand_template E tf args (add_call (tf, out, args) w))
    as [[doc|e] w0] eqn:He; simpl in Hw0; subst w0;
    [|exfalso; apply Hchg; reflexivity].
  destruct (NamedTemporaryFile E (add_call (tf, out, args) w))
    as [[tmp|e] w1] eqn:Ht.
  2:{ apply tmpfile_inv in Ht. subst w1. exfalso; apply Hchg; reflexivity. }
  destruct (write E tmp doc w1) as [[[]|e] w2] eqn:Hw.
  2:{ exfalso. apply Hchg. apply write_inv in Hw. subst w2.
      apply tmpfile_inv in Ht. destruct Ht as (base & -> & Hf1).
      simpl. rewrite lookup_delete_ne by (intros Heq; apply (Hout base); congruence).
      rewrite Hf1, lookup_insert_ne by (intros Heq; apply (Hout base); congruence).
      reflexivity. }
  assert (Hp : prepared E tf out args w doc tmp w2)
    by (exists (add_call (tf, out, args) w), w1; repeat split; assumption).
  destruct (prepared_at E tf out args w doc tmp w2 Hout Hp) as [Hne H2].
  destruct (communicate E (inkscape_argv out tmp) w2)
    as [[[rc o1]|e] w3] eqn:Hc1.
  2:{ exfalso. apply Hchg. apply communicate_inv in Hc1. subst w3.
      cbn [snd]. rewrite close_tmp_at by exact Hne. exact H2. }
  assert (H3 : fs w3 !! out = fs w !! out).
  { rewrite <- H2. pose proof (Hs1 w2 tmp) as Hs.
    apply communicate_inv in Hc1. destruct Hc1 as [Hc|Hc]; rewrite Hc in Hs;
      exact Hs. }
  destruct (Z.eqb_spec rc 0) as [->|Hrc]; simpl negb in Hchg; cbv iota in Hchg.
  2:{ exfalso. apply Hchg.
      destruct (utf8_decode o1); cbn [snd]; rewrite close_tmp_at by exact Hne;
        exact H3. }
  destruct (communicate E (convert_argv out) w3)
    as [[[rc2 o2]|e] w4] eqn:Hc2.
  2:{ exfalso. apply Hchg. apply communicate_inv in Hc2. subst w4.
      cbn [snd]. rewrite close_tmp_at by exact Hne. exact H3. }
  destruct (Z.eqb_spec rc2 0) as [->|Hrc2].
  - exists doc, tmp, w2, o1, w3, o2, w4. split; [exact Hp|].
    split; [exact Hc1|]. split; [exact Hc2|].
    apply (second_stage_stays E tf out args w doc tmp w2 o1 w3 0 o2 w4);
      assumption.
  - exfalso. apply Hchg.
    assert (H4 : fs w4 !! out = fs w !! out).
    { rewrite <- H3. pose proof (Hat w3 (convert_argv out)) as Ha.
      apply communicate_inv in Hc2. destruct Hc2 as [Hc|Hc]; rewrite Hc in Ha;
        apply Ha; exact Hrc2. }
    pose proof (unlink_at (out ++ lit ".png") out w4 (png_differs out)) as Hu.
    destruct (unlink_quiet (out ++ lit ".png") w4) as [[[]|e] w5]; simpl in Hu.
    + cbn [negb]. destruct (utf8_decode o2);
        cbn [snd]; rewrite close_tmp_at by exact Hne; simpl fs; congruence.
    + cbn [snd]. rewrite close_tmp_at by exact Hne. congruence.
Qed.

Lemma jpg_not_svg (x y : pystr) : x ++ lit ".jpg" <> y ++ lit ".svg".
Proof.
  intros H. apply (f_equal (@rev Z)) in H.
  rewrite !rev_app_distr in H. simpl in H. discriminate H.
Qed.

(** An artifact path never is the name of a temporary document. *)
Lemma artifact_path_not_svg E fileid base :
  artifact_path E fileid <> base ++ lit ".svg".
Proof.
  unfold artifact_path, os_path_join.
  destruct (fileid ++ lit ".jpg") as [|c r] eqn:Hb.
  { destruct fileid; discriminate. }
  assert (Hjpg : forall pre, pre ++ c :: r <> base ++ lit ".svg").
  { intros pre. rewrite <- Hb, app_assoc. apply jpg_not_svg. }
  destruct (Z.eq_dec c 47) as [->|Hc].
  - apply (Hjpg []).
  - assert (Hgoal : match rev (cfg_images E) with
                    | [] => c :: r
                    | 47 :: _ => cfg_images E ++ c :: r
                    | _ => cfg_images E ++ 47 :: c :: r
                    end <> base ++ lit ".svg").
    { destruct (rev (cfg_images E)) as [|d l]; [apply (Hjpg [])|].
      assert (H47 : cfg_images E ++ 47 :: c :: r <> base ++ lit ".svg").
      { change (cfg_images E ++ 47 :: c :: r)
          with (cfg_images E ++ [47] ++ c :: r).
        rewrite app_assoc. apply Hjpg. }
      destruct d as [|p|p]; try exact H47.
      repeat (destruct p as [p|p|]; try exact H47). apply Hjpg. }
    destruct c as [|p|p]; try exact Hgoal.
    repeat (destruct p as [p|p|]; try exact Hgoal). congruence.
Qed.

(** ** Claims about the renderer *)









(** C3, as amended.  [generate_image] hands the final path to the
    second-stage converter itself and does not remove or rename it
    afterwards: once the second stage ran, whatever it left at the final
    path is what stays there, whatever its status.  When the converters
    are atomic at the final path (a converter that fails leaves it as
    found, the first stage does not write it), a file that appears at the
    final path during a call was left there by the second stage of that
    call, which ended with status zero after a first stage that ended with
    status zero on the document of that call. *)
Theorem C3_final_path_written_by_converter (E : env) (tf out : pystr)
    (args : list pystr) (w : world) :
  (forall base, out <> base ++ lit ".svg") ->
  (forall doc tmp w2 o1 w3 rc2 o2 w4,
      prepared E tf out args w doc tmp w2 ->
      communicate E (inkscape_argv out tmp) w2 = (Ret (0, o1), w3) ->
      communicate E (convert_argv out) w3 = (Ret (rc2, o2), w4) ->
      fs (snd (generate_image E tf out args w)) !! out = fs w4 !! out)
  /\ (atomic_at E out -> stage1_spares E out ->
      isfile (fs w) out = false ->
      isfile (fs (snd (generate_image E tf out args w))) out = true ->
      exists doc tmp w2 o1 w3 o2 w4,
        prepared E tf out args w doc tmp w2
        /\ communicate E (inkscape_argv out tmp) w2 = (Ret (0, o1), w3)
        /\ communicate E (convert_argv out) w3 = (Ret (0, o2), w4)
        /\ fs (snd (generate_image E tf out args w)) !! out = fs w4 !! out
        /\ isfile (fs w4) out = true).
Proof.
  intros Hout. split.
  - intros. eapply second_stage_stays; eassumption.
  - intros Hat Hs1 Hbefore Hafter.
    destruct (final_path_changes E tf out args w Hout Hat Hs1)
      as (doc & tmp & w2 & o1 & w3 & o2 & w4 & Hp & Hc1 & Hc2 & Heq).
    { intros Heq. unfold isfile in Hbefore, Hafter. rewrite Heq in Hafter.
      congruence. }
    exists doc, tmp, w2, o1, w3, o2, w4. split; [exact Hp|].
    split; [exact Hc1|]. split; [exact Hc2|]. split; [exact Heq|].
    unfold isfile in *. rewrite <- Heq. exact Hafter.
Qed.

Lemma sample_popen_atomic path ls net :
  atomic_at (sample_env sample_popen ls net) path.
Proof.
  intros w argv. simpl. unfold sample_popen.
  destruct argv as [|a0 [|a1 [|a2 [|a3 [|a4 [|a5 [|a6 r]]]]]]]; try exact I.
  - destruct (fs w !! a1) as [[c|]|]; intros Hrc;
      first [reflexivity | exfalso; apply Hrc; reflexivity].
  - destruct (fs w !! a5) as [[doc|]|]; [destruct (fs w !! a4) as [[c|]|]| |];
      intros Hrc; first [reflexivity | exfalso; apply Hrc; reflexivity].
Qed.

Lemma sample_popen_spares path ls net :
  stage1_spares (sample_env sample_popen ls net) path.
Proof.
  intros w tmp. simpl.
  destruct (fs w !! tmp) as [[doc|]|]; try reflexivity.
  destruct (fs w !! (path ++ lit ".png")) as [[c|]|]; try reflexivity;
    apply lookup_insert_ne; intros Heq; symmetry in Heq;
    exact (png_differs path Heq).
Qed.

Lemma C3_final_path_written_by_converter_witness :
  exists doc tmp w2 o1 w3 o2 w4,
    prepared E_ok (lit "tpl/greet.svg") (artifact_path E_ok greet_id)
      (render_args (lit "Hello/World")) sample_world doc tmp w2
    /\ communicate E_ok (inkscape_argv (artifact_path E_ok greet_id) tmp) w2
       = (Ret (0, o1), w3)
    /\ communicate E_ok (convert_argv (artifact_path E_ok greet_id)) w3
       = (Ret (0, o2), w4)
    /\ fs (snd (generate_image E_ok (lit "tpl/greet.svg")
                  (artifact_path E_ok greet_id)
                  (render_args (lit "Hello/World")) sample_world))
       !! artifact_path E_ok greet_id
       = fs w4 !! artifact_path E_ok greet_id
    /\ isfile (fs w4) (artifact_path E_ok greet_id) = true.
Proof.
  destruct (C3_final_path_written_by_converter E_ok (lit "tpl/greet.svg")
              (artifact_path E_ok greet_id) (render_args (lit "Hello/World"))
              sample_world (artifact_path_not_svg E_ok greet_id))
    as [_ Hinv].
  apply Hinv.
  - apply sample_popen_atomic.
  - apply sample_popen_spares.
  - vm_compute. reflexivity.
  - vm_compute. reflexivity.
Defined.

(** The claim as stated: a file under the final name comes from a fully
    successful conversion.  With a first stage that exports with status
    zero and a second stage that is killed on its timeout after writing
    two octets, [generate_image] returns [False] and the two octets are a
    file under the final name. *)
Lemma C3_counterexample :
  ~ (forall E tf out args w,
       isfile (fs w) out = false ->
       isfile (fs (snd (generate_image E tf out args w))) out = true ->
       fst (generate_image E tf out args w) = Ret true).
Proof.
  intros H.
  specialize (H E_stuck (lit "tpl/greet.svg") (lit "img/a.jpg")
                (render_args (lit "Hello/World")) sample_world).
  assert (Hr : fst (generate_image E_stuck (lit "tpl/greet.svg") (lit "img/a.jpg")
                      (render_args (lit "Hello/World")) sample_world)
               = Ret false) by (vm_compute; reflexivity).
  rewrite Hr in H.
  discriminate H; vm_compute; reflexivity.
Qed.

(** ** Arguments of the renderer *)

Lemma communicate_writes E argv w :
  writes (snd (communicate E argv w)) = writes w.
Proof. unfold communicate. destruct (popen E w argv); reflexivity. Qed.

Lemma unlink_writes path w : writes (snd (unlink_quiet path w)) = writes w.
Proof.
  unfold unlink_quiet. destruct (fs w !! path) as [[c|]|]; reflexivity.
Qed.

Lemma expand_template_file E tf args w b T :
  fs w !! tf = Some (File b) ->
  utf8_decode b = Some T ->
  expand_template E tf args w = (str_format E (universal_newlines T) args, w).
Proof.
  intros Hf Hd. unfold expand_template, bind, open_read, lift.
  rewrite Hf, Hd. destruct (str_format E (universal_newlines T) args); reflexivity.
Qed.

(** The one [f.write] of a call that gets as far as the temporary file
    carries the expanded template. *)
Lemma generate_image_writes E tf out args w b T doc base enc :
  fs w !! tf = Some (File b) ->
  utf8_decode b = Some T ->
  str_format E (universal_newlines T) args = Ret doc ->
  mktemp E (add_call (tf, out, args) w) = Ret base ->
  fs w !! (base ++ lit ".svg") = None ->
  locale_encode E doc = Some enc ->
  writes (snd (generate_image E tf out args w))
  = writes w ++ [(base ++ lit ".svg", doc)].
Proof.
  intros Hf Hd Hs Hm Hfree Henc. rewrite generate_image_eq.
  rewrite (expand_template_file E tf args (add_call (tf, out, args) w) b T Hf Hd),
    Hs.
  unfold NamedTemporaryFile. rewrite Hm. cbn [fs add_call]. rewrite Hfree.
  unfold write. rewrite Henc.
  set (tmp := base ++ lit ".svg").
  match goal with |- context [communicate E (inkscape_argv out tmp) ?w0] =>
    set (w2 := w0) end.
  assert (H2 : writes w2 = writes w ++ [(tmp, doc)]) by reflexivity.
  pose proof (communicate_writes E (inkscape_argv out tmp) w2) as H3.
  destruct (communicate E (inkscape_argv out tmp) w2) as [[[rc o1]|e] w3];
    cbn [snd] in H3; [|cbn; congruence].
  destruct (negb (rc =? 0)).
  { destruct (utf8_decode o1); cbn; congruence. }
  pose proof (communicate_writes E (convert_argv out) w3) as H4.
  destruct (communicate E (convert_argv out) w3) as [[[rc2 o2]|e] w4];
    cbn [snd] in H4; [|cbn; congruence].
  pose proof (unlink_writes (out ++ lit ".png") w4) as H5.
  destruct (unlink_quiet (out ++ lit ".png") w4) as [[[]|e] w5];
    cbn [snd] in H5; [|cbn; congruence].
  destruct (negb (rc2 =? 0)); [destruct (utf8_decode o2)|]; cbn; congruence.
Qed.

Lemma renders_calls E text reg w os w' :
  renders E text reg w os w' ->
  calls w' = calls w ++ calls_of E text reg os.
Proof.
  induction 1 as [w | t f reg w id os w' Hk Hf _ IH
                    | t f reg w id w1 os w' Hk Hf Hg _ IH
                    | t f reg w id w1 os w' Hk Hf Hg _ IH].
  - symmetry. apply app_nil_r.
  - exact IH.
  - destruct (generate_image_frame E f (artifact_path E id) (render_args text) w)
      as (Hc & _). rewrite Hg in Hc. cbn [snd] in Hc.
    rewrite IH, Hc, <- app_assoc. reflexivity.
  - destruct (generate_image_frame E f (artifact_path E id) (render_args text) w)
      as (Hc & _). rewrite Hg in Hc. cbn [snd] in Hc.
    rewrite IH, Hc, <- app_assoc. reflexivity.
Qed.

Lemma render_single E text t tf w id :
  template_cache w = Some [(t, tf)] ->
  artifact_key t text = Ret id ->
  isfile (fs w) (artifact_path E id) = false ->
  snd (render_images E text w)
  = snd (generate_image E tf (artifact_path E id) (render_args text) w).
Proof.
  intros Hc Hk Hf.
  rewrite (render_images_eq E text w _ Hc), render_loop_cons, render_one_eq,
    Hk, Hf.
  destruct (generate_image E tf (artifact_path E id) (render_args text) w)
    as [[[|]|e] w1]; reflexivity.
Qed.

(** C7.  The argument list is the full text followed by its segments cut
    at every slash (joining them with slashes gives the text back and no
    segment holds a slash).  Every call of [generate_image] that
    [render_images] makes carries that list, and a call of [render_images]
    that returns has made one such call for every template that was not a
    cache hit, in order, and no other; [generate_image] hands the template
    expanded with its arguments to the temporary document.  For the text
    [Hello/World] a template file holding [{0}-{1}] expands to
    [Hello/World-Hello], and a call of [render_images] with that one
    template registered makes the one call with the arguments
    [Hello/World], [Hello], [World] and writes that document. *)
Theorem C7_positional_arguments :
  (forall text,
      nth_error (render_args text) 0 = Some text
      /\ tl (render_args text) = split 47 text
      /\ join 47 (tl (render_args text)) = text
      /\ Forall (fun seg => ~ In 47 seg) (tl (render_args text)))
  /\ (forall E text w, exists new,
        calls (snd (render_images E text w)) = calls w ++ new
        /\ Forall (fun c => snd c = render_args text) new)
  /\ render_args (lit "Hello/World")
     = [lit "Hello/World"; lit "Hello"; lit "World"]
  /\ (forall E w templatefile,
        fst (expand_template E templatefile (render_args (lit "Hello/World"))
               (set_fs (<[templatefile := File (lit "{0}-{1}")]> (fs w)) w))
        = Ret (lit "Hello/World-Hello"))
  /\ (forall E text reg w ids w',
        template_cache w = Some reg ->
        render_images E text w = (Ret ids, w') ->
        exists os,
          renders E text reg w os w'
          /\ calls w' = calls w ++ calls_of E text reg os)
  /\ (forall E tf out args w b T doc base enc,
        fs w !! tf = Some (File b) ->
        utf8_decode b = Some T ->
        str_format E (universal_newlines T) args = Ret doc ->
        mktemp E (add_call (tf, out, args) w) = Ret base ->
        fs w !! (base ++ lit ".svg") = None ->
        locale_encode E doc = Some enc ->
        writes (snd (generate_image E tf out args w))
        = writes w ++ [(base ++ lit ".svg", doc)])
  /\ (forall E w t tf id base enc,
        template_cache w = Some [(t, tf)] ->
        fs w !! tf = Some (File (lit "{0}-{1}")) ->
        artifact_key t (lit "Hello/World") = Ret id ->
        isfile (fs w) (artifact_path E id) = false ->
        mktemp E (add_call (tf, artifact_path E id,
                            render_args (lit "Hello/World")) w) = Ret base ->
        fs w !! (base ++ lit ".svg") = None ->
        locale_encode E (lit "Hello/World-Hello") = Some enc ->
        calls (snd (render_images E (lit "Hello/World") w))
        = calls w ++ [(tf, artifact_path E id,
                       [lit "Hello/World"; lit "Hello"; lit "World"])]
        /\ writes (snd (render_images E (lit "Hello/World") w))
           = writes w ++ [(base ++ lit ".svg", lit "Hello/World-Hello")]).
Proof.
  split.
  { intros text. unfold render_args. simpl.
    repeat split; [apply join_split | apply split_no_sep]. }
  split.
  { intros E text w. unfold render_images, bind, gets.
    destruct (template_cache w) as [reg|]; [|apply no_new_calls].
    apply render_loop_frame. }
  split; [reflexivity|].
  split.
  { intros E w templatefile. unfold expand_template, bind, open_read.
    simpl fs. rewrite lookup_insert_eq. reflexivity. }
  split.
  { intros E text reg w ids w' Hc Hr.
    rewrite (render_images_eq E text w reg Hc) in Hr.
    apply loop_renders in Hr. destruct Hr as (os & Hr & _).
    exists os. split; [exact Hr | apply (renders_calls E text reg w os w' Hr)]. }
  split; [apply generate_image_writes|].
  intros E w t tf id base enc Hc Hf Hk Hi Hm Hfree Henc.
  rewrite (render_single E (lit "Hello/World") t tf w id Hc Hk Hi). split.
  - destruct (generate_image_frame E tf (artifact_path E id)
                (render_args (lit "Hello/World")) w) as (Hcalls & _).
    exact Hcalls.
  - apply (generate_image_writes E tf (artifact_path E id)
             (render_args (lit "Hello/World")) w (lit "{0}-{1}") (lit "{0}-{1}")
             (lit "Hello/World-Hello") base enc); try assumption; reflexivity.
Qed.

Lemma C7_positional_arguments_witness :
  calls (snd (render_images E_ok (lit "Hello/World") single_world))
  = [(lit "tpl/greet.svg", artifact_path E_ok greet_id,
      [lit "Hello/World"; lit "Hello"; lit "World"])]
  /\ writes (snd (render_images E_ok (lit "Hello/World") single_world))
     = [(lit "/tmp/tmpk3x9.svg", lit "Hello/World-Hello")].
Proof.
  destruct C7_positional_arguments as (_ & _ & _ & _ & _ & _ & Hrun).
  apply (Hrun E_ok single_world (lit "greet") (lit "tpl/greet.svg") greet_id
           (lit "/tmp/tmpk3x9") (lit "Hello/World-Hello"));
    vm_compute; reflexivity.
Defined.

(** ** The codec and the key *)

Ltac solve_arith := Z.div_mod_to_equations; lia.

Ltac decide_tests :=
  repeat match goal with
         | |- context [?a <=? ?b] =>
             destruct (Z.leb_spec a b); try (exfalso; solve_arith)
         | |- context [?a <? ?b] =>
             destruct (Z.ltb_spec a b); try (exfalso; solve_arith)
         end.

Lemma utf8_decode_encode_cp c b rest :
  encode_cp c = Some b ->
  utf8_decode (b ++ rest)
  = match utf8_decode rest with Some s => Some (c :: s) | None => None end.
Proof.
  unfold encode_cp.
  destruct (Z.ltb_spec c 0); [discriminate|].
  destruct (Z.ltb_spec c 128).
  { intros [= <-]. cbn [app utf8_decode]. decide_tests. reflexivity. }
  destruct (Z.ltb_spec c 2048).
  { intros [= <-]. cbn [app utf8_decode]. unfold is_cont. decide_tests.
    cbn [andb]. replace ((192 + c / 64 - 192) * 64 + (128 + c mod 64 - 128))
      with c by solve_arith. reflexivity. }
  destruct (Z.ltb_spec c 65536).
  { destruct (Z.leb_spec 55296 c); destruct (Z.leb_spec c 57343);
      cbn [andb]; try discriminate;
      intros [= <-]; cbn [app utf8_decode]; unfold is_cont;
      replace ((224 + c / 4096 - 224) * 4096 + (128 + (c / 64) mod 64 - 128) * 64
               + (128 + c mod 64 - 128)) with c by solve_arith;
      decide_tests; reflexivity. }
  destruct (Z.ltb_spec c 1114112); [|discriminate].
  intros [= <-]. cbn [app utf8_decode]. unfold is_cont.
  replace ((240 + c / 262144 - 240) * 262144
           + (128 + (c / 4096) mod 64 - 128) * 4096
           + (128 + (c / 64) mod 64 - 128) * 64 + (128 + c mod 64 - 128))
    with c by solve_arith.
  decide_tests. reflexivity.
Qed.

(** Decoding undoes encoding. *)
Lemma utf8_decode_encode s : forall b,
  utf8_encode s = Some b -> utf8_decode b = Some s.
Proof.
  induction s as [|c s IH]; intros b.
  - intros [= <-]. reflexivity.
  - cbn [utf8_encode].
    destruct (encode_cp c) as [bc|] eqn:Hc; [|discriminate].
    destruct (utf8_encode s) as [bs|]; [|discriminate].
    intros [= <-]. rewrite (utf8_decode_encode_cp c bc bs Hc), (IH bs eq_refl).
    reflexivity.
Qed.

Lemma utf8_encode_inj s1 s2 b :
  utf8_encode s1 = Some b -> utf8_encode s2 = Some b -> s1 = s2.
Proof.
  intros H1 H2. apply utf8_decode_encode in H1. apply utf8_decode_encode in H2.
  congruence.
Qed.

Lemma utf8_decode_ascii l :
  Forall (fun c => 0 <= c < 128) l -> utf8_decode l = Some l.
Proof.
  induction 1 as [|c l Hc _ IH]; [reflexivity|].
  cbn [utf8_decode]. rewrite IH.
  destruct (Z.leb_spec 0 c); [|lia]. destruct (Z.ltb_spec c 128); [|lia].
  reflexivity.
Qed.

Lemma be_bytes_bytes n : forall x, Forall is_byte (SHA256.be_bytes n x).
Proof.
  induction n as [|n IH]; intros x; simpl; [constructor|].
  apply Forall_app. split; [apply IH|].
  constructor; [|constructor]. unfold is_byte. solve_arith.
Qed.

Lemma be_bytes_length n : forall x, length (SHA256.be_bytes n x) = n.
Proof.
  induction n as [|n IH]; intros x; simpl; [reflexivity|].
  rewrite length_app, IH. simpl. lia.
Qed.

(** A digest is thirty-two octets. *)
Lemma digest_bytes msg : Forall is_byte (SHA256.digest msg).
Proof.
  unfold SHA256.digest. rewrite !Forall_app.
  repeat split; apply be_bytes_bytes.
Qed.

Lemma digest_length msg : length (SHA256.digest msg) = 32%nat.
Proof.
  unfold SHA256.digest. rewrite !length_app, !be_bytes_length. reflexivity.
Qed.

Lemma list_ind3 {A} (P : list A -> Prop) :
  P [] -> (forall a, P [a]) -> (forall a b, P [a; b]) ->
  (forall a b c r, P r -> P (a :: b :: c :: r)) ->
  forall l, P l.
Proof.
  intros H0 H1 H2 H3.
  assert (H : forall l, P l /\ (forall a, P (a :: l))
                        /\ (forall a b, P (a :: b :: l))).
  { induction l as [|x l (IHa & IHb & IHc)].
    - repeat split; auto.
    - repeat split; auto. }
  intros l. apply H.
Qed.

Lemma b64char_range i :
  0 <= i < 64 -> 0 <= b64char i < 128 /\ b64char i <> 61.
Proof. intros Hi. unfold b64char. decide_tests; destruct (Z.eqb_spec i 62); lia. Qed.

Lemma b64char_inj i j :
  0 <= i < 64 -> 0 <= j < 64 -> b64char i = b64char j -> i = j.
Proof.
  intros Hi Hj. unfold b64char.
  decide_tests; destruct (Z.eqb_spec i 62); destruct (Z.eqb_spec j 62); lia.
Qed.

Ltac bytes_of H :=
  repeat match type of H with
         | Forall is_byte (_ :: _) =>
             let Hb := fresh "Hb" in
             let Hr := fresh "Hr" in
             inversion H as [|? ? Hb Hr]; subst; clear H; rename Hr into H;
             unfold is_byte in Hb
         end.

Ltac sextet := solve_arith.

(** Without their padding the four characters of a group give the three
    octets back. *)
Lemma group_inj a b c a' b' c' :
  is_byte a -> is_byte b -> is_byte c -> is_byte a' -> is_byte b' -> is_byte c' ->
  b64char (a / 4) = b64char (a' / 4) ->
  b64char ((a mod 4) * 16 + b / 16) = b64char ((a' mod 4) * 16 + b' / 16) ->
  b64char ((b mod 16) * 4 + c / 64) = b64char ((b' mod 16) * 4 + c' / 64) ->
  b64char (c mod 64) = b64char (c' mod 64) ->
  a = a' /\ b = b' /\ c = c'.
Proof.
  unfold is_byte. intros Ha Hb Hc Ha' Hb' Hc' H1 H2 H3 H4.
  apply b64char_inj in H1; [|sextet..].
  apply b64char_inj in H2; [|sextet..].
  apply b64char_inj in H3; [|sextet..].
  apply b64char_inj in H4; [|sextet..].
  solve_arith.
Qed.

Ltac padding_clash :=
  match goal with
  | H : 61 = b64char ?x |- _ =>
      exfalso; assert (Hx : 0 <= x < 64) by sextet;
      apply (proj2 (b64char_range x Hx)); symmetry; exact H
  | H : b64char ?x = 61 |- _ =>
      exfalso; assert (Hx : 0 <= x < 64) by sextet;
      apply (proj2 (b64char_range x Hx)); exact H
  end.

Ltac sextets_equal :=
  repeat match goal with
         | H : b64char ?x = b64char ?y |- _ =>
             apply b64char_inj in H; [|sextet..]
         end.

Lemma b64_inj l1 : forall l2,
  Forall is_byte l1 -> Forall is_byte l2 ->
  urlsafe_b64encode l1 = urlsafe_b64encode l2 -> l1 = l2.
Proof.
  induction l1 as [|a|a b|a b c r IH] using list_ind3; intros l2 H1 H2 He.
  - destruct l2 as [|a' [|b' [|c' r']]]; [reflexivity|discriminate..].
  - bytes_of H1.
    destruct l2 as [|a' [|b' [|c' r']]]; try discriminate; bytes_of H2;
      cbn [urlsafe_b64encode] in He; injection He; clear He; intros;
      try padding_clash.
    sextets_equal. f_equal. solve_arith.
  - bytes_of H1.
    destruct l2 as [|a' [|b' [|c' r']]]; try discriminate; bytes_of H2;
      cbn [urlsafe_b64encode] in He; injection He; clear He; intros;
      try padding_clash.
    sextets_equal. assert (a = a') by solve_arith. assert (b = b') by solve_arith.
    congruence.
  - bytes_of H1.
    destruct l2 as [|a' [|b' [|c' r']]]; try discriminate; bytes_of H2;
      cbn [urlsafe_b64encode] in He; injection He; clear He; intros;
      try padding_clash.
    destruct (group_inj a b c a' b' c') as (-> & -> & ->);
      unfold is_byte; try assumption.
    f_equal. f_equal. f_equal. apply IH; assumption.
Qed.

Lemma b64_ascii l :
  Forall is_byte l -> Forall (fun c => 0 <= c < 128) (urlsafe_b64encode l).
Proof.
  induction l as [|a|a b|a b c r IH] using list_ind3; intros H;
    bytes_of H; cbn [urlsafe_b64encode];
    repeat (apply List.Forall_cons;
            [first [lia | apply b64char_range; sextet]|]);
    [constructor | constructor | constructor | apply IH; assumption].
Qed.

(** Two octets over a multiple of three: one padding character, after a
    character that is not the padding character. *)
Lemma b64_one_pad l : forall k,
  Forall is_byte l -> length l = (3 * k + 2)%nat ->
  exists body x, urlsafe_b64encode l = body ++ [x; 61] /\ x <> 61.
Proof.
  induction l as [|a|a b|a b c r IH] using list_ind3; intros k H Hlen;
    simpl in Hlen; try lia.
  - bytes_of H. cbn [urlsafe_b64encode].
    exists [b64char (a / 4); b64char ((a mod 4) * 16 + b / 16)],
           (b64char ((b mod 16) * 4)).
    split; [reflexivity | apply b64char_range; sextet].
  - bytes_of H. destruct k as [|k]; [lia|].
    destruct (IH k H) as (body & x & He & Hx); [lia|].
    cbn [urlsafe_b64encode]. rewrite He.
    exists (b64char (a / 4) :: b64char ((a mod 4) * 16 + b / 16)
            :: b64char ((b mod 16) * 4 + c / 64) :: b64char (c mod 64) :: body), x.
    split; [reflexivity | exact Hx].
Qed.

Lemma rstrip_char_snoc c x body :
  x <> c -> rstrip_char c (body ++ [x; c]) = body ++ [x].
Proof.
  intros Hx. unfold rstrip_char. rewrite rev_app_distr. cbn [rev app lstrip_char].
  rewrite Z.eqb_refl. destruct (Z.eqb_spec x c); [contradiction|].
  cbn [rev]. rewrite rev_involutive. reflexivity.
Qed.

(** The key of an encodable string: the encoded digest less its one
    padding character. *)
Lemma hashstr_spec s b :
  utf8_encode s = Some b ->
  exists key, hashstr s = Ret key
              /\ urlsafe_b64encode (SHA256.digest b) = key ++ [61].
Proof.
  intros Hb. unfold hashstr. rewrite Hb.
  rewrite (utf8_decode_ascii _ (b64_ascii _ (digest_bytes b))).
  destruct (b64_one_pad (SHA256.digest b) 10 (digest_bytes b))
    as (body & x & He & Hx); [rewrite digest_length; reflexivity|].
  rewrite He, (rstrip_char_snoc 61 x body Hx).
  exists (body ++ [x]). split; [reflexivity|].
  rewrite <- app_assoc. reflexivity.
Qed.

Lemma hashstr_digest s1 s2 b1 b2 :
  utf8_encode s1 = Some b1 -> utf8_encode s2 = Some b2 ->
  hashstr s1 = hashstr s2 -> SHA256.digest b1 = SHA256.digest b2.
Proof.
  intros H1 H2 He.
  destruct (hashstr_spec s1 b1 H1) as (k1 & Hk1 & He1).
  destruct (hashstr_spec s2 b2 H2) as (k2 & Hk2 & He2).
  assert (k1 = k2) by congruence. subst k2.
  apply b64_inj; [apply digest_bytes | apply digest_bytes | congruence].
Qed.

(** A separator that the first field does not hold splits uniquely. *)
Lemma joined_inj (sep : Z) (t1 s1 t2 s2 : pystr) :
  ~ In sep t1 -> ~ In sep t2 ->
  t1 ++ sep :: s1 = t2 ++ sep :: s2 -> t1 = t2 /\ s1 = s2.
Proof.
  revert t2. induction t1 as [|c t1 IH]; intros t2 H1 H2 He.
  - destruct t2 as [|d t2]; simpl in He.
    + injection He as ->. split; reflexivity.
    + injection He as -> _. exfalso. apply H2. now left.
  - destruct t2 as [|d t2]; simpl in He.
    + injection He as -> _. exfalso. apply H1. now left.
    + injection He as -> He.
      destruct (IH t2) as [-> ->]; try assumption.
      * intros Hin. apply H1. now right.
      * intros Hin. apply H2. now right.
      * split; reflexivity.
Qed.

(** C2, as amended.  The key is a function of the pair, so equal pairs
    have equal keys.  For template names that hold no [|], and barring a
    SHA-256 collision between the two joined strings, equal keys come only
    from equal pairs. *)
Theorem C2_key_injective (t1 s1 t2 s2 : pystr) (b1 b2 : pybytes) :
  ~ In 124 t1 -> ~ In 124 t2 ->
  utf8_encode (t1 ++ lit "|" ++ s1) = Some b1 ->
  utf8_encode (t2 ++ lit "|" ++ s2) = Some b2 ->
  ~ collide b1 b2 ->
  (artifact_key t1 s1 = artifact_key t2 s2 <-> t1 = t2 /\ s1 = s2).
Proof.
  intros Ht1 Ht2 H1 H2 Hnc. split.
  - intros Hk. unfold artifact_key in Hk.
    pose proof (hashstr_digest _ _ b1 b2 H1 H2 Hk) as Hd.
    assert (Hb : b1 = b2).
    { destruct (decide (b1 = b2)) as [Heq|Hne]; [exact Heq|].
      exfalso. apply Hnc. split; assumption. }
    subst b2. pose proof (utf8_encode_inj _ _ b1 H1 H2) as Hj.
    apply (joined_inj 124 t1 s1 t2 s2 Ht1 Ht2 Hj).
  - intros [-> ->]. reflexivity.
Qed.

Lemma C2_key_injective_witness :
  artifact_key (lit "greet") (lit "Hello/World")
  = artifact_key (lit "greet") (lit "Hello/Xorld")
  <-> lit "greet" = lit "greet" /\ lit "Hello/World" = lit "Hello/Xorld".
Proof.
  apply (C2_key_injective (lit "greet") (lit "Hello/World")
           (lit "greet") (lit "Hello/Xorld")
           (lit "greet|Hello/World") (lit "greet|Hello/Xorld")).
  - vm_compute. intuition discriminate.
  - vm_compute. intuition discriminate.
  - vm_compute. reflexivity.
  - vm_compute. reflexivity.
  - intros [_ Hd]. vm_compute in Hd. discriminate Hd.
Defined.

(** The claim as stated: keys are equal only for equal pairs, hash
    collisions apart.  The pairs ([a|b], [c]) and ([a], [b|c]) differ and
    are joined to the same string, hence to the same key, without any
    collision. *)
Lemma C2_counterexample :
  ~ (forall t1 s1 t2 s2 b1 b2,
       utf8_encode (t1 ++ lit "|" ++ s1) = Some b1 ->
       utf8_encode (t2 ++ lit "|" ++ s2) = Some b2 ->
       ~ collide b1 b2 ->
       (artifact_key t1 s1 = artifact_key t2 s2 <-> t1 = t2 /\ s1 = s2)).
Proof.
  intros H.
  destruct (H (lit "a|b") (lit "c") (lit "a") (lit "b|c")
              (lit "a|b|c") (lit "a|b|c")) as [Hk _].
  - reflexivity.
  - reflexivity.
  - intros [Hne _]. apply Hne. reflexivity.
  - destruct Hk as [Ht _]; [reflexivity | discriminate Ht].
Qed.

(** * Further properties of the code *)

(** ** Keys and artifact paths *)

Lemma b64char_urlsafe i : 0 <= i < 64 -> urlsafe (b64char i) = true.
Proof.
  intros Hi. unfold b64char, urlsafe.
  destruct (Z.ltb_spec i 26); [|destruct (Z.ltb_spec i 52);
    [|destruct (Z.ltb_spec i 62); [|destruct (Z.eqb_spec i 62)]]];
    repeat match goal with
           | |- context [?a <=? ?b] => destruct (Z.leb_spec a b); try lia
           | |- context [?a =? ?b] => destruct (Z.eqb_spec a b); try lia
           end; reflexivity.
Qed.

(** The encoding of [3 k + 2] octets: [4 k + 3] characters of the
    alphabet and one padding character. *)
Lemma b64_body l : forall k,
  Forall is_byte l -> length l = (3 * k + 2)%nat ->
  exists body, urlsafe_b64encode l = body ++ [61]
               /\ length body = (4 * k + 3)%nat
               /\ forallb urlsafe body = true.
Proof.
  induction l as [|a|a b|a b c r IH] using list_ind3; intros k H Hlen;
    simpl in Hlen; try lia.
  - bytes_of H. cbn [urlsafe_b64encode].
    exists [b64char (a / 4); b64char ((a mod 4) * 16 + b / 16);
            b64char ((b mod 16) * 4)].
    split; [reflexivity|]. split; [simpl; lia|].
    cbn [forallb]. rewrite !b64char_urlsafe by sextet. reflexivity.
  - bytes_of H. destruct k as [|k]; [lia|].
    destruct (IH k H) as (body & He & Hl & Hu); [lia|].
    cbn [urlsafe_b64encode]. rewrite He.
    exists (b64char (a / 4) :: b64char ((a mod 4) * 16 + b / 16)
            :: b64char ((b mod 16) * 4 + c / 64) :: b64char (c mod 64) :: body).
    split; [reflexivity|]. split; [simpl; lia|].
    cbn [forallb]. rewrite !b64char_urlsafe by sextet. exact Hu.
Qed.

Lemma hashstr_shape s b :
  utf8_encode s = Some b ->
  exists key, hashstr s = Ret key /\ length key = 43%nat
              /\ forallb urlsafe key = true.
Proof.
  intros Hb. destruct (hashstr_spec s b Hb) as (key & Hk & He).
  destruct (b64_body (SHA256.digest b) 10 (digest_bytes b))
    as (body & He' & Hl & Hu); [rewrite digest_length; reflexivity|].
  rewrite He in He'. apply app_inj_tail in He'. destruct He' as [-> _].
  exists body. repeat split; assumption.
Qed.

Lemma encode_cp_scalar c : is_scalar c = true <-> exists b, encode_cp c = Some b.
Proof.
  unfold is_scalar, encode_cp.
  destruct (Z.leb_spec 0 c); destruct (Z.ltb_spec c 0); try lia;
    destruct (Z.ltb_spec c 1114112); destruct (Z.ltb_spec c 128);
    destruct (Z.ltb_spec c 2048); destruct (Z.ltb_spec c 65536); try lia;
    destruct (Z.leb_spec 55296 c); destruct (Z.leb_spec c 57343); try lia;
    cbn [andb negb]; split; try discriminate; try (intros [b Hb]; discriminate);
    try (intros _; eexists; reflexivity); try reflexivity.
Qed.

Lemma utf8_encode_scalar s :
  forallb is_scalar s = true <-> exists b, utf8_encode s = Some b.
Proof.
  induction s as [|c s IH]; cbn [forallb utf8_encode].
  - split; [intros _; exists []; reflexivity | reflexivity].
  - rewrite andb_true_iff, IH, encode_cp_scalar. split.
    + intros [[bc ->] [bs ->]]. eexists. reflexivity.
    + intros [b Hb]. destruct (encode_cp c) as [bc|]; [|discriminate].
      destruct (utf8_encode s) as [bs|]; [|discriminate].
      split; eexists; reflexivity.
Qed.

(** X1.  For a text without surrogates [hashstr] returns a key of 43
    characters, all of them letters, digits, [-] or [_]. *)
Theorem hashstr_key_shape (s : pystr) :
  forallb is_scalar s = true ->
  exists key, hashstr s = Ret key /\ length key = 43%nat
              /\ forallb urlsafe key = true.
Proof.
  intros H. apply utf8_encode_scalar in H. destruct H as [b Hb].
  exact (hashstr_shape s b Hb).
Qed.

Lemma hashstr_key_shape_witness :
  exists key, hashstr (lit "greet|Hello/World") = Ret key
              /\ length key = 43%nat /\ forallb urlsafe key = true.
Proof. apply hashstr_key_shape. vm_compute. reflexivity. Defined.

(** X2.  [hashstr] raises only for a text that holds a code point
    UTF-8 cannot carry (a lone surrogate), and then it raises
    [UnicodeEncodeError]. *)
Theorem hashstr_raises_iff (s : pystr) (e : exn) :
  hashstr s = Raise e <->
  e = UnicodeEncodeError /\ forallb is_scalar s = false.
Proof.
  split.
  - intros H. destruct (forallb is_scalar s) eqn:Hs.
    + apply utf8_encode_scalar in Hs. destruct Hs as [b Hb].
      destruct (hashstr_shape s b Hb) as (key & Hk & _). congruence.
    + unfold hashstr in H. destruct (utf8_encode s) as [b|] eqn:Hb.
      * assert (forallb is_scalar s = true)
          by (apply utf8_encode_scalar; exists b; exact Hb). congruence.
      * injection H as <-. split; reflexivity.
  - intros [-> Hs]. unfold hashstr.
    destruct (utf8_encode s) as [b|] eqn:Hb; [|reflexivity].
    assert (forallb is_scalar s = true)
      by (apply utf8_encode_scalar; exists b; exact Hb). congruence.
Qed.

Lemma hashstr_raises_iff_witness :
  hashstr (lit "greet|" ++ [55357]) = Raise UnicodeEncodeError.
Proof.
  apply (proj2 (hashstr_raises_iff (lit "greet|" ++ [55357]) UnicodeEncodeError)).
  split; reflexivity.
Defined.

Lemma urlsafe_not c : urlsafe c = true -> c <> 47 /\ c <> 46.
Proof.
  unfold urlsafe. intros H. split; intros ->; discriminate H.
Qed.

(** X3.  The artifact of a key that [hashstr] made lies directly in
    the image directory: its path is the directory, a slash unless the
    directory is empty or ends with one, the key and [.jpg]; the key holds
    neither a slash nor a dot, whatever the template name and the text
    are. *)
Theorem artifact_path_in_images (E : env) (template text fileid : pystr) :
  artifact_key template text = Ret fileid ->
  artifact_path E fileid = dir_prefix (cfg_images E) ++ fileid ++ lit ".jpg"
  /\ ~ In 47 fileid /\ ~ In 46 fileid.
Proof.
  intros Hk. unfold artifact_key in Hk.
  assert (Hshape : length fileid = 43%nat /\ forallb urlsafe fileid = true).
  { unfold hashstr in Hk.
    destruct (utf8_encode (template ++ lit "|" ++ text)) as [b|] eqn:Hb;
      [|discriminate].
    destruct (hashstr_shape _ b Hb) as (key & Hk' & Hl & Hu).
    unfold hashstr in Hk'. rewrite Hb in Hk'. rewrite Hk' in Hk.
    injection Hk as <-. split; assumption. }
  destruct Hshape as [Hl Hu].
  assert (Hno : forall c, In c fileid -> c <> 47 /\ c <> 46).
  { intros c Hin. apply urlsafe_not.
    rewrite forallb_forall in Hu. apply Hu. exact Hin. }
  split; [|split; intros Hin; apply Hno in Hin; lia].
  unfold artifact_path, os_path_join, dir_prefix.
  destruct fileid as [|c r]; [discriminate|].
  assert (Hc : c <> 47) by (apply Hno; now left).
  cbn [app].
  assert (Hgoal : match rev (cfg_images E) with
                  | [] => c :: r ++ lit ".jpg"
                  | 47 :: _ => cfg_images E ++ c :: r ++ lit ".jpg"
                  | _ => cfg_images E ++ 47 :: c :: r ++ lit ".jpg"
                  end
                  = match rev (cfg_images E) with
                    | [] => []
                    | 47 :: _ => cfg_images E
                    | _ => cfg_images E ++ [47]
                    end ++ c :: r ++ lit ".jpg").
  { destruct (rev (cfg_images E)) as [|d l]; [reflexivity|].
    assert (H47 : cfg_images E ++ 47 :: c :: r ++ lit ".jpg"
                  = (cfg_images E ++ [47]) ++ c :: r ++ lit ".jpg")
      by (rewrite <- app_assoc; reflexivity).
    destruct d as [|p|p]; try exact H47.
    repeat (destruct p as [p|p|]; try exact H47). reflexivity. }
  destruct c as [|p|p]; try exact Hgoal.
  repeat (destruct p as [p|p|]; try exact Hgoal). congruence.
Qed.

Lemma artifact_path_in_images_witness :
  artifact_path E_ok greet_id = lit "img/" ++ greet_id ++ lit ".jpg"
  /\ ~ In 47 greet_id /\ ~ In 46 greet_id.
Proof.
  apply (artifact_path_in_images E_ok (lit "greet") (lit "Hello/World")).
  vm_compute. reflexivity.
Defined.

Lemma read_chunks_all fuel : forall rest acc,
  (length rest < fuel)%nat -> read_chunks fuel rest acc = acc ++ rest.
Proof.
  induction fuel as [|fuel IH]; intros rest acc Hf; [lia|].
  cbn [read_chunks].
  destruct (firstn 4096 rest) as [|c chunk] eqn:Hc.
  - destruct rest; [rewrite app_nil_r; reflexivity | discriminate].
  - rewrite IH.
    + rewrite <- app_assoc, <- Hc, firstn_skipn. reflexivity.
    + rewrite length_skipn. destruct rest; [discriminate | simpl in *; lia].
Qed.

(** X4.  [hashfile] does not depend on the chunks it reads: for a file
    that holds the UTF-8 encoding of a string it returns what [hashstr]
    returns for the string, and leaves the world alone; a missing file
    raises [FileNotFoundError]. *)
Theorem hashfile_hashstr (filename s : pystr) (b : pybytes) (w : world) :
  utf8_encode s = Some b ->
  (fs w !! filename = Some (File b) -> hashfile filename w = (hashstr s, w))
  /\ (fs w !! filename = None ->
      hashfile filename w = (Raise FileNotFoundError, w)).
Proof.
  intros Hb. split; intros Hf; unfold hashfile; rewrite Hf; [|reflexivity].
  rewrite read_chunks_all by lia. cbn [app].
  unfold hashstr. rewrite Hb.
  destruct (utf8_decode (urlsafe_b64encode (SHA256.digest b))); reflexivity.
Qed.

Lemma hashfile_hashstr_witness :
  hashfile (lit "tpl/greet.svg") sample_world
  = (hashstr (lit "{0}-{1}"), sample_world).
Proof.
  apply (proj1 (hashfile_hashstr (lit "tpl/greet.svg") (lit "{0}-{1}")
                  (lit "{0}-{1}") sample_world eq_refl)).
  reflexivity.
Defined.

(** ** What a rendering leaves behind *)

Lemma svg_not_png (x y : pystr) : x ++ lit ".svg" <> y ++ lit ".png".
Proof.
  intros H. apply (f_equal (@rev Z)) in H.
  rewrite !rev_app_distr in H. simpl in H. discriminate H.
Qed.



(** X6.  The intermediate raster file.  Once the second stage has run,
    the file is removed, whatever the status of the second stage; if a
    directory has its name, the call raises [IsADirectoryError] instead.
    When the first stage ends with a status other than zero, its export
    path is left as the first stage left it. *)
Theorem intermediate_raster_file (E : env) (tf out : pystr) (args : list pystr)
    (w : world) (doc tmp : pystr) (w2 : world) (rc : Z) (o1 : pybytes)
    (w3 : world) :
  prepared E tf out args w doc tmp w2 ->
  communicate E (inkscape_argv out tmp) w2 = (Ret (rc, o1), w3) ->
  (rc <> 0 ->
   fs (snd (generate_image E tf out args w)) !! (out ++ lit ".png")
   = fs w3 !! (out ++ lit ".png"))
  /\ (forall rc2 o2 w4,
        rc = 0 ->
        communicate E (convert_argv out) w3 = (Ret (rc2, o2), w4) ->
        (fs w4 !! (out ++ lit ".png") <> Some Dir ->
         fs (snd (generate_image E tf out args w)) !! (out ++ lit ".png") = None)
        /\ (fs w4 !! (out ++ lit ".png") = Some Dir ->
            fst (generate_image E tf out args w) = Raise IsADirectoryError)).
Proof.
  intros (w0 & w1 & He & Ht & Hw) Hc1.
  assert (Hne : out ++ lit ".png" <> tmp).
  { apply tmpfile_inv in Ht. destruct Ht as (base & -> & _).
    intros Heq. symmetry in Heq. exact (svg_not_png base out Heq). }
  split.
  - intros Hrc. rewrite generate_image_eq, He, Ht, Hw, Hc1.
    apply Z.eqb_neq in Hrc. rewrite Hrc. cbn [negb].
    destruct (utf8_decode o1); cbn [snd]; rewrite close_tmp_at by exact Hne;
      reflexivity.
  - intros rc2 o2 w4 -> Hc2. split.
    + intros Hnd. rewrite generate_image_eq, He, Ht, Hw, Hc1.
      cbn [negb Z.eqb]. cbv iota. rewrite Hc2. unfold unlink_quiet.
      destruct (fs w4 !! (out ++ lit ".png")) as [[c|]|] eqn:Hp;
        [| congruence |].
      * destruct (negb (rc2 =? 0)); [destruct (utf8_decode o2)|];
          cbn [snd]; rewrite close_tmp_at by exact Hne; simpl;
          apply lookup_delete_eq.
      * destruct (negb (rc2 =? 0)); [destruct (utf8_decode o2)|];
          cbn [snd]; rewrite close_tmp_at by exact Hne; simpl; exact Hp.
    + intros Hd. rewrite generate_image_eq, He, Ht, Hw, Hc1.
      cbn [negb Z.eqb]. cbv iota. rewrite Hc2. unfold unlink_quiet.
      rewrite Hd. reflexivity.
Qed.

Lemma sample_prepared :
  prepared E_ok (lit "tpl/blank.svg") (lit "img/a.jpg")
    (render_args (lit "Hello/World")) sample_world []
    (lit "/tmp/tmpk3x9.svg") blank_written.
Proof.
  eexists _, _. split; [reflexivity|]. split; [reflexivity|].
  apply pair_eq_intro. reflexivity.
Qed.

Lemma intermediate_raster_file_witness :
  fs (snd (generate_image E_ok (lit "tpl/blank.svg") (lit "img/a.jpg")
             (render_args (lit "Hello/World")) sample_world))
  !! (lit "img/a.jpg" ++ lit ".png") = None.
Proof.
  destruct (intermediate_raster_file E_ok (lit "tpl/blank.svg") (lit "img/a.jpg")
              (render_args (lit "Hello/World")) sample_world []
              (lit "/tmp/tmpk3x9.svg") blank_written 0 [] blank_exported
              sample_prepared) as [_ Hdone].
  { apply pair_eq_intro. vm_compute. reflexivity. }
  destruct (Hdone 0 [] blank_converted eq_refl) as [Hgone _].
  { apply pair_eq_intro. vm_compute. reflexivity. }
  apply Hgone. vm_compute. discriminate.
Defined.

(** ** The cost of a pass *)

Lemma communicate_procs E argv w :
  exists new, procs (snd (communicate E argv w)) = procs w ++ new
              /\ (spawned new <= 1)%nat.
Proof.
  unfold communicate. destruct (popen E w argv).
  - exists []. rewrite app_nil_r. split; [reflexivity | cbv; lia].
  - exists [Spawned argv]. split; [reflexivity | cbv; lia].
  - exists [Spawned argv; Killed argv]. split; [reflexivity | cbv; lia].
Qed.

Lemma spawned_app l1 l2 : spawned (l1 ++ l2) = (spawned l1 + spawned l2)%nat.
Proof. unfold spawned. rewrite List.filter_app, length_app. reflexivity. Qed.

Lemma write_procs E tmp doc w : procs (snd (write E tmp doc w)) = procs w.
Proof. unfold write. destruct (locale_encode E doc); reflexivity. Qed.

Lemma tmpfile_procs E w : procs (snd (NamedTemporaryFile E w)) = procs w.
Proof.
  unfold NamedTemporaryFile. destruct (mktemp E w) as [base|]; [|reflexivity].
  destruct (fs w !! (base ++ lit ".svg")); reflexivity.
Qed.

Lemma unlink_procs path w : procs (snd (unlink_quiet path w)) = procs w.
Proof.
  unfold unlink_quiet. destruct (fs w !! path) as [[c|]|]; reflexivity.
Qed.

(** One call starts at most two processes. *)
Lemma generate_image_procs E tf out args w :
  exists new, procs (snd (generate_image E tf out args w)) = procs w ++ new
              /\ (spawned new <= 2)%nat.
Proof.
  rewrite generate_image_eq.
  pose proof (expand_template_world E tf args (add_call (tf, out, args) w)) as Hw0.
  destruct (expand_template E tf args (add_call (tf, out, args) w))
    as [[doc|e] w0]; simpl in Hw0; subst w0.
  2:{ exists []. rewrite app_nil_r. split; [reflexivity | cbv; lia]. }
  pose proof (tmpfile_procs E (add_call (tf, out, args) w)) as H1.
  destruct (NamedTemporaryFile E (add_call (tf, out, args) w))
    as [[tmp|e] w1]; simpl in H1.
  2:{ exists []. rewrite app_nil_r. split; [exact H1 | cbv; lia]. }
  pose proof (write_procs E tmp doc w1) as H2.
  destruct (write E tmp doc w1) as [[[]|e] w2]; simpl in H2.
  2:{ exists []. rewrite app_nil_r. simpl. split; [congruence | cbv; lia]. }
  destruct (communicate_procs E (inkscape_argv out tmp) w2) as (n1 & H3 & Hn1).
  destruct (communicate E (inkscape_argv out tmp) w2) as [[[rc o1]|e] w3];
    simpl in H3.
  2:{ exists n1. simpl. split; [congruence | lia]. }
  destruct (negb (rc =? 0)).
  { exists n1. destruct (utf8_decode o1); simpl; split; try congruence; lia. }
  destruct (communicate_procs E (convert_argv out) w3) as (n2 & H4 & Hn2).
  destruct (communicate E (convert_argv out) w3) as [[[rc2 o2]|e] w4];
    simpl in H4.
  2:{ exists (n1 ++ n2). rewrite spawned_app, app_assoc. simpl.
      split; [congruence | lia]. }
  pose proof (unlink_procs (out ++ lit ".png") w4) as H5.
  destruct (unlink_quiet (out ++ lit ".png") w4) as [[[]|e] w5]; simpl in H5.
  2:{ exists (n1 ++ n2). rewrite spawned_app, app_assoc. simpl.
      split; [congruence | lia]. }
  exists (n1 ++ n2). rewrite spawned_app, app_assoc.
  destruct (negb (rc2 =? 0)); [destruct (utf8_decode o2)|]; simpl;
    split; try congruence; lia.
Qed.

Lemma render_one_cost E text acc entry w :
  exists nc np,
    calls (snd (render_one E text acc entry w)) = calls w ++ nc
    /\ procs (snd (render_one E text acc entry w)) = procs w ++ np
    /\ (length nc <= 1)%nat /\ (spawned np <= 2 * length nc)%nat.
Proof.
  destruct entry as [t tf]. rewrite render_one_eq.
  assert (Hnone : exists nc np : list _,
             calls w = calls w ++ nc /\ procs w = procs w ++ np
             /\ (length nc <= 1)%nat /\ (spawned np <= 2 * length nc)%nat).
  { exists [], []. rewrite !app_nil_r. repeat split; cbv; lia. }
  destruct (artifact_key t text) as [id|e]; [|exact Hnone].
  destruct (isfile (fs w) (artifact_path E id)); [exact Hnone|].
  destruct (generate_image_frame E tf (artifact_path E id) (render_args text) w)
    as (Hc & _).
  destruct (generate_image_procs E tf (artifact_path E id) (render_args text) w)
    as (np & Hp & Hn).
  exists [(tf, artifact_path E id, render_args text)], np.
  destruct (generate_image E tf (artifact_path E id) (render_args text) w)
    as [[[|]|e] w1]; simpl in *; repeat split; try assumption; lia.
Qed.

Lemma render_loop_cost E text reg : forall acc w,
  exists nc np,
    calls (snd (render_loop E text reg acc w)) = calls w ++ nc
    /\ procs (snd (render_loop E text reg acc w)) = procs w ++ np
    /\ (length nc <= length reg)%nat /\ (spawned np <= 2 * length nc)%nat.
Proof.
  induction reg as [|entry reg IH]; intros acc w.
  - exists [], []. simpl. rewrite !app_nil_r. repeat split; cbv; lia.
  - rewrite render_loop_cons.
    destruct (render_one_cost E text acc entry w) as (nc & np & Hc & Hp & Hl & Hs).
    destruct (render_one E text acc entry w) as [[acc'|e] w1]; simpl in Hc, Hp.
    + destruct (IH acc' w1) as (nc' & np' & Hc' & Hp' & Hl' & Hs').
      exists (nc ++ nc'), (np ++ np').
      rewrite Hc', Hp', Hc, Hp, !app_assoc, spawned_app, length_app.
      repeat split; simpl; lia.
    + exists nc, np. simpl. repeat split; try assumption. lia.
Qed.

(** X7.  A call of [render_images], whether it returns or raises, calls
    [generate_image] at most once per registered template and starts at
    most two processes per such call. *)
Theorem render_images_cost (E : env) (text : pystr) (reg : registry) (w : world) :
  template_cache w = Some reg ->
  exists nc np,
    calls (snd (render_images E text w)) = calls w ++ nc
    /\ procs (snd (render_images E text w)) = procs w ++ np
    /\ (length nc <= length reg)%nat
    /\ (spawned np <= 2 * length nc)%nat.
Proof.
  intros Hc. rewrite (render_images_eq E text w reg Hc). apply render_loop_cost.
Qed.

Lemma render_images_cost_witness :
  exists nc np,
    calls (snd (render_images E_ok (lit "Hello/World") cached_world)) = nc
    /\ procs (snd (render_images E_ok (lit "Hello/World") cached_world)) = np
    /\ (length nc <= 3)%nat /\ (spawned np <= 2 * length nc)%nat.
Proof.
  destruct (render_images_cost E_ok (lit "Hello/World") sample_registry
              cached_world eq_refl) as (nc & np & Hc & Hp & Hl & Hs).
  exists nc, np. repeat split; assumption.
Defined.

Lemma render_loop_app E text pre post : forall acc w,
  render_loop E text (pre ++ post) acc w
  = match render_loop E text pre acc w with
    | (Ret acc', w1) => render_loop E text post acc' w1
    | (Raise e, w1) => (Raise e, w1)
    end.
Proof.
  induction pre as [|entry pre IH]; intros acc w; [reflexivity|].
  rewrite <- app_comm_cons, !render_loop_cons.
  destruct (render_one E text acc entry w) as [[acc'|e] w1]; [apply IH|reflexivity].
Qed.

(** X8.  An exception is not isolated like a failure: when the
    rendering of one template raises, [render_images] raises the same
    exception, the identifiers gathered from the templates before it are
    lost, and the world is the one the raising call left (the templates
    after it are not tried). *)
Theorem render_images_exception_aborts (E : env) (text : pystr)
    (pre post : registry) (template templatefile : pystr) (w w1 w2 : world)
    (acc : list pystr) (fileid : pystr) (e : exn) :
  template_cache w = Some (pre ++ (template, templatefile) :: post) ->
  render_loop E text pre [] w = (Ret acc, w1) ->
  artifact_key template text = Ret fileid ->
  isfile (fs w1) (artifact_path E fileid) = false ->
  generate_image E templatefile (artifact_path E fileid) (render_args text) w1
  = (Raise e, w2) ->
  render_images E text w = (Raise e, w2).
Proof.
  intros Hc Hpre Hk Hf Hg.
  rewrite (render_images_eq E text w _ Hc), render_loop_app, Hpre,
    render_loop_cons, render_one_eq, Hk, Hf, Hg.
  reflexivity.
Qed.

Lemma render_images_exception_aborts_witness :
  fst (render_images E_ok (lit "Hello/World") broken_world) = Raise IndexError.
Proof.
  rewrite (render_images_exception_aborts E_ok (lit "Hello/World")
             [(lit "greet", lit "tpl/greet.svg")]
             [(lit "bold", lit "tpl/bold.svg")]
             (lit "bad") (lit "tpl/bad.svg") broken_world after_greet
             (snd (generate_image E_ok (lit "tpl/bad.svg")
                     (artifact_path E_ok bad_id)
                     (render_args (lit "Hello/World")) after_greet))
             [greet_id] bad_id IndexError).
  - reflexivity.
  - reflexivity.
  - apply pair_eq_intro. vm_compute. reflexivity.
  - vm_compute. reflexivity.
  - vm_compute. reflexivity.
  - apply pair_eq_intro. vm_compute. reflexivity.
Defined.

(** ** Requests *)

(** X9.  A reply that parses decides the call at once: when the Bot API
    answers the first request with [ok] false, [bot_api] raises
    [BotAPIFailed] after that one request, without a wait and without a
    second attempt; with [ok] true it returns the result. *)
Theorem bot_api_first_reply (E : env) (method : pystr) (p : params) (w : world)
    (b : Z) (body : pybytes) (s : pystr) (v : json_value) (ok : bool) :
  http_post E w (api_url E method) p = PostContent (b :: body) ->
  utf8_decode (b :: body) = Some s ->
  json_loads E s = Ret v ->
  get_ok v = Ret ok ->
  bot_api E method p w
  = (if ok then get_result v else Raise BotAPIFailed,
     add_post (api_url E method, p) w).
Proof.
  intros Hp Hd Hj Hok. unfold bot_api, bind. cbn [bot_api_loop].
  unfold attempt. rewrite Hp, Hd, Hj. unfold lift, raise. rewrite Hok.
  destruct ok; reflexivity.
Qed.

Lemma bot_api_first_reply_witness :
  bot_api E_ok (lit "sendMessage") [] empty_world
  = (Ret (lit "{}"),
     add_post (api_url E_ok (lit "sendMessage"), []) empty_world).
Proof.
  apply (bot_api_first_reply E_ok (lit "sendMessage") [] empty_world
           123 [125] (lit "{}") (Json (Ret true) (Ret (lit "{}")) (lit "{}")) true);
    reflexivity.
Defined.

(** X10.  When every request comes back with an empty body, [bot_api]
    posts three times without a wait and then raises [UnboundLocalError]:
    the loop ends with [ret] never bound. *)
Theorem bot_api_empty_bodies (E : env) (method : pystr) (p : params) (w : world) :
  (forall w', http_post E w' (api_url E method) p = PostContent []) ->
  bot_api E method p w
  = (Raise UnboundLocalError,
     add_post (api_url E method, p)
       (add_post (api_url E method, p) (add_post (api_url E method, p) w))).
Proof.
  intros Hp. unfold bot_api, bind. cbn [bot_api_loop]. unfold attempt.
  rewrite !Hp. reflexivity.
Qed.

Lemma bot_api_empty_bodies_witness :
  fst (bot_api (sample_env sample_popen (Raise OSError)
                  (fun _ => PostContent []))
         (lit "getUpdates") [] empty_world)
  = Raise UnboundLocalError.
Proof.
  rewrite bot_api_empty_bodies; reflexivity.
Defined.

Lemma sendmsg_body_requests E text chat_id reply_to kwargs w :
  strip text <> [] ->
  has_method_key kwargs = false ->
  exists n, (1 <= n <= 3)%nat /\
    posts (snd (sendmsg_body E text chat_id reply_to kwargs w))
    = posts w ++
      repeat (api_url E (lit "sendMessage"),
              [(lit "chat_id", PInt chat_id);
               (lit "text",
                PStr (if 2000 <? len (strip text)
                      then firstn 1999 (strip text) ++ [8230]
                      else strip text));
               (lit "reply_to_message_id",
                match reply_to with
                | Some r => if r <? 0 then PNone else PInt r
                | None => PNone
                end)] ++ kwargs) n.
Proof.
  intros Hne Hk. unfold sendmsg_body.
  destruct (strip text) as [|c r] eqn:Hs; [congruence|].
  unfold has_method_key in Hk. rewrite Hk.
  set (t := if 2000 <? len (c :: r) then _ else _).
  assert (Hrid : match match reply_to with
                       | Some r0 => if negb (r0 =? 0) && (r0 <? 0)
                                    then None else Some r0
                       | None => None
                       end
                 with Some r0 => PInt r0 | None => PNone end
                 = match reply_to with
                   | Some r0 => if r0 <? 0 then PNone else PInt r0
                   | None => PNone
                   end).
  { destruct reply_to as [r0|]; [|reflexivity].
    destruct (Z.eqb_spec r0 0); destruct (Z.ltb_spec r0 0); try reflexivity; lia. }
  rewrite Hrid.
  set (p := [_; _; _] ++ kwargs).
  destruct (bot_api_posts E (lit "sendMessage") p
              (add_log (BotapiDebug (len (c :: r)) (firstn 20 (c :: r))) w))
    as (n & Hn & Hq).
  exists n. split; [exact Hn|].
  unfold bind, modify at 1.
  destruct (bot_api E (lit "sendMessage") p _) as [[a|e] w1]; exact Hq.
Qed.

Lemma sendmsg_requests E text chat_id reply_to kwargs w :
  exists n, (n <= 3)%nat /\
    posts (snd (sendmsg E text chat_id reply_to kwargs w))
    = posts w ++
      repeat (api_url E (lit "sendMessage"),
              [(lit "chat_id", PInt chat_id);
               (lit "text",
                PStr (if 2000 <? len (strip text)
                      then firstn 1999 (strip text) ++ [8230]
                      else strip text));
               (lit "reply_to_message_id",
                match reply_to with
                | Some r => if r <? 0 then PNone else PInt r
                | None => PNone
                end)] ++ kwargs) n
    /\ (strip text <> [] -> has_method_key kwargs = false -> (1 <= n)%nat).
Proof.
  unfold sendmsg. rewrite async_func_posts.
  destruct (strip text) as [|c r] eqn:Hs.
  { exists 0%nat. unfold sendmsg_body. rewrite Hs. simpl. rewrite app_nil_r.
    repeat split; [lia | congruence]. }
  destruct (has_method_key kwargs) eqn:Hk.
  { exists 0%nat. unfold sendmsg_body. rewrite Hs.
    unfold has_method_key in Hk. rewrite Hk. simpl. rewrite app_nil_r.
    repeat split; [lia | congruence]. }
  destruct (sendmsg_body_requests E text chat_id reply_to kwargs w)
    as (n & Hn & Hq); [congruence | exact Hk |].
  rewrite Hs in Hq. exists n. split; [lia|]. split; [exact Hq | intros; lia].
Qed.

(** X11.  Every request of [sendmsg] carries the chat identifier it was
    given and a reply identifier that is never negative: a negative
    [reply_to_message_id] is replaced by [None], zero and positive ones
    pass; extra keyword arguments cannot take the place of either field. *)
Theorem sendmsg_reply_id (E : env) (text : pystr) (chat_id : Z)
    (reply_to : option Z) (kwargs : params) (w : world) :
  exists new,
    posts (snd (sendmsg E text chat_id reply_to kwargs w)) = posts w ++ new
    /\ Forall (fun rq =>
                 param_get (lit "chat_id") (snd rq) = Some (PInt chat_id)
                 /\ param_get (lit "reply_to_message_id") (snd rq)
                    = Some (match reply_to with
                            | Some r => if r <? 0 then PNone else PInt r
                            | None => PNone
                            end)) new.
Proof.
  destruct (sendmsg_requests E text chat_id reply_to kwargs w)
    as (n & _ & Hq & _).
  eexists. split; [exact Hq|].
  apply List.Forall_forall. intros rq Hin. apply repeat_spec in Hin. subst rq.
  split; reflexivity.
Qed.

(** ** Commands *)

Lemma lstrip_spec s :
  exists ws, s = ws ++ lstrip s /\ forallb isspace ws = true.
Proof.
  induction s as [|c r (ws & Hr & Hw)]; [exists []; split; reflexivity|].
  simpl. destruct (isspace c) eqn:Hc.
  - exists (c :: ws). simpl. rewrite Hc, Hw. split; [congruence | reflexivity].
  - exists []. split; reflexivity.
Qed.

Lemma lstrip_fix c r : isspace c = false -> lstrip (c :: r) = c :: r.
Proof. intros H. simpl. rewrite H. reflexivity. Qed.

Lemma lstrip_lstrip s : lstrip (lstrip s) = lstrip s.
Proof.
  destruct (lstrip s) as [|c r] eqn:Hl; [reflexivity|].
  apply lstrip_fix. exact (lstrip_head s c r Hl).
Qed.

Lemma rstrip_spec s :
  exists ws, s = rstrip s ++ ws /\ forallb isspace ws = true.
Proof.
  destruct (lstrip_spec (rev s)) as (ws & Hr & Hw).
  exists (rev ws). unfold rstrip. split.
  - rewrite <- rev_app_distr, <- Hr, rev_involutive. reflexivity.
  - rewrite forallb_rev. exact Hw.
Qed.

Lemma rstrip_rstrip s : rstrip (rstrip s) = rstrip s.
Proof. unfold rstrip. rewrite rev_involutive, lstrip_lstrip. reflexivity. Qed.

Lemma strip_head s c r : strip s = c :: r -> isspace c = false.
Proof.
  unfold strip. intros H.
  destruct (rstrip_spec (lstrip s)) as (ws & Hs & _). rewrite H in Hs.
  simpl in Hs. exact (lstrip_head s c _ Hs).
Qed.

Lemma strip_strip s : strip (strip s) = strip s.
Proof.
  destruct (strip s) as [|c r] eqn:Hs; [reflexivity|].
  unfold strip at 1. rewrite (lstrip_fix c r (strip_head s c r Hs)).
  rewrite <- Hs. unfold strip. apply rstrip_rstrip.
Qed.

Lemma rstrip_fix s c : isspace c = false -> rstrip (s ++ [c]) = s ++ [c].
Proof.
  intros H. unfold rstrip. rewrite rev_app_distr.
  change (rev [c] ++ rev s) with (c :: rev s).
  rewrite (lstrip_fix c (rev s) H).
  change (rev (c :: rev s)) with (rev (rev s) ++ [c]).
  rewrite rev_involutive. reflexivity.
Qed.

(** The last character of a stripped text is no white space. *)
Lemma strip_last s : strip s = s -> s <> [] ->
  exists r c, s = r ++ [c] /\ isspace c = false.
Proof.
  intros Hs Hne. unfold strip, rstrip in Hs.
  destruct (lstrip (rev (lstrip s))) as [|c r] eqn:Hl.
  - simpl in Hs. congruence.
  - exists (rev r), c. split; [rewrite <- Hs; reflexivity|].
    exact (lstrip_head _ c r Hl).
Qed.

Lemma split1_no_sep sep s : ~ In sep s -> split1 sep s = [s].
Proof.
  induction s as [|c r IH]; [reflexivity|]. intros Hn. simpl.
  destruct (Z.eqb_spec c sep) as [->|_]; [exfalso; apply Hn; now left|].
  rewrite IH by (intros Hin; apply Hn; now right). reflexivity.
Qed.

Lemma split1_at sep a b : ~ In sep a -> split1 sep (a ++ sep :: b) = [a; b].
Proof.
  induction a as [|c r IH]; intros Hn; simpl.
  - rewrite Z.eqb_refl. reflexivity.
  - destruct (Z.eqb_spec c sep) as [->|_]; [exfalso; apply Hn; now left|].
    rewrite IH by (intros Hin; apply Hn; now right). reflexivity.
Qed.

Lemma split1_shape sep s :
  (split1 sep s = [s] /\ ~ In sep s)
  \/ exists a b, split1 sep s = [a; b] /\ s = a ++ sep :: b /\ ~ In sep a.
Proof.
  induction s as [|c r IH]; [left; split; [reflexivity | tauto]|].
  simpl. destruct (Z.eqb_spec c sep) as [->|Hc].
  - right. exists [], r. repeat split; tauto.
  - destruct IH as [[-> Hn] | (a & b & -> & -> & Hn)].
    + left. split; [reflexivity|]. simpl. intros [?|?]; [congruence|tauto].
    + right. exists (c :: a), b. repeat split.
      simpl. intros [?|?]; [congruence|tauto].
Qed.

Lemma rsplit1_shape sep s :
  (rsplit1 sep s = [s] /\ ~ In sep s)
  \/ exists a b, rsplit1 sep s = [a; b] /\ s = a ++ sep :: b /\ ~ In sep b.
Proof.
  unfold rsplit1.
  destruct (split1_shape sep (rev s)) as [[-> Hn] | (a & b & -> & Hs & Hn)].
  - left. split; [reflexivity|]. rewrite in_rev. exact Hn.
  - right. exists (rev b), (rev a). split; [reflexivity|].
    split; [|rewrite <- in_rev; exact Hn].
    apply (f_equal (@rev Z)) in Hs. rewrite rev_involutive in Hs.
    rewrite Hs, rev_app_distr. simpl. rewrite <- app_assoc. reflexivity.
Qed.

Lemma replace_char_gone a b s : a <> b -> ~ In a (replace_char a b s).
Proof.
  intros Hab Hin. unfold replace_char in Hin. apply in_map_iff in Hin.
  destruct Hin as (c & Hc & _). destruct (Z.eqb_spec c a); congruence.
Qed.

(** X12.  Whatever the text, a command that [parse_cmd] returns is not
    empty and holds neither a space nor a no-break space, the argument it
    returns has no white space at either end, and the text, white space
    at its ends apart, begins with a slash; the two results are both
    given or both [None]. *)
Theorem parse_cmd_sound (username : option pystr) (text : pystr) :
  parse_cmd username text = (None, None)
  \/ exists c e r,
       parse_cmd username text = (Some c, Some e)
       /\ c <> [] /\ ~ In 32 c /\ ~ In 160 c
       /\ strip e = e
       /\ strip text = 47 :: r.
Proof.
  unfold parse_cmd.
  set (body := replace_char 160 32 (strip text)).
  assert (H160 : ~ In 160 body) by (apply replace_char_gone; lia).
  assert (Ht : exists t0 t_rest, split1 32 body = t0 :: t_rest
                                 /\ ~ In 32 t0 /\ exists r, body = t0 ++ r).
  { destruct (split1_shape 32 body) as [[-> Hn] | (a & b & -> & Hs & Hn)].
    - exists body, []. repeat split; [exact Hn|]. exists []. now rewrite app_nil_r.
    - exists a, [b]. repeat split; [exact Hn|]. eexists. exact Hs. }
  destruct Ht as (t0 & t_rest & -> & Hsp & r0 & Hbody).
  assert (Hc : exists cmd0 r1, hd [] (rsplit1 64 t0) = cmd0 /\ t0 = cmd0 ++ r1).
  { destruct (rsplit1_shape 64 t0) as [[-> _] | (a & b & -> & Hs & _)].
    - exists t0, []. split; [reflexivity | now rewrite app_nil_r].
    - exists a, (64 :: b). split; [reflexivity | exact Hs]. }
  destruct Hc as (cmd0 & r1 & -> & Ht0).
  destruct ((len cmd0 <? 2) || negb (str_eqb (firstn 1 cmd0) (lit "/"))) eqn:Hg;
    [left; reflexivity|].
  destruct ((1 <? Z.of_nat (length (rsplit1 64 t0))) && _); [left; reflexivity|].
  right. apply orb_false_iff in Hg. destruct Hg as [Hlen Hslash].
  apply Z.ltb_ge in Hlen. apply negb_false_iff in Hslash.
  unfold str_eqb in Hslash. apply bool_decide_eq_true in Hslash.
  destruct cmd0 as [|x [|y c]]; unfold len in Hlen; simpl in Hlen; try lia.
  cbn [firstn] in Hslash. change (lit "/") with [47] in Hslash.
  injection Hslash as ->.
  change ((47 :: y :: c) ++ r1) with (47 :: ((y :: c) ++ r1)) in Ht0.
  assert (Hin32 : ~ In 32 (y :: c)).
  { intros Hin. apply Hsp. rewrite Ht0. right.
    apply in_or_app. left. exact Hin. }
  assert (Hin160 : ~ In 160 (y :: c)).
  { intros Hin. apply H160. rewrite Hbody, Ht0.
    change ((47 :: (y :: c) ++ r1) ++ r0) with (47 :: (((y :: c) ++ r1) ++ r0)).
    right. apply in_or_app. left. apply in_or_app. left. exact Hin. }
  assert (Hstart : exists r, strip text = 47 :: r).
  { subst body. destruct (strip text) as [|z r]; [rewrite Ht0 in Hbody; discriminate Hbody|].
    rewrite Ht0 in Hbody.
    change (replace_char 160 32 (z :: r))
      with ((if z =? 160 then 32 else z) :: replace_char 160 32 r) in Hbody.
    change ((47 :: (y :: c) ++ r1) ++ r0)
      with (47 :: (((y :: c) ++ r1) ++ r0)) in Hbody.
    injection Hbody as Hz _. destruct (Z.eqb_spec z 160); [lia|].
    subst z. exists r. reflexivity. }
  destruct Hstart as [r Hr].
  exists (y :: c), (strip match t_rest with e :: _ => e | [] => [] end), r.
  split; [reflexivity|]. split; [discriminate|].
  split; [exact Hin32|]. split; [exact Hin160|].
  split; [apply strip_strip | exact Hr].
Qed.

Lemma plain_word_spec s x :
  plain_word s = true -> In x s -> isspace x = false /\ x <> 64.
Proof.
  unfold plain_word. rewrite forallb_forall. intros H Hin.
  specialize (H x Hin). apply andb_true_iff in H. destruct H as [H1 H2].
  apply negb_true_iff in H1, H2. apply Z.eqb_neq in H2. split; assumption.
Qed.

Lemma plain_word_no s x : plain_word s = true -> isspace x = true -> ~ In x s.
Proof.
  intros Hs Hx Hin. destruct (plain_word_spec s x Hs Hin). congruence.
Qed.

Lemma replace_char_id a b s : ~ In a s -> replace_char a b s = s.
Proof.
  induction s as [|c r IH]; [reflexivity|]. intros Hn. simpl.
  destruct (Z.eqb_spec c a) as [->|_]; [exfalso; apply Hn; now left|].
  rewrite IH by (intros Hin; apply Hn; now right). reflexivity.
Qed.

Lemma rsplit1_no_sep sep s : ~ In sep s -> rsplit1 sep s = [s].
Proof.
  intros Hn. unfold rsplit1. rewrite split1_no_sep; [reflexivity|].
  rewrite <- in_rev. exact Hn.
Qed.

Lemma rsplit1_at sep a b : ~ In sep b -> rsplit1 sep (a ++ sep :: b) = [a; b].
Proof.
  intros Hn. unfold rsplit1.
  replace (rev (a ++ sep :: b)) with (rev b ++ sep :: rev a).
  - rewrite split1_at by (rewrite <- in_rev; exact Hn).
    rewrite !rev_involutive. reflexivity.
  - rewrite rev_app_distr. simpl. rewrite <- app_assoc. reflexivity.
Qed.

(** A text that begins and ends with characters that are no white
    space is its own [strip]. *)
Lemma strip_fix c s :
  isspace c = false ->
  (s = [] \/ exists r d, s = r ++ [d] /\ isspace d = false) ->
  strip (c :: s) = c :: s.
Proof.
  intros Hc Hs. unfold strip. rewrite (lstrip_fix c s Hc).
  destruct Hs as [-> | (r & d & -> & Hd)].
  - apply (rstrip_fix [] c Hc).
  - rewrite app_comm_cons. apply rstrip_fix. exact Hd.
Qed.

Lemma last_of_app (a : pystr) x b :
  (b = [] \/ exists r d, b = r ++ [d] /\ isspace d = false) ->
  isspace x = false ->
  exists r d, a ++ x :: b = r ++ [d] /\ isspace d = false.
Proof.
  intros [-> | (r & d & -> & Hd)] Hx.
  - exists a, x. split; [reflexivity | exact Hx].
  - exists (a ++ x :: r), d. split; [|exact Hd].
    rewrite <- app_assoc. reflexivity.
Qed.

Lemma word_last (s : pystr) :
  plain_word s = true -> s <> [] ->
  exists r d, s = r ++ [d] /\ isspace d = false.
Proof.
  intros Hs Hne. destruct (exists_last Hne) as (r & d & ->).
  exists r, d. split; [reflexivity|].
  apply (plain_word_spec _ d Hs). apply in_or_app. right. now left.
Qed.

(** X13.  A command line is read back.  For a command word [c] and a
    mention [n] without white space or [@], and an argument [e] that is
    stripped and holds no no-break space, [parse_cmd] on [/c e] gives
    the pair ([c], [e]); on [/c@n e] it gives the same pair when no user
    name is configured or [n] is the configured one, and the pair of
    [None] when [n] is another name. *)
Theorem parse_cmd_command_text (username mention : option pystr) (c e : pystr) :
  c <> [] -> plain_word c = true ->
  match mention with Some n => plain_word n = true | None => True end ->
  strip e = e -> ~ In 160 e ->
  parse_cmd username (command_text c mention e)
  = match mention, username with
    | Some n, Some me =>
        if str_eqb n me then (Some c, Some e) else (None, None)
    | _, _ => (Some c, Some e)
    end.
Proof.
  intros Hc Hpc Hpn He H160.
  set (head := c ++ match mention with Some n => 64 :: n | None => [] end).
  assert (Hhead_ws : forall x, isspace x = true -> ~ In x head).
  { intros x Hx Hin. apply in_app_or in Hin. destruct Hin as [Hin|Hin].
    - exact (plain_word_no c x Hpc Hx Hin).
    - destruct mention as [n|]; [|exact Hin]. destruct Hin as [<-|Hin].
      + discriminate Hx.
      + exact (plain_word_no n x Hpn Hx Hin). }
  assert (Hhead_last : exists r d, head = r ++ [d] /\ isspace d = false).
  { subst head. destruct mention as [n|].
    - apply last_of_app; [|reflexivity].
      destruct n as [|y n]; [left; reflexivity | right].
      apply word_last; [exact Hpn | discriminate].
    - rewrite app_nil_r. apply word_last; assumption. }
  assert (Htext : command_text c mention e
                  = 47 :: head ++ match e with [] => [] | _ => 32 :: e end).
  { unfold command_text, head. rewrite <- app_assoc. reflexivity. }
  assert (Hstrip : strip (command_text c mention e) = command_text c mention e).
  { rewrite Htext. apply strip_fix; [reflexivity|]. right.
    destruct e as [|x e]; [rewrite app_nil_r; exact Hhead_last|].
    destruct (strip_last (x :: e) He) as (r & d & Hrd & Hd); [discriminate|].
    rewrite Hrd. exists (head ++ 32 :: r), d. split; [|exact Hd].
    rewrite <- app_assoc. reflexivity. }
  assert (Hrepl : replace_char 160 32 (command_text c mention e)
                  = command_text c mention e).
  { apply replace_char_id. rewrite Htext. intros [Hin|Hin]; [discriminate|].
    apply in_app_or in Hin. destruct Hin as [Hin|Hin].
    - exact (Hhead_ws 160 eq_refl Hin).
    - destruct e as [|x e]; [exact Hin|]. destruct Hin as [Hin|Hin];
        [discriminate | exact (H160 Hin)]. }
  assert (Hsplit : split1 32 (command_text c mention e)
                   = (47 :: head) :: match e with [] => [] | _ => [e] end).
  { rewrite Htext. assert (Hn : ~ In 32 (47 :: head)).
    { intros [Hin|Hin]; [discriminate | exact (Hhead_ws 32 eq_refl Hin)]. }
    destruct e as [|x e].
    - rewrite app_nil_r. apply split1_no_sep. exact Hn.
    - apply (split1_at 32 (47 :: head) (x :: e) Hn). }
  assert (Hexpr : strip match match e with [] => [] | _ => [e] end with
                        | e' :: _ => e'
                        | [] => []
                        end = e).
  { destruct e as [|x e]; [reflexivity | exact He]. }
  assert (Hc64 : ~ In 64 (47 :: c)).
  { intros [Hin|Hin]; [discriminate|].
    destruct (plain_word_spec c 64 Hpc Hin). congruence. }
  assert (Hguard : (len (47 :: c) <? 2)
                   || negb (str_eqb (firstn 1 (47 :: c)) (lit "/")) = false).
  { destruct c as [|y c]; [congruence|]. unfold len. simpl length.
    destruct (Z.ltb_spec (Z.of_nat (S (S (length c)))) 2); [lia|]. reflexivity. }
  unfold parse_cmd. rewrite Hstrip, Hrepl, Hsplit.
  destruct mention as [n|].
  - assert (Hn64 : ~ In 64 n).
    { intros Hin. destruct (plain_word_spec n 64 Hpn Hin). congruence. }
    subst head.
    change (47 :: c ++ 64 :: n) with ((47 :: c) ++ 64 :: n).
    rewrite (rsplit1_at 64 (47 :: c) n Hn64). cbn [hd]. rewrite Hguard.
    cbn [length List.last Z.of_nat Pos.of_succ_nat Pos.succ Z.ltb Z.compare
         Pos.compare Pos.compare_cont andb skipn].
    rewrite Hexpr. destruct username as [me|]; [|reflexivity].
    destruct (str_eqb n me); reflexivity.
  - subst head. rewrite app_nil_r.
    rewrite (rsplit1_no_sep 64 (47 :: c) Hc64). cbn [hd]. rewrite Hguard.
    cbn [length Z.of_nat Pos.of_succ_nat Z.ltb Z.compare Pos.compare
         Pos.compare_cont andb skipn].
    rewrite Hexpr. destruct username; reflexivity.
Qed.

Lemma parse_cmd_command_text_witness :
  parse_cmd (Some (lit "textimgbot"))
    (command_text (lit "delsvg") (Some (lit "textimgbot")) (lit "greet 2"))
  = (Some (lit "delsvg"), Some (lit "greet 2"))
  /\ parse_cmd (Some (lit "textimgbot"))
       (command_text (lit "delsvg") (Some (lit "otherbot")) (lit "greet 2"))
     = (None, None).
Proof.
  split.
  - apply (parse_cmd_command_text (Some (lit "textimgbot"))
             (Some (lit "textimgbot")) (lit "delsvg") (lit "greet 2"));
      try reflexivity; [discriminate | vm_compute; intuition discriminate].
  - apply (parse_cmd_command_text (Some (lit "textimgbot"))
             (Some (lit "otherbot")) (lit "delsvg") (lit "greet 2"));
      try reflexivity; [discriminate | vm_compute; intuition discriminate].
Defined.

(** ** The registry after a reload *)

Lemma rfind_step_fst c p : forall st,
  fst (fold_left (fun st x => (fst st + 1, if x =? c then fst st else snd st))
                 p st)
  = fst st + Z.of_nat (length p).
Proof.
  induction p as [|x p IH]; intros st; simpl fold_left.
  - simpl. lia.
  - rewrite IH. cbn [fst length]. lia.
Qed.

Lemma rfind_step_absent c p : forall st,
  ~ In c p ->
  snd (fold_left (fun st x => (fst st + 1, if x =? c then fst st else snd st))
                 p st)
  = snd st.
Proof.
  induction p as [|x p IH]; intros st Hn; [reflexivity|].
  simpl fold_left. rewrite IH by (intros Hin; apply Hn; now right).
  cbn [snd]. destruct (Z.eqb_spec x c) as [->|_]; [|reflexivity].
  exfalso. apply Hn. now left.
Qed.

Lemma rfind_absent c p : ~ In c p -> rfind c p = -1.
Proof. intros Hn. unfold rfind. rewrite rfind_step_absent by exact Hn. reflexivity. Qed.

Lemma rfind_last c l r :
  ~ In c r -> rfind c (l ++ c :: r) = Z.of_nat (length l).
Proof.
  intros Hn. unfold rfind. rewrite fold_left_app. simpl fold_left.
  rewrite rfind_step_absent by exact Hn. cbn [snd]. rewrite Z.eqb_refl.
  rewrite rfind_step_fst. simpl. lia.
Qed.

Lemma firstn_length_app {A} (l r : list A) : firstn (length l) (l ++ r) = l.
Proof. induction l as [|x l IH]; simpl; [destruct r | rewrite IH]; reflexivity. Qed.

Lemma skipn_length_app {A} (l r : list A) : skipn (length l) (l ++ r) = r.
Proof. induction l as [|x l IH]; simpl; [|rewrite IH]; reflexivity. Qed.

(** [splitext] on a name without a slash: the extension is [.svg]
    exactly for [k.svg] with a character other than a dot in [k]. *)
Lemma splitext_svg i :
  ~ In 47 i ->
  (snd (splitext i) = lit ".svg" <->
   exists k, i = k ++ lit ".svg" /\ existsb (fun x => negb (x =? 46)) k = true).
Proof.
  intros H47. split.
  - intros Hext. pose proof (splitext_concat i) as Hcat. rewrite Hext in Hcat.
    exists (fst (splitext i)). split; [symmetry; exact Hcat|].
    unfold splitext in *. rewrite (rfind_absent 47 i H47) in *.
    destruct ((-1 <? rfind 46 i) && _) eqn:Hg; [|discriminate Hext].
    apply andb_true_iff in Hg. destruct Hg as [_ Hg].
    cbn [fst]. change (Z.to_nat (-1 + 1)) with 0%nat in Hg.
    cbn [skipn] in Hg. replace (rfind 46 i - (-1 + 1)) with (rfind 46 i) in Hg by lia.
    exact Hg.
  - intros (k & -> & Hk). unfold splitext.
    rewrite (rfind_absent 47 _ H47).
    change (k ++ lit ".svg") with (k ++ 46 :: lit "svg").
    rewrite (rfind_last 46 k (lit "svg")) by (vm_compute; intuition discriminate).
    change (Z.to_nat (-1 + 1)) with 0%nat. rewrite skipn_O.
    replace (Z.of_nat (length k) - (-1 + 1)) with (Z.of_nat (length k)) by lia.
    rewrite Nat2Z.id, !firstn_length_app, skipn_length_app, Hk.
    destruct (Z.ltb_spec (-1) (Z.of_nat (length k))); [reflexivity | lia].
Qed.

Lemma svg_registry_In dir entries k v :
  In (k, v) (svg_registry dir entries) <->
  In (k ++ lit ".svg") entries
  /\ snd (splitext (k ++ lit ".svg")) = lit ".svg"
  /\ fst (splitext (k ++ lit ".svg")) = k
  /\ v = os_path_join dir (k ++ lit ".svg").
Proof.
  unfold svg_registry. rewrite in_map_iff. split.
  - intros (i & Hkv & Hin). apply List.filter_In in Hin. destruct Hin as [Hin Hs].
    unfold str_eqb in Hs. apply bool_decide_eq_true in Hs.
    injection Hkv as Hk Hv. pose proof (splitext_concat i) as Hcat.
    rewrite Hk, Hs in Hcat. subst i. repeat split; congruence.
  - intros (Hin & Hs & Hk & ->). exists (k ++ lit ".svg").
    split; [rewrite Hk; reflexivity|].
    apply List.filter_In. split; [exact Hin|].
    unfold str_eqb. apply bool_decide_eq_true. exact Hs.
Qed.

Lemma update_templates_registry E w entries :
  listdir E (set_template_cache (Some []) w) (cfg_templates E) = Ret entries ->
  NoDup entries ->
  template_cache (snd (update_templates E w))
  = Some (svg_registry (cfg_templates E) entries).
Proof.
  intros Hl Hnd. unfold update_templates, bind, modify, os_listdir. rewrite Hl.
  rewrite (update_loop_eq E entries []); [reflexivity | exact Hnd | reflexivity].
Qed.

(** X14.  After a reload over a listing of distinct names without
    slashes, the registry maps [k] to [v] exactly when [k.svg] is listed,
    [k] holds a character other than a dot, and [v] is the template
    directory joined with [k.svg]: hidden files such as [.svg] and other
    extensions are left out. *)
Theorem update_templates_entries (E : env) (w : world) (entries : list pystr)
    (k v : pystr) :
  listdir E (set_template_cache (Some []) w) (cfg_templates E) = Ret entries ->
  NoDup entries ->
  Forall (fun i => ~ In 47 i) entries ->
  exists reg,
    template_cache (snd (update_templates E w)) = Some reg
    /\ (In (k, v) reg <->
        In (k ++ lit ".svg") entries
        /\ existsb (fun x => negb (x =? 46)) k = true
        /\ v = os_path_join (cfg_templates E) (k ++ lit ".svg")).
Proof.
  intros Hl Hnd Hns. exists (svg_registry (cfg_templates E) entries).
  split; [apply update_templates_registry; assumption|].
  rewrite svg_registry_In. split.
  - intros (Hin & Hs & Hk & Hv). split; [exact Hin|]. split; [|exact Hv].
    rewrite List.Forall_forall in Hns.
    apply (splitext_svg _ (Hns _ Hin)) in Hs. destruct Hs as (k' & Heq & Hk').
    apply app_inv_tail in Heq. subst k'. exact Hk'.
  - intros (Hin & Hk & Hv). rewrite List.Forall_forall in Hns.
    assert (Hs : snd (splitext (k ++ lit ".svg")) = lit ".svg")
      by (apply (splitext_svg _ (Hns _ Hin)); exists k; split; [reflexivity | exact Hk]).
    split; [exact Hin|]. split; [exact Hs|]. split; [|exact Hv].
    pose proof (splitext_concat (k ++ lit ".svg")) as Hcat. rewrite Hs in Hcat.
    apply app_inv_tail in Hcat. exact Hcat.
Qed.

Lemma update_templates_entries_witness :
  exists reg,
    template_cache (snd (update_templates E_ok sample_world)) = Some reg
    /\ (In (lit "bold", lit "tpl/bold.svg") reg <->
        In (lit "bold" ++ lit ".svg") sample_listing
        /\ existsb (fun x => negb (x =? 46)) (lit "bold") = true
        /\ lit "tpl/bold.svg" = os_path_join (cfg_templates E_ok)
                                  (lit "bold" ++ lit ".svg")).
Proof.
  apply (update_templates_entries E_ok sample_world sample_listing).
  - reflexivity.
  - apply (bool_decide_unpack _). vm_compute. exact I.
  - repeat (apply List.Forall_cons; [vm_compute; intuition discriminate|]).
    apply List.Forall_nil.
Defined.

Lemma NoDup_map_on {A B} (f : A -> B) (l : list A) :
  (forall x y, In x l -> In y l -> f x = f y -> x = y) ->
  List.NoDup l -> List.NoDup (map f l).
Proof.
  induction l as [|a l IH]; intros Hinj Hnd; simpl; [constructor|].
  apply List.NoDup_cons_iff in Hnd. destruct Hnd as [Ha Hnd].
  apply List.NoDup_cons.
  - intros Hin. apply in_map_iff in Hin. destruct Hin as (x & Hfx & Hx).
    assert (x = a) by (apply Hinj; [now right | now left | exact Hfx]).
    subst x. exact (Ha Hx).
  - apply IH; [|exact Hnd]. intros x y Hx Hy. apply Hinj; now right.
Qed.

(** X15.  In a reload over a listing of distinct names no template
    replaces another: every listed name with the extension [.svg] keeps an
    entry of its own, so the registry holds the joined paths of these names
    one by one in listing order, and its keys are pairwise distinct. *)
Theorem update_templates_keys_distinct (E : env) (w : world)
    (entries : list pystr) :
  listdir E (set_template_cache (Some []) w) (cfg_templates E) = Ret entries ->
  NoDup entries ->
  exists reg,
    template_cache (snd (update_templates E w)) = Some reg
    /\ NoDup (map fst reg)
    /\ map snd reg
       = map (os_path_join (cfg_templates E))
           (List.filter (fun i => str_eqb (snd (splitext i)) (lit ".svg"))
                        entries).
Proof.
  intros Hl Hnd. exists (svg_registry (cfg_templates E) entries).
  split; [apply update_templates_registry; assumption|].
  unfold svg_registry. rewrite !map_map. cbn [fst snd]. split; [|reflexivity].
  apply NoDup_ListNoDup, NoDup_map_on.
  - intros x y Hx Hy Hf.
    apply List.filter_In in Hx, Hy. destruct Hx as [_ Hx], Hy as [_ Hy].
    unfold str_eqb in Hx, Hy. apply bool_decide_eq_true in Hx, Hy.
    rewrite <- (splitext_concat x), <- (splitext_concat y) at 1.
    rewrite Hf, Hx, Hy. reflexivity.
  - apply List.NoDup_filter, NoDup_ListNoDup. exact Hnd.
Qed.

Lemma update_templates_keys_distinct_witness :
  exists reg,
    template_cache (snd (update_templates E_ok sample_world)) = Some reg
    /\ NoDup (map fst reg)
    /\ map snd reg
       = map (os_path_join (cfg_templates E_ok))
           (List.filter (fun i => str_eqb (snd (splitext i)) (lit ".svg"))
                        sample_listing).
Proof.
  apply (update_templates_keys_distinct E_ok sample_world sample_listing).
  - reflexivity.
  - apply (bool_decide_unpack _). vm_compute. exact I.
Defined.

(** ** The update handler *)

Lemma render_one_posts E text acc entry w :
  posts (snd (render_one E text acc entry w)) = posts w.
Proof.
  destruct entry as [template templatefile]. rewrite render_one_eq.
  destruct (artifact_key template text) as [fileid|e]; [|reflexivity].
  destruct (isfile (fs w) (artifact_path E fileid)); [reflexivity|].
  destruct (generate_image_frame E templatefile (artifact_path E fileid)
              (render_args text) w) as (_ & _ & Hp & _).
  destruct (generate_image E templatefile (artifact_path E fileid)
              (render_args text) w) as [[[|]|e] w1]; exact Hp.
Qed.

Lemma render_loop_posts E text reg : forall acc w,
  posts (snd (render_loop E text reg acc w)) = posts w.
Proof.
  induction reg as [|entry reg IH]; intros acc w; [reflexivity|].
  rewrite render_loop_cons.
  pose proof (render_one_posts E text acc entry w) as Hp.
  destruct (render_one E text acc entry w) as [[acc'|e] w1]; simpl in Hp.
  - rewrite IH. exact Hp.
  - exact Hp.
Qed.

Lemma render_images_posts E text w :
  posts (snd (render_images E text w)) = posts w.
Proof.
  destruct (template_cache w) as [reg|] eqn:Hc.
  - rewrite (render_images_eq E text w reg Hc). apply render_loop_posts.
  - unfold render_images, bind, gets. rewrite Hc. reflexivity.
Qed.

Lemma answer_requests C E id results w :
  fst (answer C E id results w) = Ret tt
  /\ exists n, (1 <= n <= 3)%nat /\
     posts (snd (answer C E id results w))
     = posts w ++
       repeat (api_url E (lit "answerInlineQuery"),
               [(lit "inline_query_id", PStr id);
                (lit "results", PStr (json_dumps C results))]) n.
Proof.
  unfold answer, async_func.
  destruct (bot_api_posts E (lit "answerInlineQuery")
              [(lit "inline_query_id", PStr id);
               (lit "results", PStr (json_dumps C results))] w)
    as (n & Hn & Hp).
  destruct (bot_api E (lit "answerInlineQuery") _ w) as [[a|e] w1];
    (split; [reflexivity | exists n; split; [exact Hn | exact Hp]]).
Qed.

(** X16.  An inline query with a text that is not blank is rendered on
    the stripped text and answered: when [render_images] returns the
    identifiers [ids], the handler posts between one and three identical
    [answerInlineQuery] requests that carry the id of the query and the
    serialised list of one photo per identifier, in order, whose photo
    and thumbnail address is [urlroot], the identifier and [.jpg]; it
    makes no other request and raises nothing. *)
Theorem inline_query_answered (C : setup) (E : env) (d : update)
    (q : inline_query) (ids : list pystr) (w w1 : world) :
  upd_inline_query d = Some q ->
  strip (iq_query q) <> [] ->
  render_images E (strip (iq_query q)) w = (Ret ids, w1) ->
  fst (handle_api_update C E d w)
  = Ret [LogUpdate d; LogRendered (strip (iq_query q)); LogAnswer]
  /\ (exists n, (1 <= n <= 3)%nat /\
      posts (snd (handle_api_update C E d w))
      = posts w ++
        repeat (api_url E (lit "answerInlineQuery"),
                [(lit "inline_query_id", PStr (iq_id q));
                 (lit "results", PStr (json_dumps C (inline_result C ids)))]) n)
  /\ map ir_id (inline_result C ids) = ids
  /\ Forall (fun r => ir_type r = lit "photo"
                      /\ ir_photo_url r = cfg_urlroot C ++ ir_id r ++ lit ".jpg"
                      /\ ir_thumb_url r = ir_photo_url r)
            (inline_result C ids).
Proof.
  intros Hq Hne Hr.
  pose proof (render_images_posts E (strip (iq_query q)) w) as Hp.
  rewrite Hr in Hp. cbn [snd] in Hp.
  destruct (answer_requests C E (iq_id q) (inline_result C ids) w1)
    as (Ha & n & Hn & Hposts).
  unfold handle_api_update, handle_body. rewrite Hq.
  destruct (strip (iq_query q)) as [|c r] eqn:Hs; [congruence|].
  unfold bind. rewrite Hr.
  destruct (answer C E (iq_id q) (inline_result C ids) w1) as [[[]|e] w2];
    [|discriminate Ha].
  cbn [fst snd] in *. split; [reflexivity|]. split.
  - exists n. split; [exact Hn|]. rewrite <- Hp. exact Hposts.
  - unfold inline_result. split.
    + rewrite map_map. cbn [ir_id]. apply map_id.
    + apply List.Forall_forall. intros x Hx. apply in_map_iff in Hx.
      destruct Hx as (i & <- & _). repeat split.
Qed.

Lemma inline_query_answered_witness :
  fst (handle_api_update sample_setup E_ok sample_query small_world)
  = Ret [LogUpdate sample_query; LogRendered (lit "Hello/World"); LogAnswer]
  /\ map ir_photo_url (inline_result sample_setup [greet_id; bold_id])
     = [lit "https://example.org/i/h_oW_y5JzL-PjBnM6xdt2iHO8RwILQHhWfEfx8sfR8w.jpg";
        lit "https://example.org/i/xE1bFvnkN5zueIZ7VV4Axki7Sc0t7aaiMqihkUM3sB8.jpg"].
Proof.
  destruct (inline_query_answered sample_setup E_ok sample_query
              (InlineQuery (lit "q1") (lit " Hello/World "))
              [greet_id; bold_id] small_world
              (snd (render_images E_ok
                      (strip (iq_query (InlineQuery (lit "q1")
                                          (lit " Hello/World "))))
                      small_world)))
    as (H & _).
  - reflexivity.
  - vm_compute. discriminate.
  - apply pair_eq_intro. vm_compute. reflexivity.
  - split; [exact H | vm_compute; reflexivity].
Defined.

(** X17.  An inline query gets no answer when its text is blank, or
    when [render_images] raises on it: in the first case the handler
    changes nothing, in the second it stops in the world the rendering
    left and logs the exception; in both it posts no request and returns
    normally. *)
Theorem inline_query_unanswered (C : setup) (E : env) (d : update)
    (q : inline_query) (w : world) :
  upd_inline_query d = Some q ->
  (strip (iq_query q) = [] ->
   handle_api_update C E d w = (Ret [LogUpdate d], w))
  /\ (forall e w1,
        strip (iq_query q) <> [] ->
        render_images E (strip (iq_query q)) w = (Raise e, w1) ->
        handle_api_update C E d w = (Ret [LogUpdate d; LogFailed e], w1)
        /\ posts w1 = posts w).
Proof.
  intros Hq. split.
  - intros Hs. unfold handle_api_update, handle_body. rewrite Hq, Hs. reflexivity.
  - intros e w1 Hne Hr.
    pose proof (render_images_posts E (strip (iq_query q)) w) as Hp.
    rewrite Hr in Hp. cbn [snd] in Hp. split; [|exact Hp].
    unfold handle_api_update, handle_body. rewrite Hq.
    destruct (strip (iq_query q)) as [|c r] eqn:Hs; [congruence|].
    unfold bind. rewrite Hr. reflexivity.
Qed.

Lemma inline_query_unanswered_witness :
  fst (handle_api_update sample_setup E_ok sample_query broken_world)
  = Ret [LogUpdate sample_query; LogFailed IndexError]
  /\ posts (snd (handle_api_update sample_setup E_ok sample_query broken_world))
     = [].
Proof.
  assert (Hr : exists w1,
             render_images E_ok
               (strip (iq_query (InlineQuery (lit "q1") (lit " Hello/World "))))
               broken_world = (Raise IndexError, w1))
    by (eexists; apply pair_eq_intro; vm_compute; reflexivity).
  destruct Hr as [w1 Hr].
  destruct (inline_query_unanswered sample_setup E_ok sample_query
              (InlineQuery (lit "q1") (lit " Hello/World ")) broken_world
              eq_refl) as [_ H].
  destruct (H IndexError w1) as [H1 H2].
  - vm_compute. discriminate.
  - exact Hr.
  - rewrite H1. cbn [fst snd]. rewrite H2. split; reflexivity.
Defined.

Lemma async_func_ret {A} (m : M A) w : fst (async_func m w) = Ret tt.
Proof. unfold async_func. destruct (m w) as [[a|e] w1]; reflexivity. Qed.

Lemma reply_requests E (R : pystr) cid mid w :
  strip R = R -> R <> [] -> len R <= 2000 ->
  fst (sendmsg E R cid (Some mid) [] w) = Ret tt
  /\ exists n, (1 <= n <= 3)%nat /\
     posts (snd (sendmsg E R cid (Some mid) [] w))
     = posts w ++
       repeat (api_url E (lit "sendMessage"),
               [(lit "chat_id", PInt cid);
                (lit "text", PStr R);
                (lit "reply_to_message_id",
                 if mid <? 0 then PNone else PInt mid)]) n.
Proof.
  intros Hs Hne Hl. split; [apply async_func_ret|].
  destruct (sendmsg_requests E R cid (Some mid) [] w) as (n & Hn & Hp & H1).
  rewrite Hs in *. destruct (Z.ltb_spec 2000 (len R)) as [Hlt|_]; [lia|].
  rewrite app_nil_r in Hp. exists n. split; [|exact Hp].
  split; [apply H1; [exact Hne | reflexivity] | exact Hn].
Qed.

(** X18.  In a private chat every text message that is not empty and
    comes without a document is replied to: the handler posts between one
    and three identical [sendMessage] requests to the chat of the message,
    in reply to it, with [START] for the command [start], the text
    [Not Implemented.] for [delsvg] and [HELP] for everything else,
    text that is no command included; it raises nothing. *)
Theorem private_text_reply (C : setup) (E : env) (d : update) (msg : message)
    (c : Z) (r : pystr) (w : world) :
  upd_inline_query d = None ->
  upd_message d = Some msg ->
  msg_document msg = false ->
  msg_text msg = Some (c :: r) ->
  chat_type (msg_chat msg) = lit "private" ->
  fst (handle_api_update C E d w) = Ret [LogUpdate d]
  /\ exists n, (1 <= n <= 3)%nat /\
     posts (snd (handle_api_update C E d w))
     = posts w ++
       repeat (api_url E (lit "sendMessage"),
               [(lit "chat_id", PInt (chat_id (msg_chat msg)));
                (lit "text",
                 PStr match fst (parse_cmd (cfg_username C) (c :: r)) with
                      | Some cmd =>
                          if str_eqb cmd (lit "start") then START
                          else if str_eqb cmd (lit "delsvg")
                          then lit "Not Implemented."
                          else HELP
                      | None => HELP
                      end);
                (lit "reply_to_message_id",
                 if message_id msg <? 0 then PNone
                 else PInt (message_id msg))]) n.
Proof.
  intros Hq Hm Hdoc Htxt Hpriv.
  set (R := match fst (parse_cmd (cfg_username C) (c :: r)) with
            | Some cmd =>
                if str_eqb cmd (lit "start") then START
                else if str_eqb cmd (lit "delsvg") then lit "Not Implemented."
                else HELP
            | None => HELP
            end).
  assert (HR : strip R = R /\ R <> [] /\ len R <= 2000).
  { subst R. destruct (fst (parse_cmd (cfg_username C) (c :: r))) as [cmd|];
      [destruct (str_eqb cmd (lit "start"));
       [|destruct (str_eqb cmd (lit "delsvg"))]|];
      (split; [vm_compute; reflexivity
              | split; [vm_compute; discriminate | vm_compute; discriminate]]). }
  destruct HR as (Hs & Hne & Hl).
  assert (Hb : handle_body C E d w
               = bind (sendmsg E R (chat_id (msg_chat msg))
                         (Some (message_id msg)) [])
                      (fun _ => ret []) w).
  { unfold handle_body, cmd_delsvg. rewrite Hq, Hm, Hdoc, Htxt, Hpriv.
    cbv beta iota zeta.
    change (str_eqb (lit "private") (lit "private")) with true.
    cbv beta iota zeta. subst R.
    destruct (fst (parse_cmd (cfg_username C) (c :: r))) as [cmd|];
      [destruct (str_eqb cmd (lit "start"));
       [|destruct (str_eqb cmd (lit "delsvg"))]|];
      reflexivity. }
  destruct (reply_requests E R (chat_id (msg_chat msg)) (message_id msg) w
              Hs Hne Hl) as (Hf & n & Hn & Hp).
  unfold handle_api_update. rewrite Hb. unfold bind.
  destruct (sendmsg E R (chat_id (msg_chat msg)) (Some (message_id msg)) [] w)
    as [[[]|e] w1]; [|discriminate Hf].
  cbn [fst snd ret] in *. split; [reflexivity|].
  exists n. split; [exact Hn | exact Hp].
Qed.

Lemma private_text_reply_witness :
  fst (handle_api_update sample_setup E_ok start_message empty_world)
  = Ret [LogUpdate start_message]
  /\ exists n, (1 <= n <= 3)%nat /\
     posts (snd (handle_api_update sample_setup E_ok start_message empty_world))
     = posts empty_world ++
       repeat (api_url E_ok (lit "sendMessage"),
               [(lit "chat_id", PInt 42);
                (lit "text", PStr START);
                (lit "reply_to_message_id", PInt 7)]) n.
Proof.
  apply (private_text_reply sample_setup E_ok start_message
           (Message (Chat 42 (lit "private")) (Some (lit "/start")) false 7)
           47 (lit "start") empty_world); reflexivity.
Defined.


(** X19.  A message gets no reply and leaves everything as it was
    when it carries a document (also in a private chat: the value of
    [on_document] is dropped), when its text is absent or empty, or when
    its chat is not private; the same holds for an update that is
    neither an inline query nor a message. *)
Theorem message_without_reply (C : setup) (E : env) (d : update) (w : world) :
  upd_inline_query d = None ->
  match upd_message d with
  | Some msg =>
      msg_document msg = true
      \/ msg_text msg = None \/ msg_text msg = Some []
      \/ chat_type (msg_chat msg) <> lit "private"
  | None => True
  end ->
  handle_api_update C E d w = (Ret [LogUpdate d], w).
Proof.
  intros Hq Hm. unfold handle_api_update, handle_body. rewrite Hq.
  destruct (upd_message d) as [msg|]; [|reflexivity].
  destruct (msg_document msg); [reflexivity|].
  destruct (msg_text msg) as [[|c r]|]; try reflexivity.
  destruct Hm as [Hm|[Hm|[Hm|Hm]]]; try discriminate.
  unfold str_eqb. rewrite bool_decide_eq_false_2 by exact Hm. reflexivity.
Qed.

Lemma message_without_reply_witness :
  handle_api_update sample_setup E_ok group_message sample_world
  = (Ret [LogUpdate group_message], sample_world).
Proof.
  apply (message_without_reply sample_setup E_ok group_message sample_world).
  - reflexivity.
  - right. right. right. intros H. vm_compute in H. discriminate H.
Defined.

(** ** The document and the first stage *)


